(** * Bio.Phylo._utils: layout and drawing of phylogenetic trees

    A shallow embedding of [Bio/Phylo/_utils.py]: the ASCII renderer
    [draw_ascii], the matplotlib renderer [draw] and the graph export
    [to_networkx], together with the properties of the layout that the
    renderers share.

    Conventions of the embedding.
    - A Python [float] is a rational ([Q]): rounding, overflow and underflow
      are not modelled.  A statement that they could change is made for the
      inputs on which they cannot: branch lengths that are absent or
      moderate, and a column width within 2^30.
    - A clade object is identified by its position in the tree: the list of
      child indices leading to it from the root.  A [dict] keyed by clade
      objects is a [gmap] keyed by such paths.
    - A raised exception is the [Raise] outcome of the result type [Res].
    - [color] and [width], which [to_networkx] assigns to, live in a store
      beside the tree; calls on matplotlib and networkx are recorded.
    - The functions that [pyplot] has under a name are a parameter of
      [draw], like the line width of [rcParams].
    - The dicts of the layouts are plain values in [draw] and [draw_ascii];
      the module [Objects] has the layout functions once more, with the
      dicts as objects of a store.

    The file has three parts: the program, the notions that the statements
    use, and the properties with their proofs. *)

From Stdlib Require Import ZArith QArith Qround String Ascii List DecimalString.
From stdpp Require Import base option list gmap strings.

Open Scope Z_scope.

(** ** Python outcomes *)

Inductive PyErr : Type :=
  | ValueError (msg : string)
  | TypeError (msg : string)
  | IndexError
  | KeyError
  | ZeroDivisionError
  | AttributeError.

Inductive Res (A : Type) : Type :=
  | Ok (a : A)
  | Raise (e : PyErr).
Arguments Ok {A} a.
Arguments Raise {A} e.

#[global] Instance Res_ret : MRet Res := λ A a, Ok a.
#[global] Instance Res_bind : MBind Res := λ A B f m,
  match m with Ok a => f a | Raise e => Raise e end.

Definition succeeds {A} (r : Res A) : Prop := ∃ a, r = Ok a.

(** [for x in l: body], threading the state [s]; the index of the element is
    passed along, as [enumerate] does. *)
Definition for_each {A S : Type} (body : nat → A → S → Res S)
  : nat → list A → S → Res S :=
  fix go (i : nat) (l : list A) (s : S) : Res S :=
    match l with
    | [] => Ok s
    | x :: rest => s' ← body i x s; go (Datatypes.S i) rest s'
    end.

(** The same loop, for a body that cannot raise. *)
Definition fold_each {A S : Type} (body : nat → A → S → S)
  : nat → list A → S → S :=
  fix go (i : nat) (l : list A) (s : S) : S :=
    match l with
    | [] => s
    | x :: rest => go (Datatypes.S i) rest (body i x s)
    end.

(** [range(a, b)] *)
Definition py_range (a b : Z) : list Z :=
  (λ k : nat, a + Z.of_nat k) <$> seq 0 (Z.to_nat (b - a)).

Definition len {A} (l : list A) : Z := Z.of_nat (length l).

(** [l[i]] with Python's negative indices; the position found is returned
    with the element. *)
Definition py_getitem {A} (l : list A) (i : Z) : Res (nat * A) :=
  let j := if i <? 0 then i + len l else i in
  if j <? 0 then Raise IndexError
  else match l !! Z.to_nat j with
       | Some x => Ok (Z.to_nat j, x)
       | None => Raise IndexError
       end.

(** [l[i] = x] *)
Definition py_setitem {A} (l : list A) (i : Z) (x : A) : Res (list A) :=
  let j := if i <? 0 then i + len l else i in
  if (j <? 0) || (len l <=? j) then Raise IndexError
  else Ok (<[Z.to_nat j := x]> l).

(** [d[k]] *)
Definition py_lookup `{Countable K} {V} (d : gmap K V) (k : K) : Res V :=
  match d !! k with Some v => Ok v | None => Raise KeyError end.

(** [{k: v for k, v in items}]: a later item overwrites an earlier one. *)
Definition dict_of_items `{Countable K} {V} (items : list (K * V)) : gmap K V :=
  foldl (λ d kv, <[kv.1 := kv.2]> d) ∅ items.

(** [d.values()] *)
Definition values `{Countable K} {V} (d : gmap K V) : list V :=
  (map_to_list d).*2.

(** [max(l)] on floats. *)
Definition py_max (l : list Q) : Res Q :=
  match l with
  | [] => Raise (ValueError "max() arg is an empty sequence")
  | x :: rest => Ok (foldl (λ m y, if Qle_bool y m then m else y) x rest)
  end.

(** [max(l)] on ints. *)
Definition py_max_int (l : list Z) : Res Z :=
  match l with
  | [] => Raise (ValueError "max() arg is an empty sequence")
  | x :: rest => Ok (foldl Z.max x rest)
  end.

(** [a / b] on floats. *)
Definition py_truediv (a b : Q) : Res Q :=
  if Qeq_bool b 0 then Raise ZeroDivisionError else Ok (a / b)%Q.

(** [int(x)] on a float: truncation towards zero. *)
Definition py_int (x : Q) : Z :=
  if Qle_bool 0 x then Qfloor x else Qceiling x.

(** ** Trees *)

Abbreviation path := (list nat).

#[local] Unset Elimination Schemes.
Inductive Clade : Type := mkClade {
  name : option string;
  branch_length : option Q;
  confidence : option Q;
  confidences : option (list Q);
  clades : list Clade;
}.
#[local] Set Elimination Schemes.

Record Tree : Type := mkTree {
  root : Clade;
  rooted : bool;
  tree_name : option string;
}.

Module BaseTree.

(** Modelled from the spec: [Clade.is_terminal] of Bio.Phylo.BaseTree,
    "a clade with no children (a leaf)". *)
Definition is_terminal (c : Clade) : bool :=
  match clades c with [] => true | _ => false end.

(** Modelled from the spec: [Tree.get_terminals] of Bio.Phylo.BaseTree,
    the "ordered sequence of leaf Clades in left-to-right traversal
    order".  Each leaf comes with its path. *)
Fixpoint terminals_at (p : path) (c : Clade) : list (path * Clade) :=
  match clades c with
  | [] => [(p, c)]
  | subs =>
      fold_each (λ i sub found, found ++ terminals_at (p ++ [i]) sub)
        0%nat subs []
  end.

Definition get_terminals (tree : Tree) : list (path * Clade) :=
  terminals_at [] (root tree).

(** Modelled from the spec: [Tree.count_terminals]. *)
Definition count_terminals (tree : Tree) : Z := len (get_terminals tree).

(** Modelled from the spec: the length an edge contributes to
    [Tree.depths]: the branch length, nothing when it is absent, and one
    with [unit_branch_lengths=True]. *)
Definition depth_of (unit_branch_lengths : bool) (c : Clade) : Q :=
  if unit_branch_lengths then 1%Q
  else match branch_length c with Some l => l | None => 0%Q end.

(** Modelled from the spec: [Tree.depths] of Bio.Phylo.BaseTree, the
    "mapping Clade -> cumulative depth", "depth is 0 at the root";
    "unit branch length per edge (i.e., depth = number of edges from
    root)" with [unit_branch_lengths=True]. *)
Fixpoint update_depths (unit_branch_lengths : bool) (node : Clade)
    (p : path) (curr_depth : Q) (depths : gmap path Q) : gmap path Q :=
  fold_each (λ i child depths,
      update_depths unit_branch_lengths child (p ++ [i])
        (curr_depth + depth_of unit_branch_lengths child)%Q depths)
    0%nat (clades node) (<[p := curr_depth]> depths).

Definition depths (unit_branch_lengths : bool) (tree : Tree) : gmap path Q :=
  update_depths unit_branch_lengths (root tree) [] 0%Q ∅.

(** Modelled from the spec: [str(clade)], the clade's "name/label
    (nullable string)"; a clade without a name prints as its class name. *)
Definition str (c : Clade) : string :=
  match name c with Some s => s | None => "Clade" end.

End BaseTree.

(** ** The height layout

    [get_y_positions] (in [draw]) and [get_row_positions] (in [draw_ascii])
    each define a closure [calc_row] over the dict of positions.  The two
    closures have the same body up to the final division ([/ 2.0] on floats,
    [// 2] on ints), which is the parameter [midpoint] here. *)

Section calc_row.
Context {V : Type} (midpoint : V → V → V).

Fixpoint calc_row (clade : Clade) (p : path) (positions : gmap path V)
    : Res (gmap path V) :=
  positions ←
    for_each (λ i subclade positions,
        if decide (is_Some (positions !! (p ++ [i]))) then Ok positions
        else calc_row subclade (p ++ [i]) positions)
      0%nat (clades clade) positions;
  first ← py_getitem (clades clade) 0;
  a ← py_lookup positions (p ++ [first.1]);
  last ← py_getitem (clades clade) (-1);
  b ← py_lookup positions (p ++ [last.1]);
  Ok (<[p := midpoint a b]> positions).
End calc_row.

(** [enumerate(l)] *)
Definition enumerate {A} (l : list A) : list (Z * A) :=
  imap (λ i x, (Z.of_nat i, x)) l.

(** ** [draw_ascii] *)

Module DrawAscii.

(** The closures of [draw_ascii] take what they capture ([taxa],
    [drawing_width], [col_positions], [row_positions]) as arguments.

    The columns are computed in exact arithmetic.  The floats of the code
    can round [blen * cols_per_branch_unit + 1.0] to the integer below the
    exact value, which moves a column by one to the left, and they overflow
    to [inf] and [nan] (where [int] raises ValueError) on branch lengths
    near the largest float. *)

Definition get_col_positions (taxa : list (path * Clade)) (drawing_width : Z)
    (tree : Tree) : Res (gmap path Z) :=
  let depths := BaseTree.depths false tree in
  m ← py_max (values depths);
  let depths := if Qeq_bool m 0 then BaseTree.depths true tree else depths in
  (* math.ceil(math.log(len(taxa), 2)) *)
  fudge_margin ← (if len taxa <=? 0 then Raise (ValueError "math domain error")
                   else Ok (Z.log2_up (len taxa)));
  m ← py_max (values depths);
  cols_per_branch_unit ← py_truediv (inject_Z (drawing_width - fudge_margin)) m;
  Ok ((λ blen, py_int (blen * cols_per_branch_unit + 1)%Q) <$> depths).

Definition get_row_positions (taxa : list (path * Clade)) (tree : Tree)
    : Res (gmap path Z) :=
  let positions :=
    dict_of_items ((λ '(idx, taxon), (taxon.1, 2 * idx)) <$> enumerate taxa) in
  calc_row (λ a b, (a + b) `div` 2) (root tree) [] positions.

(** [char_matrix[row][col] = ch] *)
Definition set_cell (char_matrix : list (list ascii)) (row col : Z) (ch : ascii)
    : Res (list (list ascii)) :=
  r ← py_getitem char_matrix row;
  cells ← py_setitem r.2 col ch;
  Ok (<[r.1 := cells]> char_matrix).

Fixpoint draw_clade (col_positions row_positions : gmap path Z)
    (clade : Clade) (p : path) (startcol : Z)
    (char_matrix : list (list ascii)) : Res (list (list ascii)) :=
  thiscol ← py_lookup col_positions p;
  thisrow ← py_lookup row_positions p;
  (* Draw a horizontal line *)
  char_matrix ←
    for_each (λ _ col m, set_cell m thisrow col "_"%char)
      0%nat (py_range startcol thiscol) char_matrix;
  match clades clade with
  | [] => Ok char_matrix
  | _ :: _ =>
      (* Draw a vertical line *)
      first ← py_getitem (clades clade) 0;
      toprow ← py_lookup row_positions (p ++ [first.1]);
      last ← py_getitem (clades clade) (-1);
      botrow ← py_lookup row_positions (p ++ [last.1]);
      char_matrix ←
        for_each (λ _ row m, set_cell m row thiscol "|"%char)
          0%nat (py_range (toprow + 1) (botrow + 1)) char_matrix;
      firstcol ← py_lookup col_positions (p ++ [first.1]);
      char_matrix ←
        (if firstcol - thiscol <? 2
         then set_cell char_matrix toprow thiscol ","%char
         else Ok char_matrix);
      (* Draw descendents *)
      for_each (λ i child m,
          draw_clade col_positions row_positions child (p ++ [i]) (thiscol + 1) m)
        0%nat (clades clade) char_matrix
  end.

(** [c.isspace()] on a character below 256 *)
Definition is_space (c : ascii) : bool :=
  let n := nat_of_ascii c in
  ((9 <=? n) && (n <=? 13))%nat || ((28 <=? n) && (n <=? 32))%nat
  || (n =? 133)%nat || (n =? 160)%nat.

(** [s.lstrip()] on the characters of [s] *)
Fixpoint lstrip (s : list ascii) : list ascii :=
  match s with
  | c :: rest => if is_space c then lstrip rest else s
  | [] => []
  end.

(** [s.rstrip()] on the characters of [s] *)
Definition rstrip (s : list ascii) : list ascii :=
  reverse (lstrip (reverse s)).

(** The loop that prints the drawing; [file] is the list of the strings
    written so far. *)
Definition print_drawing (taxa : list (path * Clade))
    (char_matrix : list (list ascii)) (file : list string)
    : Res (list string) :=
  for_each (λ idx row file,
      let line := string_of_list_ascii (rstrip row) in
      line ← (if (Z.of_nat idx `mod` 2 =? 0)
               then taxon ← py_getitem taxa (Z.of_nat idx `div` 2);
                    Ok (line +:+ " " +:+ BaseTree.str taxon.2.2)
               else Ok line);
      Ok (file ++ [line +:+ String "010" EmptyString]))
    0%nat char_matrix file.

End DrawAscii.

(** [draw_ascii(tree, file, column_width)]: the result is the list of the
    strings written to [file], one per call of [file.write]. *)
Definition draw_ascii (tree : Tree) (column_width : Z) : Res (list string) :=
  let taxa := BaseTree.get_terminals tree in
  max_label_width ←
    py_max_int ((λ taxon, len (list_ascii_of_string (BaseTree.str taxon.2))) <$> taxa);
  let drawing_width := column_width - max_label_width - 1 in
  let drawing_height := 2 * len taxa - 1 in
  col_positions ← DrawAscii.get_col_positions taxa drawing_width tree;
  row_positions ← DrawAscii.get_row_positions taxa tree;
  let char_matrix :=
    replicate (Z.to_nat drawing_height) (replicate (Z.to_nat drawing_width) " "%char) in
  char_matrix ←
    DrawAscii.draw_clade col_positions row_positions (root tree) [] 0 char_matrix;
  file ← DrawAscii.print_drawing taxa char_matrix [];
  Ok (file ++ [String "010" EmptyString]).

(** ** State

    [color] and [width] are the two attributes of a clade that this module
    assigns to.  They live in a store keyed by the clade; a clade without an
    entry has the attribute [None].  Code that reads or writes the store, or
    calls into a plotting or graph library, runs in the monad [M]: a raised
    exception leaves the state as it was when raised. *)

Record Heap : Type := mkHeap {
  clade_color : gmap path string;  (* hex form, as [to_hex()] gives it *)
  clade_width : gmap path Q;
}.

Definition M (St A : Type) : Type := St → Res A * St.

#[global] Instance M_ret {St} : MRet (M St) := λ A a s, (Ok a, s).
#[global] Instance M_bind {St} : MBind (M St) := λ A B f m s,
  match m s with
  | (Ok a, s') => f a s'
  | (Raise e, s') => (Raise e, s')
  end.

Definition raise {St A} (e : PyErr) : M St A := λ s, (Raise e, s).
Definition lift {St A} (r : Res A) : M St A := λ s, (r, s).
Definition gets {St A} (f : St → A) : M St A := λ s, (Ok (f s), s).
Definition modify {St} (f : St → St) : M St unit := λ s, (Ok tt, f s).
Definition when {St} (b : bool) (m : M St unit) : M St unit :=
  if b then m else mret tt.

(** [for x in l: body] in [M] *)
Definition for_each_M {St A : Type} (body : nat → A → M St unit)
  : nat → list A → M St unit :=
  fix go (i : nat) (l : list A) : M St unit :=
    match l with
    | [] => mret tt
    | x :: rest => body i x ≫= λ _, go (S i) rest
    end.

(** [x or d] on an optional float *)
Definition py_or (x : option Q) (d : Q) : Q :=
  match x with
  | Some v => if Qeq_bool v 0 then d else v
  | None => d
  end.

(** ** [to_networkx] *)

Module ToNetworkx.

Record EdgeData : Type := mkEdgeData {
  weight : option Q;
  color : option string;
  width : option Q;
}.

Record Graph : Type := mkGraph {
  directed : bool;
  nodes : gset path;
  edges : gmap (path * path) EdgeData;
}.

Record State : Type := mkState {
  heap : Heap;
  G : Graph;
}.

Definition set_G (f : Graph → Graph) : M State unit :=
  modify (λ s, mkState (heap s) (f (G s))).
Definition set_heap (f : Heap → Heap) : M State unit :=
  modify (λ s, mkState (f (heap s)) (G s)).

(** [graph.add_node(n)] *)
Definition graph_add_node (n : path) : M State unit :=
  set_G (λ g, mkGraph (directed g) ({[n]} ∪ nodes g) (edges g)).

(** [graph.add_edge(n1, n2, ...)] *)
Definition graph_add_edge (n1 n2 : path) (w : option Q) : M State unit :=
  set_G (λ g, mkGraph (directed g) ({[n1; n2]} ∪ nodes g)
                (<[(n1, n2) := mkEdgeData w None None]> (edges g))).

(** [graph[n1][n2]["color"] = c] and [graph[n1][n2]["width"] = w] *)
Definition edge_set_color (n1 n2 : path) (c : string) : M State unit :=
  set_G (λ g, mkGraph (directed g) (nodes g)
                (alter (λ d, mkEdgeData (weight d) (Some c) (width d)) (n1, n2) (edges g))).
Definition edge_set_width (n1 n2 : path) (w : Q) : M State unit :=
  set_G (λ g, mkGraph (directed g) (nodes g)
                (alter (λ d, mkEdgeData (weight d) (color d) (Some w)) (n1, n2) (edges g))).

(** The three definitions of [add_edge], chosen by
    [networkx.__version__]. *)
Definition add_edge (version : string) (n1 n2 : path) (c2 : Clade) : M State unit :=
  if String.leb "1.0" version then
    graph_add_edge n1 n2 (Some (py_or (branch_length c2) 1));;
    color1 ← gets (λ s, clade_color (heap s) !! n1);
    color2 ← gets (λ s, clade_color (heap s) !! n2);
    match color2, color1 with
    | Some c, _ => edge_set_color n1 n2 c
    | None, Some c =>
        (* Cascading color attributes *)
        edge_set_color n1 n2 c;;
        set_heap (λ h, mkHeap (<[n2 := c]> (clade_color h)) (clade_width h))
    | None, None => mret tt
    end;;
    width1 ← gets (λ s, clade_width (heap s) !! n1);
    width2 ← gets (λ s, clade_width (heap s) !! n2);
    match width2, width1 with
    | Some w, _ => edge_set_width n1 n2 w
    | None, Some w =>
        (* Cascading width attributes *)
        edge_set_width n1 n2 w;;
        set_heap (λ h, mkHeap (clade_color h) (<[n2 := w]> (clade_width h)))
    | None, None => mret tt
    end
  else if String.leb "0.99" version then
    graph_add_edge n1 n2 (Some (py_or (branch_length c2) 1))
  else
    graph_add_edge n1 n2 None.

Fixpoint build_subgraph (version : string) (top : Clade) (p : path)
    : M State unit :=
  for_each_M (λ i clade,
      graph_add_node (p ++ [i]);;
      add_edge version p (p ++ [i]) clade;;
      build_subgraph version clade (p ++ [i]))
    0%nat (clades top).

End ToNetworkx.

(** [to_networkx(tree)], from the clade attributes [h]: the graph, and the
    attributes after the call. *)
Definition to_networkx (version : string) (tree : Tree) (h : Heap)
    : Res ToNetworkx.Graph * Heap :=
  let G := ToNetworkx.mkGraph (rooted tree) ∅ ∅ in
  let '(r, s) :=
    (ToNetworkx.graph_add_node [];;
     ToNetworkx.build_subgraph version (root tree) [])
      (ToNetworkx.mkState h G) in
  (r ≫= λ _, Ok (ToNetworkx.G s), ToNetworkx.heap s).

(** ** [draw] *)

Module Draw.

(** Values of keyword arguments passed to the plotting library. *)
Inductive PyVal : Type :=
  | VStr (s : string)
  | VNum (q : Q).

Record LineCollection : Type := mkLineCollection {
  segment : (Q * Q) * (Q * Q);
  lc_color : string;
  lc_lw : Q;
  lc_linestyle : string;
}.

(** The calls on [pyplot], the figure and the axes.  In the polar
    projection an angle is given in units of pi radians. *)
Inductive Call : Type :=
  | plt_figure
  | fig_add_subplot (projection : option string)
  | axes_yaxis_grid (b : bool)
  | axes_set_xticks (ticks : list Q)
  | axes_set_yticklabels (labels : list string)
  | axes_hlines (y xmin xmax : Q) (color : string) (lw : Q) (linestyle : string)
  | axes_vlines (x ymin ymax : Q) (color : string) (linestyle : string)
  | axes_text (x y : Q) (s : option string) (kw : list (string * PyVal))
  | axes_plot (xs ys : list Q) (color : string) (lw : Q) (linestyle : option string)
  | axes_add_collection (lc : LineCollection)
  | axes_set_xlabel (s : string)
  | axes_set_ylabel (s : string)
  | axes_set_xlim (a b : Q)
  | axes_set_ylim (a b : Q)
  | axes_set_title (s : string)
  | plt_option (key : string) (args : list string) (kwargs : list (string * string))
  | plt_show.

(** A call that puts a line or a text on the plotting surface. *)
Definition is_drawing (c : Call) : bool :=
  match c with
  | axes_hlines _ _ _ _ _ _ | axes_vlines _ _ _ _ _ | axes_text _ _ _ _
  | axes_plot _ _ _ _ _ | axes_add_collection _ => true
  | _ => false
  end.

Record Plot : Type := mkPlot {
  heap : Heap;
  calls : list Call;  (* in the order issued *)
  horizontal_linecollections : list LineCollection;
  vertical_linecollections : list LineCollection;
}.

Definition issue (c : Call) : M Plot unit :=
  modify (λ s, mkPlot (heap s) (calls s ++ [c])
                 (horizontal_linecollections s) (vertical_linecollections s)).

(** The argument [axes], when it is not [None]. *)
Record Axes : Type := mkAxes {
  is_Axes_instance : bool;     (* [isinstance(axes, plt.matplotlib.axes.Axes)] *)
  axes_name : option string;  (* [str(axes.name)]; [None]: no attribute [name] *)
  axes_str : string;           (* ["%s" % axes] *)
}.

(** The argument [branch_labels]. *)
Inductive BranchLabels : Type :=
  | BL_None
  | BL_dict (d : gmap path string)
  | BL_callable (f : path → Clade → option string)
  | BL_other (truthy : bool).  (* a number, a string, a list, ... *)

(** [bool(branch_labels)] *)
Definition BL_truthy (b : BranchLabels) : bool :=
  match b with
  | BL_None => false
  | BL_dict d => negb (bool_decide (d = ∅))
  | BL_callable _ => true
  | BL_other t => t
  end.

(** The argument [label_colors]. *)
Inductive LabelColors : Type :=
  | LC_None
  | LC_dict (d : gmap string string)
  | LC_callable (f : string → string).

(** The value of a passthrough keyword argument, by what lines 765-780
    do with it. *)
Inductive KwValue : Type :=
  | kw_not_iterable (str : string)  (* [list(value)] raises [TypeError] *)
  | kw_dict (kw : list (string * string))
  | kw_args (args : list string)  (* a sequence whose first item is no tuple *)
  | kw_args_kw (args : list string) (kw : list (string * string))
  | kw_no_item (e : PyErr)
      (* an iterable that is no dict, on which [value[0]] raises [e]: a set *)
  | kw_bad_pair (e : PyErr).
      (* the first item is a tuple, and [dict(value[1])] raises [e] *)

Record Args : Type := mkArgs {
  label_func : path → Clade → option string;
  do_show : bool;
  show_confidence : bool;
  axes : option Axes;
  branch_labels : BranchLabels;
  label_colors : LabelColors;
  orient_tree : string;
  horizontal_direction : string;
  vertical_direction : string;
  circular_span : Q;
  draw_labels : bool;
  align_labels : bool;
  kwargs : list (string * KwValue);
}.

(** [x in l] on strings *)
Definition str_in (x : string) (l : list string) : bool :=
  existsb (String.eqb x) l.

(** A function of [pyplot], as [draw] uses it: the outcome of a call with
    positional and keyword arguments. *)
Definition PyplotFunction : Type :=
  list string → list (string * string) → Res unit.

Section draw.
(** [plt.rcParams["lines.linewidth"]], [str] on a float that is not an
    integer, and [getattr(plt, name)]: the function of that name, or [None]
    when [pyplot] has no such attribute. *)
Variable lines_linewidth : Q.
Variable float_str : Q → string.
Variable plt_getattr : string → option PyplotFunction.

Definition conf2str (conf : Q) : string :=
  if Qeq_bool (inject_Z (py_int conf)) conf
  then NilZero.string_of_int (Z.to_int (py_int conf))
  else float_str conf.

(** The [format_branch_label] defined under [show_confidence]. *)
Definition confidence_label (clade : Clade) : option string :=
  match confidences clade with
  | Some cnfs => Some (String.concat "/" (conf2str <$> cnfs))
  | None =>
      match confidence clade with
      | Some cnf => Some (conf2str cnf)
      | None => None
      end
  end.

(** The choice of [format_branch_label]. *)
Definition choose_format_branch_label (branch_labels : BranchLabels)
    (show_confidence : bool) : Res (path → Clade → option string) :=
  if negb (BL_truthy branch_labels) then
    if show_confidence then Ok (λ _ clade, confidence_label clade)
    else Ok (λ _ _, None)
  else
    match branch_labels with
    | BL_dict d => Ok (λ p _, d !! p)
    | BL_callable f => Ok f
    | _ => Raise (TypeError
             "branch_labels must be either a dict or a callable (function)")
    end.

(** The choice of [get_label_color]. *)
Definition choose_get_label_color (label_colors : LabelColors)
    : string → string :=
  match label_colors with
  | LC_callable f => f
  | LC_dict d =>
      if bool_decide (d = ∅) then λ _, "black"
      else λ label, default "black" (d !! label)
  | LC_None => λ _, "black"
  end.

Definition get_x_positions (tree : Tree) : Res (gmap path Q) :=
  let depths := BaseTree.depths false tree in
  m ← py_max (values depths);
  (* If there are no branch lengths, assume unit branch lengths *)
  if Qeq_bool m 0 then Ok (BaseTree.depths true tree) else Ok depths.

Definition get_y_positions (tree : Tree) : Res (gmap path Q) :=
  let maxheight := BaseTree.count_terminals tree in
  let heights :=
    dict_of_items
      ((λ '(i, tip), (tip.1, inject_Z (maxheight - i)))
         <$> enumerate (reverse (BaseTree.get_terminals tree))) in
  match clades (root tree) with
  | _ :: _ => calc_row (λ a b, (a + b) / 2)%Q (root tree) [] heights
  | [] => Ok heights
  end.

Definition draw_clade_lines (use_linecollection : bool) (orientation : string)
    (y_here x_start x_here y_bot y_top : Q) (color : string) (lw : Q)
    (linestyle : string) : M Plot unit :=
  if negb use_linecollection && String.eqb orientation "horizontal" then
    issue (axes_hlines y_here x_start x_here color lw linestyle)
  else if use_linecollection && String.eqb orientation "horizontal" then
    modify (λ s, mkPlot (heap s) (calls s)
      (horizontal_linecollections s ++
         [mkLineCollection ((x_start, y_here), (x_here, y_here)) color lw linestyle])
      (vertical_linecollections s))
  else if negb use_linecollection && String.eqb orientation "vertical" then
    issue (axes_vlines x_here y_bot y_top color linestyle)
  else if use_linecollection && String.eqb orientation "vertical" then
    modify (λ s, mkPlot (heap s) (calls s)
      (horizontal_linecollections s)
      (vertical_linecollections s ++
         [mkLineCollection ((x_here, y_bot), (x_here, y_top)) color lw linestyle]))
  else mret tt.


(** *** The closures of [draw]

    [draw_clade] and [draw_clade_polar] close over the arguments of [draw],
    the two layouts and the two label functions chosen above. *)

Section closures.
Variable tree : Tree.
Variable a : Args.
Variable format_branch_label : path → Clade → option string.
Variable get_label_color : string → string.
Variable x_posns y_posns : gmap path Q.

(** [clade in tree.get_terminals()] *)
Definition in_terminals (p : path) : bool :=
  bool_decide (p ∈ (BaseTree.get_terminals tree).*1).

(** The label of the node or taxon, in both Cartesian orientations. *)
Definition draw_label (p : path) (clade : Clade) (x_here y_here xmax : Q)
    (text_at : Q → string → M Plot unit) : M Plot unit :=
  match label_func a p clade with
  | None => mret tt
  | Some label =>
      if String.eqb label "Clade" then mret tt
      else
        let xplc := if align_labels a && in_terminals p
                    then (xmax + xmax / 30)%Q else x_here in
        when (draw_labels a) (text_at xplc label)
  end.

Fixpoint draw_clade (clade : Clade) (p : path) (x_start : Q) (color : string)
    (lw : Q) : M Plot unit :=
  x_here ← lift (py_lookup x_posns p);
  y_here ← lift (py_lookup y_posns p);
  xmax ← lift (py_max (values x_posns));
  (* phyloXML-only graphics annotations *)
  own_color ← gets (λ s, clade_color (heap s) !! p);
  let color := default color own_color in
  own_width ← gets (λ s, clade_width (heap s) !! p);
  let lw := match own_width with
            | Some w => (w * lines_linewidth)%Q
            | None => lw
            end in
  if String.eqb (orient_tree a) "vertical" then
    (* Draw a horizontal line from start to here *)
    draw_clade_lines true "horizontal" y_here x_start x_here 0 0 color lw "solid";;
    when (in_terminals p && align_labels a)
      (draw_clade_lines true "horizontal" y_here x_here xmax 0 0 color
         (lw - 1)%Q "-.");;
    (* Add node/taxon labels *)
    draw_label p clade x_here y_here xmax (λ xplc label,
      let ha := if String.eqb (vertical_direction a) "right"
                then "left" else "right" in
      issue (axes_text xplc y_here (Some (" " +:+ label))
               [("verticalalignment", VStr "center");
                ("horizontalalignment", VStr ha);
                ("color", VStr (get_label_color label))]));;
    (* Add label above the branch (optional) *)
    when (draw_labels a)
      (match format_branch_label p clade with
       | Some conf_label =>
           when (negb (String.eqb conf_label EmptyString))
             (issue (axes_text ((1 # 2) * (x_start + x_here))%Q y_here
                       (Some conf_label)
                       [("fontsize", VStr "small");
                        ("horizontalalignment", VStr "center")]))
       | None => mret tt
       end);;
    match clades clade with
    | [] => mret tt
    | _ :: _ =>
        (* Draw a vertical line connecting all children *)
        first ← lift (py_getitem (clades clade) 0);
        y_top ← lift (py_lookup y_posns (p ++ [first.1]));
        last ← lift (py_getitem (clades clade) (-1));
        y_bot ← lift (py_lookup y_posns (p ++ [last.1]));
        draw_clade_lines true "vertical" 0 0 x_here y_bot y_top color lw "solid";;
        (* Draw descendents *)
        for_each_M (λ i child, draw_clade child (p ++ [i]) x_here color lw)
          0%nat (clades clade)
    end
  else if String.eqb (orient_tree a) "horizontal" then
    draw_clade_lines true "vertical" 0 0 y_here x_start x_here color lw "solid";;
    when (in_terminals p && align_labels a)
      (draw_clade_lines true "vertical" 0 0 y_here x_here xmax color
         (lw - 1)%Q "-.");;
    (* Add node/taxon labels *)
    draw_label p clade x_here y_here xmax (λ xplc label,
      let va := if String.eqb (horizontal_direction a) "up"
                then "bottom" else "top" in
      issue (axes_text y_here xplc (Some (" " +:+ label))
               [("verticalalignment", VStr va);
                ("horizontalalignment", VStr "center");
                ("color", VStr (get_label_color label));
                ("rotation", VNum 90)]));;
    (* Add label above the branch (optional) *)
    when (draw_labels a)
      (match format_branch_label p clade with
       | Some conf_label =>
           when (negb (String.eqb conf_label EmptyString))
             (last ← lift (py_getitem (clades clade) (-1));
              y_last ← lift (py_lookup y_posns (p ++ [last.1]));
              issue (axes_text ((1 # 2) * (y_last + y_here))%Q x_here
                       (Some conf_label)
                       [("fontsize", VStr "small");
                        ("horizontalalignment", VStr "center")]))
       | None => mret tt
       end);;
    match clades clade with
    | [] => mret tt
    | _ :: _ =>
        (* Draw a vertical line connecting all children *)
        first ← lift (py_getitem (clades clade) 0);
        y_top ← lift (py_lookup y_posns (p ++ [first.1]));
        last ← lift (py_getitem (clades clade) (-1));
        y_bot ← lift (py_lookup y_posns (p ++ [last.1]));
        draw_clade_lines true "horizontal" x_here y_bot y_top 0 0 color lw "solid";;
        (* Draw descendents *)
        for_each_M (λ i child, draw_clade child (p ++ [i]) x_here color lw)
          0%nat (clades clade)
    end
  else mret tt.

(** [np.linspace(a, b, n)] *)
Definition linspace (a b : Q) (n : nat) : list Q :=
  (λ i : nat, a + inject_Z (Z.of_nat i) * ((b - a) / inject_Z (Z.of_nat n - 1)))%Q
    <$> seq 0 n.

(** [min(l)] on floats. *)
Definition py_min (l : list Q) : Res Q :=
  match l with
  | [] => Raise (ValueError "min() arg is an empty sequence")
  | x :: rest => Ok (foldl (λ m y, if Qle_bool m y then m else y) x rest)
  end.

(** The alignment and the rotation of a label at [rot] degrees. *)
Definition polar_alignment (rot : Q) : string * string * Q :=
  if Qle_bool rot 90 then ("center", "left", rot)
  else if Qle_bool rot 180 then ("center", "right", rot - 180)%Q
  else if Qle_bool rot 270 then ("center", "right", rot - 180)%Q
  else ("center", "left", rot).

Fixpoint draw_clade_polar (clade : Clade) (p : path) (color : string) (lw : Q)
    (x_start y_start : Q) : M Plot unit :=
  (* the angle that each y value is associated with *)
  ymax ← lift (py_max (values y_posns));
  yang ← lift (py_truediv (circular_span a) ymax);
  m ← lift (py_max (values x_posns));
  let xmax := (m + m / 30)%Q in
  (* (circular_span*np.pi/180)/ymax, in units of pi *)
  rad ← lift (py_truediv (circular_span a / 180) ymax);
  x_here ← lift (py_lookup x_posns p);
  y ← lift (py_lookup y_posns p);
  let y_here := (y * rad)%Q in
  issue (axes_plot [y_start; y_here] [x_start; x_here] color lw None);;
  when (in_terminals p && align_labels a)
    (issue (axes_plot [y_start; y_here] [x_here; xmax] color (lw - 1)%Q (Some "-.")));;
  (* plot the labels on branches and rotate them appropriately *)
  let rot := (y_here * 180)%Q in
  let label := label_func a p clade in
  match name clade with
  | None => mret tt
  | Some n =>
      if String.eqb n "Clade" then mret tt
      else
        let xplc := if align_labels a && in_terminals p then xmax else x_here in
        let '(va, ha, rot) := polar_alignment rot in
        when (draw_labels a)
          (issue (axes_text y_here xplc label
                    [("color", VStr "k"); ("rotation", VNum rot);
                     ("rotation_mode", VStr "anchor");
                     ("va", VStr va); ("ha", VStr ha)]))
  end;;
  match clades clade with
  | [] => mret tt
  | _ :: _ =>
      first ← lift (py_getitem (clades clade) 0);
      y_first ← lift (py_lookup y_posns (p ++ [first.1]));
      let y_top := (y_first * yang / 180)%Q in
      last ← lift (py_getitem (clades clade) (-1));
      y_last ← lift (py_lookup y_posns (p ++ [last.1]));
      let y_bot := (y_last * yang / 180)%Q in
      (* plot a curve between this angle and the previous angle *)
      let x := linspace y_bot y_top 500 in
      let y := (λ _, x_here) <$> x in  (* interp1d between equal radii *)
      issue (axes_plot x y color lw None);;
      (* the distance between each branch coming from this x line *)
      ymin ← lift (py_min x);
      ymax ← lift (py_max x);
      let ydiff := (ymax - ymin)%Q in
      let c1 := len (clades clade) - 2 in
      let locs := [ymin] ++ ((λ _, ydiff / inject_Z (c1 + 1) + ymin)%Q
                               <$> py_range 0 c1) ++ [ymax] in
      for_each_M (λ count child,
          y_start ← (if in_terminals (p ++ [count])
                     then y ← lift (py_lookup y_posns (p ++ [count]));
                          mret (y * rad)%Q
                     else loc ← lift (py_getitem locs (Z.of_nat count));
                          mret loc.2);
          draw_clade_polar child (p ++ [count]) color lw x_here y_start)
        0%nat (clades clade)
  end.

End closures.

(** *** The body of [draw] *)

(** Lines 287-292: the orientation and its direction. *)
Definition check_orientation (a : Args) : Res unit :=
  if negb (str_in (orient_tree a) ["horizontal"; "vertical"; "circular"]) then
    Raise (ValueError
      "orient_tree must be one of 'horizontal', 'vertical' or 'circular'")
  else if String.eqb (orient_tree a) "vertical"
          && negb (str_in (vertical_direction a) ["right"; "left"]) then
    Raise (ValueError "vertical_direction must be one of 'right' or 'left'")
  else if String.eqb (orient_tree a) "horizontal"
          && negb (str_in (horizontal_direction a) ["up"; "down"]) then
    Raise (ValueError "horizontal_direction must be one of 'up' or 'down'")
  else Ok tt.

(** Lines 396-408: the axes to draw on. *)
Definition setup_axes (a : Args) : M Plot unit :=
  match axes a with
  | None =>
      issue plt_figure;;
      issue (fig_add_subplot None);;
      when (String.eqb (orient_tree a) "circular")
        (issue (fig_add_subplot (Some "polar"));;
         issue (axes_yaxis_grid false);;
         issue (axes_set_xticks []);;
         issue (axes_set_yticklabels []))
  | Some ax =>
      if String.eqb (orient_tree a) "circular" then
        match axes_name ax with
        | None => raise AttributeError  (* axes.name *)
        | Some name =>
            if negb (String.eqb name "polar") then
              raise (ValueError ("Axes " +:+ axes_str ax +:+
                       " must have projection='polar' for a circular plot"))
            else mret tt
        end
      else if negb (is_Axes_instance ax) then
        raise (ValueError ("Invalid argument for axes: " +:+ axes_str ax))
      else mret tt
  end.

(** Lines 704-750: the tree is drawn and the limits of the axes are set. *)
Definition draw_tree (tree : Tree) (a : Args)
    (format_branch_label : path → Clade → option string)
    (get_label_color : string → string) (x_posns y_posns : gmap path Q)
    : M Plot unit :=
  if str_in (orient_tree a) ["horizontal"; "vertical"] then
    draw_clade tree a format_branch_label get_label_color x_posns y_posns
      (root tree) [] 0 "k" lines_linewidth;;
    (* the line collections are added to the pyplot plot *)
    hs ← gets horizontal_linecollections;
    for_each_M (λ _ i, issue (axes_add_collection i)) 0%nat hs;;
    vs ← gets vertical_linecollections;
    for_each_M (λ _ i, issue (axes_add_collection i)) 0%nat vs;;
    if String.eqb (orient_tree a) "vertical" then
      issue (axes_set_xlabel "branch length");;
      issue (axes_set_ylabel "taxa");;
      ymax ← lift (py_max (values y_posns));
      issue (axes_set_ylim (ymax + (4 # 5)) (1 # 5))%Q;;
      xmax ← lift (py_max (values x_posns));
      if String.eqb (vertical_direction a) "right"
      then issue (axes_set_xlim (- (1 # 20) * xmax) ((5 # 4) * xmax))%Q
      else issue (axes_set_xlim ((5 # 4) * xmax) (- (1 # 20) * xmax))%Q
    else
      issue (axes_set_ylabel "branch length");;
      issue (axes_set_xlabel "taxa");;
      ymax ← lift (py_max (values y_posns));
      issue (axes_set_xlim (ymax + (4 # 5)) (1 # 5))%Q;;
      xmax ← lift (py_max (values x_posns));
      if String.eqb (horizontal_direction a) "down" && align_labels a
      then issue (axes_set_ylim ((3 # 2) * xmax) (- (1 # 20) * xmax))%Q
      else if String.eqb (horizontal_direction a) "down"
      then issue (axes_set_ylim ((5 # 4) * xmax) (- (1 # 20) * xmax))%Q
      else if String.eqb (horizontal_direction a) "up" && align_labels a
      then issue (axes_set_ylim (- (1 # 20) * xmax) ((8 # 5) * xmax))%Q
      else issue (axes_set_ylim (- (1 # 20) * xmax) ((5 # 4) * xmax))%Q
  else if String.eqb (orient_tree a) "circular" then
    draw_clade_polar tree a x_posns y_posns
      (root tree) [] "k" lines_linewidth 0 0;;
    xmax ← lift (py_max (values x_posns));
    if draw_labels a && align_labels a
    then issue (axes_set_ylim 0 ((3 # 2) * xmax))%Q
    else if draw_labels a
    then issue (axes_set_ylim 0 ((5 # 4) * xmax))%Q
    else issue (axes_set_ylim 0 xmax)
  else mret tt.

Definition dquote : string := String "034" EmptyString.

(** The error of lines 770-774, for the option [key=str]. *)
Definition keyword_error (key str : string) : PyErr :=
  ValueError
    ("Keyword argument " +:+ dquote +:+ key +:+ "=" +:+ str +:+ dquote +:+
     " is not in the format pyplot_option_name=(tuple), " +:+
     "pyplot_option_name=(tuple, dict), or pyplot_option_name=(dict) ").

(** [getattr(plt, str(key))], called with the positional arguments
    [args] and the keyword arguments [kw]. *)
Definition pyplot_call (key : string) (args : list string)
    (kw : list (string * string)) : M Plot unit :=
  match plt_getattr key with
  | None => raise AttributeError
  | Some f => issue (plt_option key args kw);; lift (f args kw)
  end.

(** Lines 765-780: one passthrough keyword argument. *)
Definition pyplot_option (key : string) (value : KwValue) : M Plot unit :=
  match value with
  | kw_not_iterable str => raise (keyword_error key str)
  | kw_dict kw => pyplot_call key [] kw
  | kw_args [] => raise IndexError  (* value[0] *)
  | kw_args args => pyplot_call key args []
  | kw_args_kw args kw => pyplot_call key args kw
  | kw_no_item e => raise e  (* value[0] *)
  | kw_bad_pair e =>
      match plt_getattr key with
      | None => raise AttributeError
      | Some _ => raise e  (* dict(value[1]) *)
      end
  end.

(** Lines 287-762: everything before the keyword arguments are looked at. *)
Definition draw_figure (tree : Tree) (a : Args) : M Plot unit :=
  lift (check_orientation a);;
  format_branch_label ←
    lift (choose_format_branch_label (branch_labels a) (show_confidence a));
  let get_label_color := choose_get_label_color (label_colors a) in
  (* Layout *)
  x_posns ← lift (get_x_positions tree);
  y_posns ← lift (get_y_positions tree);
  setup_axes a;;
  draw_tree tree a format_branch_label get_label_color x_posns y_posns;;
  (* Aesthetics *)
  match tree_name tree with
  | Some name => when (negb (String.eqb name EmptyString)) (issue (axes_set_title name))
  | None => mret tt
  end.

Definition draw_body (tree : Tree) (a : Args) : M Plot unit :=
  draw_figure tree a;;
  (* Parse and process key word arguments as pyplot options *)
  for_each_M (λ _ kv, pyplot_option kv.1 kv.2) 0%nat (kwargs a);;
  when (do_show a) (issue plt_show).

End draw.
End Draw.

(** [draw(tree, ...)], from the clade attributes [h]: the outcome, and the
    state of the plot (with the clade attributes) after the call. *)
Definition draw (lines_linewidth : Q) (float_str : Q → string)
    (plt_getattr : string → option Draw.PyplotFunction)
    (tree : Tree) (a : Draw.Args) (h : Heap) : Res unit * Draw.Plot :=
  Draw.draw_body lines_linewidth float_str plt_getattr tree a
    (Draw.mkPlot h [] [] []).

(** ** The dicts of the layouts as objects

    A layout function makes a dict, fills it and returns it; the closure
    [calc_row] assigns to the dict that its function has made.  To tell
    what a call keeps for the next one, the dicts are objects of a store
    here: the store is the list of the dicts made so far, the address of a
    dict is its index, and a layout function returns the address of its
    dict. *)

Module Objects.

(** [{...}]: a new dict, at the next address. *)
Definition new_dict {V} (d : gmap path V) : M (list (gmap path V)) nat :=
  λ s, (Ok (length s), s ++ [d]).

(** The dict at the address [l], as it is now. *)
Definition dict_at {V} (l : nat) : M (list (gmap path V)) (gmap path V) :=
  gets (λ s, default ∅ (s !! l)).

(** [d[k] = v], for the dict [d] at the address [l]. *)
Definition dict_setitem {V} (l : nat) (k : path) (v : V)
    : M (list (gmap path V)) unit :=
  modify (λ s, <[l := <[k := v]> (default ∅ (s !! l))]> s).

Section calc_row.
Context {V : Type} (midpoint : V → V → V).

(** The closure [calc_row] over the dict at the address [positions]. *)
Fixpoint calc_row (positions : nat) (clade : Clade) (p : path)
    : M (list (gmap path V)) unit :=
  for_each_M (λ i subclade,
      d ← dict_at positions;
      if decide (is_Some (d !! (p ++ [i]))) then mret tt
      else calc_row positions subclade (p ++ [i]))
    0%nat (clades clade);;
  first ← lift (py_getitem (clades clade) 0);
  d ← dict_at positions;
  a ← lift (py_lookup d (p ++ [first.1]));
  last ← lift (py_getitem (clades clade) (-1));
  d ← dict_at positions;
  b ← lift (py_lookup d (p ++ [last.1]));
  dict_setitem positions p (midpoint a b).
End calc_row.

(** Modelled from the spec: [Tree.depths] returns a "mapping Clade ->
    cumulative depth"; the mapping is a dict that the call has made. *)
Definition depths (unit_branch_lengths : bool) (tree : Tree)
    : M (list (gmap path Q)) nat :=
  new_dict (BaseTree.depths unit_branch_lengths tree).

(** [get_x_positions] of [draw] *)
Definition get_x_positions (tree : Tree) : M (list (gmap path Q)) nat :=
  depths' ← depths false tree;
  d ← dict_at depths';
  m ← lift (py_max (values d));
  (* If there are no branch lengths, assume unit branch lengths *)
  if Qeq_bool m 0 then depths true tree else mret depths'.

(** [get_y_positions] of [draw] *)
Definition get_y_positions (tree : Tree) : M (list (gmap path Q)) nat :=
  let maxheight := BaseTree.count_terminals tree in
  heights ←
    new_dict
      (dict_of_items
         ((λ '(i, tip), (tip.1, inject_Z (maxheight - i)))
            <$> enumerate (reverse (BaseTree.get_terminals tree))));
  match clades (root tree) with
  | _ :: _ => calc_row (λ a b, (a + b) / 2)%Q heights (root tree) []
  | [] => mret tt
  end;;
  mret heights.

(** [get_col_positions] of [draw_ascii]; the depths are used up here, and
    the dict that is returned is made by the comprehension. *)
Definition get_col_positions (taxa : list (path * Clade)) (drawing_width : Z)
    (tree : Tree) : M (list (gmap path Z)) nat :=
  let depths := BaseTree.depths false tree in
  m ← lift (py_max (values depths));
  let depths := if Qeq_bool m 0 then BaseTree.depths true tree else depths in
  fudge_margin ←
    lift (if len taxa <=? 0 then Raise (ValueError "math domain error")
          else Ok (Z.log2_up (len taxa)));
  m ← lift (py_max (values depths));
  cols_per_branch_unit ←
    lift (py_truediv (inject_Z (drawing_width - fudge_margin)) m);
  new_dict ((λ blen, py_int (blen * cols_per_branch_unit + 1)%Q) <$> depths).

(** [get_row_positions] of [draw_ascii] *)
Definition get_row_positions (taxa : list (path * Clade)) (tree : Tree)
    : M (list (gmap path Z)) nat :=
  positions ←
    new_dict
      (dict_of_items ((λ '(idx, taxon), (taxon.1, 2 * idx)) <$> enumerate taxa));
  calc_row (λ a b, (a + b) `div` 2) positions (root tree) [];;
  mret positions.

End Objects.

(** * Notions of the statements *)

(** ** Clades by their paths *)

(** The clade that the path [q] leads to from [c]. *)
Fixpoint subclade (c : Clade) (q : path) : option Clade :=
  match q with
  | [] => Some c
  | i :: q' => clades c !! i ≫= λ sub, subclade sub q'
  end.

(** A leaf of [c]: a path from [c] to a clade without children. *)
Definition leaf_of (c : Clade) (q : path) (c' : Clade) : Prop :=
  subclade c q = Some c' ∧ clades c' = [].

(** ** Layouts *)

(** Below [p], the dict holds the leaves of [c] and nothing else. *)
Definition tips_only {V} (h : gmap path V) (p : path) (c : Clade) : Prop :=
  ∀ q, is_Some (h !! (p ++ q)) ↔ ∃ c', leaf_of c q c'.

(** The clade [c'] at [r] sits at the midpoint of its first and its last
    child. *)
Definition midpoint_at {V} (midpoint : V → V → V) (h : gmap path V)
    (r : path) (c' : Clade) : Prop :=
  ∃ a b, h !! (r ++ [0%nat]) = Some a ∧
         h !! (r ++ [(length (clades c') - 1)%nat]) = Some b ∧
         h !! r = Some (midpoint a b).

(** [h'] keeps every entry of [h], and every entry outside [region]. *)
Definition extends {V} (h h' : gmap path V) (region : path → Prop) : Prop :=
  ∀ r, is_Some (h !! r) ∨ ¬ region r → h' !! r = h !! r.

(** The items of the dict of the tips, [{tip: value(i) for i, tip in
    enumerate(l)}]. *)
Definition tip_items {V} (value : Z → V) (l : list (path * Clade))
    : list (path * V) :=
  (λ '(i, tip), (tip.1, value i)) <$> enumerate l.

(** The tip at index [j] of the traversal is at [value j]. *)
Definition tips_at {V} (value : nat → V) (tree : Tree)
    (positions : gmap path V) : Prop :=
  ∀ j tip, BaseTree.get_terminals tree !! j = Some tip →
           positions !! tip.1 = Some (value j).

(** Every clade with children is at [midpoint] of its first and its last
    child. *)
Definition midpoints {V} (midpoint : V → V → V) (tree : Tree)
    (positions : gmap path V) : Prop :=
  ∀ p c, subclade (root tree) p = Some c → clades c ≠ [] →
         midpoint_at midpoint positions p c.

(** ** Trees of the examples *)

(** A tip and a clade with children, on a branch of length 1. *)
Definition leaf (n : string) : Clade :=
  mkClade (Some n) (Some 1%Q) None None [].
Definition inner (subs : list Clade) : Clade :=
  mkClade None (Some 1%Q) None None subs.

(** ((A, B), C) *)
Definition tree_ab_c : Tree :=
  mkTree (mkClade None None None None [inner [leaf "A"; leaf "B"]; leaf "C"])
    true None.

(** ((A, B), (C, D)) with unit branch lengths *)
Definition balanced4 : Tree :=
  mkTree (mkClade None None None None
            [inner [leaf "A"; leaf "B"]; inner [leaf "C"; leaf "D"]])
    true None.

(** The claim of an exact midpoint, on integer rows. *)
Definition exact_midpoints (tree : Tree) (rows : gmap path Z) : Prop :=
  ∀ p c, subclade (root tree) p = Some c → clades c ≠ [] →
    ∃ a b h, rows !! (p ++ [0%nat]) = Some a ∧
             rows !! (p ++ [(length (clades c) - 1)%nat]) = Some b ∧
             rows !! p = Some h ∧ 2 * h = a + b.

(** Tips later in the traversal are placed strictly higher. *)
Definition tips_increasing {V} (lt : V → V → Prop) (tree : Tree)
    (positions : gmap path V) : Prop :=
  ∀ j k tj tk, (j < k)%nat →
    BaseTree.get_terminals tree !! j = Some tj →
    BaseTree.get_terminals tree !! k = Some tk →
    ∃ a b, positions !! tj.1 = Some a ∧ positions !! tk.1 = Some b ∧ lt a b.

(** The columns that [get_col_positions] computes from the depths it has
    chosen. *)
Definition scaled_columns (taxa : list (path * Clade)) (drawing_width : Z)
    (depths : gmap path Q) : Res (gmap path Z) :=
  fudge_margin ← (if len taxa <=? 0 then Raise (ValueError "math domain error")
                   else Ok (Z.log2_up (len taxa)));
  m ← py_max (values depths);
  cols_per_branch_unit ← py_truediv (inject_Z (drawing_width - fudge_margin)) m;
  Ok ((λ blen, py_int (blen * cols_per_branch_unit + 1)%Q) <$> depths).

(** A tree of one clade. *)
Definition single_node (nm : option string) (bl cf : option Q)
    (cfs : option (list Q)) (rooted : bool) (tname : option string) : Tree :=
  mkTree (mkClade nm bl cf cfs []) rooted tname.

(** The first tip of the traversal has the highest (lowest) position. *)
Definition first_tip_extreme {V} (le : V → V → Prop) (tree : Tree)
    (positions : gmap path V) : Prop :=
  ∀ first tip a b,
    BaseTree.get_terminals tree !! 0%nat = Some first →
    tip ∈ BaseTree.get_terminals tree →
    positions !! first.1 = Some a → positions !! tip.1 = Some b → le a b.

(** ** Text *)

Definition newline : string := String "010" EmptyString.

(** [s] ends with [suffix]. *)
Definition ends_with (suffix s : string) : Prop :=
  ∃ before, s = before +:+ suffix.

(** A row without a label: line art only. *)
Definition line_art_only (s : string) : Prop :=
  forallb (λ c, existsb (Ascii.eqb c) [" "; "_"; "|"; ","; "010"]%char)
    (list_ascii_of_string s) = true.

(** ** States *)

(** Every run of [m] takes a state to one related by [R]. *)
Definition preserves {St A} (R : relation St) (m : M St A) : Prop :=
  ∀ s r s', m s = (r, s') → R s s'.

(** [draw] appends to the calls and to the two lists of line collections,
    and assigns no attribute of a clade. *)
Definition grows (s s' : Draw.Plot) : Prop :=
  Draw.heap s' = Draw.heap s ∧
  Draw.calls s `prefix_of` Draw.calls s' ∧
  Draw.horizontal_linecollections s `prefix_of` Draw.horizontal_linecollections s' ∧
  Draw.vertical_linecollections s `prefix_of` Draw.vertical_linecollections s'.

(** Some call has put a line or a text on the plotting surface. *)
Definition drawn (s : Draw.Plot) : Prop :=
  existsb Draw.is_drawing (Draw.calls s) = true.

(** The colors of the clades in a state of [to_networkx]. *)
Definition colors (s : ToNetworkx.State) : gmap path string :=
  clade_color (ToNetworkx.heap s).

(** ** Arguments of [draw] *)

(** The defaults of the parameters of [draw]. *)
Definition default_args : Draw.Args :=
  Draw.mkArgs (λ _ clade, Some (BaseTree.str clade)) true true None
    Draw.BL_None Draw.LC_None "vertical" "down" "right" 355 true false [].

(** [a] with another [orient_tree], other keyword arguments, another
    [branch_labels]. *)
Definition with_orient_tree (o : string) (a : Draw.Args) : Draw.Args :=
  Draw.mkArgs (Draw.label_func a) (Draw.do_show a) (Draw.show_confidence a)
    (Draw.axes a) (Draw.branch_labels a) (Draw.label_colors a) o
    (Draw.horizontal_direction a) (Draw.vertical_direction a)
    (Draw.circular_span a) (Draw.draw_labels a) (Draw.align_labels a)
    (Draw.kwargs a).

Definition with_kwargs (kw : list (string * Draw.KwValue)) (a : Draw.Args)
    : Draw.Args :=
  Draw.mkArgs (Draw.label_func a) (Draw.do_show a) (Draw.show_confidence a)
    (Draw.axes a) (Draw.branch_labels a) (Draw.label_colors a)
    (Draw.orient_tree a) (Draw.horizontal_direction a)
    (Draw.vertical_direction a) (Draw.circular_span a) (Draw.draw_labels a)
    (Draw.align_labels a) kw.

Definition with_branch_labels (b : Draw.BranchLabels) (a : Draw.Args)
    : Draw.Args :=
  Draw.mkArgs (Draw.label_func a) (Draw.do_show a) (Draw.show_confidence a)
    (Draw.axes a) b (Draw.label_colors a)
    (Draw.orient_tree a) (Draw.horizontal_direction a)
    (Draw.vertical_direction a) (Draw.circular_span a) (Draw.draw_labels a)
    (Draw.align_labels a) (Draw.kwargs a).

(** [str] on a float, for the examples: no clade of theirs has a
    confidence. *)
Definition no_float_str (_ : Q) : string := "nan".

(** A root with the color "#ff0000" and one child without a color. *)
Definition parent_child : Tree :=
  mkTree (mkClade None None None None [leaf "A"]) true None.
(** The attributes of the clades: a red root, and none. *)
Definition red_root : Heap := mkHeap {[ [] := "#ff0000"%string ]} ∅.
Definition no_annotations : Heap := mkHeap ∅ ∅.

(** A keyword argument of a shape that [draw] passes on to [pyplot]: a
    dict, a sequence that is not empty and whose first item is no tuple, or
    a tuple followed by a dict. *)
Definition passed_on (v : Draw.KwValue) : Prop :=
  match v with
  | Draw.kw_dict _ | Draw.kw_args (_ :: _) | Draw.kw_args_kw _ _ => True
  | _ => False
  end.

(** The call that a keyword argument becomes. *)
Definition option_call (kv : string * Draw.KwValue) : Draw.Call :=
  match kv.2 with
  | Draw.kw_dict kw => Draw.plt_option kv.1 [] kw
  | Draw.kw_args args => Draw.plt_option kv.1 args []
  | Draw.kw_args_kw args kw => Draw.plt_option kv.1 args kw
  | _ => Draw.plt_option kv.1 [] []
  end.

(** [draw] passes the keyword argument on to a function that [pyplot] has,
    and the call returns. *)
Definition forwarded (plt : string → option Draw.PyplotFunction)
    (kv : string * Draw.KwValue) : Prop :=
  passed_on kv.2 ∧
  ∃ f, plt kv.1 = Some f ∧
       match option_call kv with
       | Draw.plt_option _ args kw => f args kw = Ok tt
       | _ => True
       end.

(** A [pyplot] for the examples: it has the functions named here, their
    calls return, and it has no other attribute. *)
Definition pyplot (name : string) : option Draw.PyplotFunction :=
  if Draw.str_in name ["axvline"; "axhline"; "title"; "show"; "figure"; "hlines"]
  then Some (λ _ _, Ok tt)
  else None.

(** root -> A -> (A1, A2), without branch lengths *)
Definition no_lengths : Tree :=
  mkTree (mkClade None None None None
            [mkClade (Some "A"%string) None None None
               [mkClade (Some "A1"%string) None None None [];
                mkClade (Some "A2"%string) None None None []]])
    true None.

(** ** Layouts as objects *)

(** Two calls of [m] in a row, from any store: both have the outcome [r].
    When [r] is a mapping, each call returns a dict of its own that was not
    in the store before, both dicts hold the mapping, and the dict of the
    first call is as it was when the second call has returned.  The dicts
    that the store held before are kept as they were. *)
Definition twice {V} (m : M (list (gmap path V)) nat) (r : Res (gmap path V))
    : Prop :=
  ∀ s, ∃ s1 s2,
    s `prefix_of` s2 ∧
    match r with
    | Ok d =>
        ∃ l1 l2,
          m s = (Ok l1, s1) ∧ m s1 = (Ok l2, s2) ∧ l1 ≠ l2 ∧
          s !! l1 = None ∧ s !! l2 = None ∧
          s1 !! l1 = Some d ∧ s2 !! l1 = Some d ∧ s2 !! l2 = Some d
    | Raise e => m s = (Raise e, s1) ∧ m s1 = (Raise e, s2)
    end.

(** One call of [m], from any store: it has the outcome [r], in a dict
    of its own, and keeps the dicts of the store. *)
Definition makes {V} (m : M (list (gmap path V)) nat) (r : Res (gmap path V))
    : Prop :=
  ∀ s, ∃ s', s `prefix_of` s' ∧
    match r with
    | Ok d => ∃ l, m s = (Ok l, s') ∧ (length s ≤ l)%nat ∧ s' !! l = Some d
    | Raise e => m s = (Raise e, s')
    end.

(** The run of a closure over the dict at [l] does to that dict what the
    function [pure] on dicts does, and leaves the other dicts alone. *)
Definition refines {V} (l : nat) (s : list (gmap path V))
    (run : Res unit * list (gmap path V)) (pure : Res (gmap path V)) : Prop :=
  ∃ d', run.2 = <[l := d']> s ∧
        match pure with
        | Ok d1 => run.1 = Ok tt ∧ d' = d1
        | Raise e => run.1 = Raise e
        end.

(** ** Notions of the further properties *)

(** *** [to_networkx] *)

(** The widths of the clades in a state of [to_networkx]. *)
Definition widths (s : ToNetworkx.State) : gmap path Q :=
  clade_width (ToNetworkx.heap s).

(** The weight that [add_edge] gives the edge to [child], by the version of
    networkx. *)
Definition edge_weight (version : string) (child : Clade) : option Q :=
  if String.leb "1.0" version || String.leb "0.99" version
  then Some (py_or (branch_length child) 1)
  else None.

(** [k] is a descendant of [p], not [p] itself. *)
Definition below (p k : path) : Prop := ∃ i q, k = p ++ i :: q.

(** An edge that [build_subgraph] adds below [p]: from a clade below-or-at
    [p] to one of its children. *)
Definition new_edge (c : Clade) (p : path) (e : path * path) : Prop :=
  ∃ q i, e = (p ++ q, p ++ q ++ [i]) ∧ is_Some (subclade c (q ++ [i])).

(** The attribute that the clade at [p ++ q] inherits: its own when it has
    one, or else that of the nearest clade above it that has one, down to
    [acc] above [p]. *)
Fixpoint inherit {A} (m : gmap path A) (acc : option A) (p q : path)
    : option A :=
  let acc := match m !! p with Some x => Some x | None => acc end in
  match q with
  | [] => acc
  | i :: q' => inherit m acc (p ++ [i]) q'
  end.

(** *** [draw_ascii] *)

(** A root with the one terminal A, without branch lengths. *)
Definition bare_tip : Tree :=
  mkTree (mkClade None None None None
            [mkClade (Some "A"%string) None None None []])
    true None.

(** A character of the line art. *)
Definition art_char (c : ascii) : Prop :=
  c = " "%char ∨ c = "_"%char ∨ c = "|"%char ∨ c = ","%char.

(** The line art of a row. *)
Definition line_art (s : string) : Prop :=
  Forall art_char (list_ascii_of_string s).

(** A character matrix of [h] rows and [w] columns of line art. *)
Definition shaped (h w : nat) (m : list (list ascii)) : Prop :=
  length m = h ∧ Forall (λ row, length row = w ∧ Forall art_char row) m.

(** The two layouts cover the clades of [c] at [p], within the matrix: the
    columns from 1 to [w - 1], the rows from 0 to [h - 1]. *)
Definition layouts_within (h w : nat) (cols rows : gmap path Z)
    (c : Clade) (p : path) : Prop :=
  ∀ q c', subclade c q = Some c' →
    ∃ col row, cols !! (p ++ q) = Some col ∧ rows !! (p ++ q) = Some row ∧
               1 ≤ col < Z.of_nat w ∧ 0 ≤ row < Z.of_nat h.

(** No clade of [c] has a negative branch length. *)
Fixpoint nonneg_lengths (c : Clade) : bool :=
  match branch_length c with
  | Some l => Qle_bool 0 l
  | None => true
  end && forallb nonneg_lengths (clades c).

(** A branch length that the floats of a layout carry without overflow and
    without underflow: none, zero, or between 2^-500 and 2^500. *)
Definition moderate_length (l : option Q) : bool :=
  match l with
  | None => true
  | Some l =>
      Qeq_bool l 0
      || (Qle_bool (1 # 2 ^ 500) l && Qle_bool l (inject_Z (2 ^ 500)))
  end.

(** Every branch length of [c] is moderate. *)
Fixpoint moderate_lengths (c : Clade) : bool :=
  moderate_length (branch_length c) && forallb moderate_lengths (clades c).

(** *** [draw] *)

(** [m] returns, whatever the state. *)
Definition returns {St A} (m : M St A) : Prop :=
  ∀ s, ∃ a s', m s = (Ok a, s').


(** The layout [h] has a position for every clade of [c], which is at
    [p]. *)
Definition covers {V} (h : gmap path V) (c : Clade) (p : path) : Prop :=
  ∀ q c', subclade c q = Some c' → is_Some (h !! (p ++ q)).






(** The color and the line width of the branch of the clade at [p ++ q]:
    [draw_clade] is called on the clade at [p] with [color] and [lw], and
    hands them down, each clade replacing them by its own when it has
    them. *)
Fixpoint style_from (h : Heap) (lines_linewidth : Q) (color : string) (lw : Q)
    (p q : path) : string * Q :=
  let color := default color (clade_color h !! p) in
  let lw := match clade_width h !! p with
            | Some w => (w * lines_linewidth)%Q
            | None => lw
            end in
  match q with
  | [] => (color, lw)
  | i :: q' => style_from h lines_linewidth color lw (p ++ [i]) q'
  end.

(** Where the branch of the clade at [p ++ q] starts: at [x_start] for the
    clade at [p], at the depth of the parent for the others. *)
Definition branch_start (x_posns : gmap path Q) (x_start : Q) (p q : path)
    (xs : Q) : Prop :=
  (q = [] ∧ xs = x_start) ∨
  (∃ r i, q = r ++ [i] ∧ x_posns !! (p ++ r) = Some xs).

(** The text that [draw_clade] places for the label of a clade, in the
    vertical orientation. *)
Definition label_text (a : Draw.Args) (get_label_color : string → string)
    (x y : Q) (label : string) : Draw.Call :=
  Draw.axes_text x y (Some (" " +:+ label))
    [("verticalalignment", Draw.VStr "center");
     ("horizontalalignment",
      Draw.VStr (if String.eqb (Draw.vertical_direction a) "right"
                 then "left" else "right"));
     ("color", Draw.VStr (get_label_color label))].

(** The calls that the code of [draw] issues by itself under the arguments
    [a]: a figure and its subplots only when no axes are given, [plt.show()]
    only with [do_show], [axes.plot] in black only, never [axes.hlines] or
    [axes.vlines], and no function of [pyplot] by a name of the caller's. *)
Definition expected_call (a : Draw.Args) (c : Draw.Call) : bool :=
  match c with
  | Draw.axes_hlines _ _ _ _ _ _ | Draw.axes_vlines _ _ _ _ _
  | Draw.plt_option _ _ _ => false
  | Draw.plt_figure | Draw.fig_add_subplot _ =>
      match Draw.axes a with None => true | Some _ => false end
  | Draw.plt_show => Draw.do_show a
  | Draw.axes_plot _ _ color _ _ => String.eqb color "k"
  | _ => true
  end.

(** The call passes a keyword argument of [a] on to [pyplot]. *)
Definition passes_on (a : Draw.Args) (c : Draw.Call) : Prop :=
  ∃ kv, kv ∈ Draw.kwargs a ∧ passed_on kv.2 ∧ c = option_call kv.

(** Every call that a run adds is one of [expected_call], or passes a
    keyword argument on. *)
Definition adds_expected (a : Draw.Args) (s s' : Draw.Plot) : Prop :=
  ∀ c, c ∈ Draw.calls s' →
    c ∈ Draw.calls s ∨ expected_call a c = true ∨ passes_on a c.

(** * Properties *)

(** ** Clades and paths *)

Lemma Clade_ind (P : Clade → Prop) :
  (∀ n bl cf cfs subs, Forall P subs → P (mkClade n bl cf cfs subs)) →
  ∀ c, P c.
Proof.
  intros step. fix IH 1. intros [n bl cf cfs subs]. apply step.
  induction subs as [|c subs IHsubs]; constructor; [apply IH | apply IHsubs].
Qed.

Lemma subclade_cons c i q sub :
  clades c !! i = Some sub → subclade c (i :: q) = subclade sub q.
Proof. intros Hi. simpl. by rewrite Hi. Qed.

Lemma snoc_app (p : path) i q : (p ++ [i]) ++ q = p ++ i :: q.
Proof. by rewrite <- app_assoc. Qed.

Lemma prefix_snoc_inj (p : path) i j r :
  p ++ [i] `prefix_of` r → p ++ [j] `prefix_of` r → i = j.
Proof.
  intros [k1 ->] [k2 Heq]. rewrite !snoc_app in Heq.
  apply app_inv_head in Heq. congruence.
Qed.

Lemma prefix_snoc_self (p : path) i : ¬ p ++ [i] `prefix_of` p.
Proof. apply prefix_snoc_not. Qed.

(** ** Loops *)

Lemma fold_each_inv {A T} (body : nat → A → T → T) (P : nat → T → Prop) l :
  ∀ i s,
  P i s →
  (∀ j x s, l !! j = Some x → P (i + j)%nat s →
            P (S (i + j)) (body (i + j)%nat x s)) →
  P (i + length l)%nat (fold_each body i l s).
Proof.
  induction l as [|x l IH]; intros i s Hs Hstep; simpl.
  - by rewrite Nat.add_0_r.
  - rewrite <- Nat.add_succ_comm. apply IH.
    + specialize (Hstep 0%nat x s eq_refl). rewrite Nat.add_0_r in Hstep. auto.
    + intros j y t Hj Ht. rewrite Nat.add_succ_comm. apply Hstep; [done|].
      by rewrite <- Nat.add_succ_comm.
Qed.

Lemma for_each_inv {A T} (body : nat → A → T → Res T) (P : nat → T → Prop) l :
  ∀ i s,
  P i s →
  (∀ j x s, l !! j = Some x → P (i + j)%nat s →
            ∃ s', body (i + j)%nat x s = Ok s' ∧ P (S (i + j)) s') →
  ∃ s', for_each body i l s = Ok s' ∧ P (i + length l)%nat s'.
Proof.
  induction l as [|x l IH]; intros i s Hs Hstep; simpl.
  - exists s. by rewrite Nat.add_0_r.
  - destruct (Hstep 0%nat x s eq_refl) as (s1 & Hb & Hs1);
      [by rewrite Nat.add_0_r|].
    rewrite Nat.add_0_r in Hb, Hs1. rewrite Hb. simpl.
    rewrite <- Nat.add_succ_comm. apply IH; [done|].
    intros j y t Hj Ht. rewrite Nat.add_succ_comm. apply Hstep; [done|].
    by rewrite <- Nat.add_succ_comm.
Qed.

(** ** Dicts built from items *)

Lemma dict_of_items_snoc `{Countable K} {V} (items : list (K * V)) k v :
  dict_of_items (items ++ [(k, v)]) = <[k := v]> (dict_of_items items).
Proof. unfold dict_of_items. by rewrite foldl_app. Qed.

Lemma dict_of_items_is_Some `{Countable K} {V} (items : list (K * V)) k :
  is_Some (dict_of_items items !! k) ↔ k ∈ items.*1.
Proof.
  induction items as [|[k' v] items IH] using rev_ind.
  - unfold dict_of_items. simpl. rewrite lookup_empty.
    split; [by intros [? ?] | by intros ?%elem_of_nil].
  - rewrite dict_of_items_snoc, fmap_app, elem_of_app. simpl.
    rewrite lookup_insert. case_decide as Hk.
    + subst. split; [|by eauto]. intros _. right. by apply list_elem_of_singleton.
    + rewrite IH. split; [by left|]. intros [?|Hin]; [done|].
      apply list_elem_of_singleton in Hin. congruence.
Qed.

Lemma dict_of_items_lookup `{Countable K} {V} (items : list (K * V)) j k v :
  NoDup items.*1 → items !! j = Some (k, v) →
  dict_of_items items !! k = Some v.
Proof.
  revert j. induction items as [|[k' v'] items IH] using rev_ind;
    intros j Hnd Hj; [done|].
  rewrite dict_of_items_snoc. rewrite fmap_app in Hnd.
  apply NoDup_app in Hnd as (Hnd & Hdisj & _).
  rewrite lookup_insert. case_decide as Hk.
  - subst k'. destruct (decide (j < length items)%nat) as [Hlt|Hge].
    + rewrite lookup_app_l in Hj by done.
      exfalso. apply (Hdisj k).
      * apply list_elem_of_fmap. exists (k, v). split; [done|].
        by eapply list_elem_of_lookup_2.
      * simpl. by apply list_elem_of_singleton.
    + rewrite lookup_app_r in Hj by lia.
      destruct (j - length items)%nat; simpl in Hj; [congruence|done].
  - destruct (decide (j < length items)%nat) as [Hlt|Hge].
    + rewrite lookup_app_l in Hj by done. by eapply IH.
    + rewrite lookup_app_r in Hj by lia.
      destruct (j - length items)%nat; simpl in Hj; [congruence|done].
Qed.

(** ** Terminals *)

Lemma terminals_at_unfold p c :
  BaseTree.terminals_at p c =
  match clades c with
  | [] => [(p, c)]
  | _ :: _ =>
      fold_each (λ i sub found, found ++ BaseTree.terminals_at (p ++ [i]) sub)
        0%nat (clades c) []
  end.
Proof. by destruct c as [? ? ? ? [|? ?]]. Qed.

Lemma terminals_at_spec c :
  ∀ p,
  (∀ r c', (r, c') ∈ BaseTree.terminals_at p c ↔
           ∃ q, r = p ++ q ∧ leaf_of c q c') ∧
  NoDup (BaseTree.terminals_at p c).*1.
Proof.
  induction c as [n bl cf cfs subs IH] using Clade_ind. intros p.
  rewrite terminals_at_unfold. simpl.
  destruct subs as [|s0 subs0] eqn:Hsubs.
  { split.
    - intros r c'. rewrite list_elem_of_singleton. split.
      + intros [= -> ->]. exists []. by rewrite app_nil_r.
      + intros (q & -> & Hq & Hc'). destruct q as [|i q]; simpl in Hq.
        * rewrite app_nil_r. congruence.
        * done.
    - simpl. apply NoDup_singleton. }
  assert (subs ≠ []) as Hsubs_ne by (by rewrite Hsubs).
  rewrite <- Hsubs in *. clear Hsubs s0 subs0.
  pose (P := λ (k : nat) (found : list (path * Clade)),
    (∀ r c', (r, c') ∈ found ↔
       ∃ j q sub, (j < k)%nat ∧ subs !! j = Some sub ∧
                  r = p ++ j :: q ∧ leaf_of sub q c') ∧
    NoDup found.*1).
  assert (P (0 + length subs)%nat
            (fold_each (λ i sub found,
               found ++ BaseTree.terminals_at (p ++ [i]) sub) 0%nat subs []))
    as [Hel Hnd].
  { apply (fold_each_inv _ P).
    - split; [|constructor]. intros r c'. split; [by intros ?%elem_of_nil|].
      intros (j & _ & _ & Hj & _). lia.
    - intros j x found Hx [Hel Hnd]. simpl in *.
      rewrite Forall_lookup in IH. destruct (IH j x Hx (p ++ [j])) as [IHel IHnd].
      split.
      + intros r c'. rewrite elem_of_app, Hel, IHel. split.
        * intros [(j' & q & sub & ? & ? & ? & ?)|(q & -> & ?)].
          -- exists j', q, sub. split_and!; [lia|done..].
          -- exists j, q, x. rewrite snoc_app. split_and!; [lia|done..].
        * intros (j' & q & sub & Hlt & Hsub & -> & Hleaf).
          destruct (decide (j' = j)) as [->|Hne].
          -- right. exists q. rewrite snoc_app. by simplify_eq.
          -- left. exists j', q, sub. split_and!; [lia|done..].
      + rewrite fmap_app. apply NoDup_app. split_and!; [done| |done].
        intros r [[r' c1] [-> Hin1]]%list_elem_of_fmap
                  [[r'' c2] [Heq Hin2]]%list_elem_of_fmap.
        simpl in *. subst r''.
        apply Hel in Hin1 as (j' & q & sub & Hlt & _ & -> & _).
        apply IHel in Hin2 as (q' & Heq & _). rewrite snoc_app in Heq.
        apply app_inv_head in Heq. simplify_eq. lia. }
  split; [|done]. intros r c'. rewrite Hel. split.
  - intros (j & q & sub & Hlt & Hsub & -> & Hq & Hc'). exists (j :: q).
    split; [done|]. split; [|done]. simpl. by rewrite Hsub.
  - intros ([|j q] & -> & Hq & Hc'); simpl in *.
    + by simplify_eq.
    + destruct (subs !! j) as [sub|] eqn:Hsub; [|done].
      exists j, q, sub. split_and!; try done.
      by eapply lookup_lt_Some.
Qed.

(** ** The height layout *)

Section height_layout.
Context {V : Type} (midpoint : V → V → V).

Lemma midpoint_at_extends h h' region r c' :
  extends h h' region →
  midpoint_at midpoint h r c' → midpoint_at midpoint h' r c'.
Proof.
  intros Hext (a & b & Ha & Hb & Hr). exists a, b.
  rewrite !Hext by (left; eauto). done.
Qed.

Lemma tips_only_sub (h : gmap path V) p c i sub :
  clades c !! i = Some sub → tips_only h p c → tips_only h (p ++ [i]) sub.
Proof.
  intros Hi Htips q. rewrite snoc_app. unfold tips_only in Htips.
  rewrite Htips. unfold leaf_of. by rewrite (subclade_cons _ _ _ _ Hi).
Qed.

Lemma py_getitem_first {A} (l : list A) x :
  l !! 0%nat = Some x → py_getitem l 0 = Ok (0%nat, x).
Proof.
  intros Hx. unfold py_getitem. simpl.
  change (Z.to_nat 0) with 0%nat. by rewrite Hx.
Qed.

Lemma py_getitem_last {A} (l : list A) :
  l ≠ [] → ∃ x, l !! (length l - 1)%nat = Some x ∧
                py_getitem l (-1) = Ok ((length l - 1)%nat, x).
Proof.
  intros Hne.
  assert (∃ n, length l = S n) as [n Hn] by (destruct l; [done|eauto]).
  destruct (lookup_lt_is_Some_2 l n) as [x Hx]; [lia|].
  exists x. rewrite Hn. replace (S n - 1)%nat with n by lia. split; [done|].
  unfold py_getitem, len. rewrite Hn.
  change (-1 <? 0) with true. cbv iota.
  replace (-1 + Z.of_nat (S n)) with (Z.of_nat n) by lia.
  destruct (Z.ltb_spec (Z.of_nat n) 0); [lia|].
  by rewrite Nat2Z.id, Hx.
Qed.

Lemma py_lookup_Some `{Countable K} {A} (d : gmap K A) k v :
  d !! k = Some v → py_lookup d k = Ok v.
Proof. intros Hk. unfold py_lookup. by rewrite Hk. Qed.

Lemma calc_row_spec c :
  ∀ p h,
  clades c ≠ [] → tips_only h p c →
  ∃ h', calc_row midpoint c p h = Ok h' ∧
        extends h h' (λ r, p `prefix_of` r) ∧
        (∀ q c', subclade c q = Some c' → clades c' ≠ [] →
                 midpoint_at midpoint h' (p ++ q) c').
Proof.
  induction c as [n bl cf cfs subs IH] using Clade_ind. intros p h Hne Htips.
  simpl in Hne. simpl calc_row.
  set (c := mkClade n bl cf cfs subs) in *.
  pose (P := λ (k : nat) (hk : gmap path V),
    extends h hk (λ r, ∃ j, (j < k)%nat ∧ p ++ [j] `prefix_of` r) ∧
    (∀ j sub q c', (j < k)%nat → subs !! j = Some sub →
       subclade sub q = Some c' → clades c' ≠ [] →
       midpoint_at midpoint hk (p ++ j :: q) c')).
  edestruct (for_each_inv
    (λ i subclade positions,
       if decide (is_Some (positions !! (p ++ [i]))) then Ok positions
       else calc_row midpoint subclade (p ++ [i]) positions) P subs 0%nat h)
    as (h1 & -> & Hext1 & Hmid1).
  { split; [by intros r _|]. intros; lia. }
  { intros j sub hj Hsub [Hext Hmid]. simpl in *.
    assert (tips_only hj (p ++ [j]) sub) as Htj.
    { intros q. rewrite Hext.
      - by apply (tips_only_sub h p c).
      - right. intros (j' & Hlt & Hpre).
        assert (j' = j) by (eapply prefix_snoc_inj; [done|];
                            by apply prefix_app_r).
        lia. }
    case_decide as Hin.
    - (* a tip: already placed *)
      exists hj. split; [done|]. split.
      + intros r Hr. apply Hext. destruct Hr as [?|Hr]; [by left|].
        right. intros (j' & ? & ?). apply Hr. exists j'. split; [lia|done].
      + intros j' sub' q c' Hlt Hsub' Hq Hc'.
        destruct (decide (j' = j)) as [->|]; [|eapply Hmid; [lia|done..]].
        simplify_eq. exfalso.
        specialize (Htj []). rewrite app_nil_r in Htj.
        apply Htj in Hin as (c0 & Hc0 & Hleaf). simpl in Hc0. simplify_eq.
        destruct q as [|i q]; simpl in Hq; [congruence|].
        by rewrite Hleaf in Hq.
    - (* an internal clade *)
      rewrite Forall_lookup in IH.
      destruct (IH j sub Hsub (p ++ [j]) hj) as (hj' & Hcalc & Hext' & Hmid');
        [|done|].
      { intros Hnil. apply Hin. specialize (Htj []). rewrite app_nil_r in Htj.
        apply Htj. by exists sub. }
      exists hj'. split; [done|]. split.
      + intros r Hr. rewrite Hext'.
        * apply Hext. destruct Hr as [?|Hr]; [by left|].
          right. intros (j' & ? & ?). apply Hr. exists j'. split; [lia|done].
        * destruct Hr as [Hr|Hr].
          -- left. rewrite Hext; [done|by left].
          -- right. intros Hpre. apply Hr. exists j. split; [lia|done].
      + intros j' sub' q c' Hlt Hsub' Hq Hc'.
        destruct (decide (j' = j)) as [->|].
        * simplify_eq. rewrite <- snoc_app. by apply Hmid'.
        * eapply midpoint_at_extends; [done|]. eapply Hmid; [lia|done..]. }
  simpl in Hext1, Hmid1. simpl.
  (* the first and the last child are placed *)
  assert (∀ j sub, subs !! j = Some sub → is_Some (h1 !! (p ++ [j]))) as Hplaced.
  { intros j sub Hsub. destruct (decide (clades sub = [])) as [Hleaf|Hint].
    - assert (is_Some (h !! (p ++ [j]))) as Hin.
      { apply (Htips [j]). exists sub. split; [|done]. simpl. by rewrite Hsub. }
      rewrite Hext1; [done|by left].
    - destruct (Hmid1 j sub [] sub) as (a & b & _ & _ & Hr);
        [by eapply lookup_lt_Some|done..|].
      eauto. }
  destruct subs as [|s0 subs0] eqn:Hsubs; [done|]. rewrite <- Hsubs in *.
  rewrite (py_getitem_first subs s0) by (by rewrite Hsubs). simpl.
  destruct (Hplaced 0%nat s0) as [a Ha]; [by rewrite Hsubs|].
  rewrite (py_lookup_Some _ _ _ Ha). simpl.
  destruct (py_getitem_last subs Hne) as (sl & Hsl & ->). simpl.
  destruct (Hplaced _ sl Hsl) as [b Hb].
  rewrite (py_lookup_Some _ _ _ Hb). simpl.
  eexists. split; [done|].
  assert (h !! p = None) as Hp.
  { apply eq_None_not_Some. intros Hsome. specialize (Htips []).
    rewrite app_nil_r in Htips. apply Htips in Hsome as (c' & Hc' & Hleaf).
    simpl in Hc'. by simplify_eq. }
  split.
  - intros r Hr. rewrite lookup_insert_ne.
    + apply Hext1. destruct Hr as [?|Hr]; [by left|]. right.
      intros (j & _ & Hpre). apply Hr. by eapply prefix_app_l.
    + intros <-. destruct Hr as [[? Hr]|Hr]; [congruence|].
      by apply Hr.
  - intros q c' Hq Hc'. destruct q as [|j q].
    + simpl in Hq. simplify_eq. rewrite app_nil_r. exists a, b.
      assert (∀ i, p ≠ p ++ [i]) as Hpi.
      { intros i Heq. apply (prefix_snoc_self p i). by rewrite <- Heq. }
      split_and!.
      * by rewrite lookup_insert_ne.
      * by rewrite lookup_insert_ne.
      * by rewrite lookup_insert_eq.
    + unfold c in Hq. simpl in Hq. rewrite <- Hsubs in Hq.
      destruct (subs !! j) as [sub|] eqn:Hsub; simpl in Hq; [|done].
      eapply (midpoint_at_extends h1 _ (λ r, r = p)).
      * intros r Hr. rewrite lookup_insert_ne; [done|].
        intros <-. destruct Hr as [[x Hx]|Hr]; [|done].
        rewrite Hext1 in Hx; [congruence|]. right.
        intros (j' & _ & Hpre). by apply prefix_snoc_self in Hpre.
      * apply (Hmid1 j sub); try done. by eapply lookup_lt_Some.
Qed.

End height_layout.

(** ** The dict of the tips *)

Section tips.
Context {V : Type} (value : Z → V).

Lemma tip_items_lookup l j :
  tip_items value l !! j = (λ tip, (tip.1, value (Z.of_nat j))) <$> l !! j.
Proof.
  unfold tip_items, enumerate. rewrite list_lookup_fmap, list_lookup_imap.
  by destruct (l !! j).
Qed.

Lemma tip_items_keys l : (tip_items value l).*1 = l.*1.
Proof.
  apply list_eq. intros j. rewrite !list_lookup_fmap, tip_items_lookup.
  by destruct (l !! j).
Qed.

Lemma tip_dict_lookup l j tip :
  NoDup l.*1 → l !! j = Some tip →
  dict_of_items (tip_items value l) !! tip.1 = Some (value (Z.of_nat j)).
Proof.
  intros Hnd Hj. apply (dict_of_items_lookup _ j).
  - by rewrite tip_items_keys.
  - by rewrite tip_items_lookup, Hj.
Qed.

Lemma tip_dict_is_Some l r :
  is_Some (dict_of_items (tip_items value l) !! r) ↔ r ∈ l.*1.
Proof. by rewrite dict_of_items_is_Some, tip_items_keys. Qed.

End tips.

Lemma terminals_NoDup tree : NoDup (BaseTree.get_terminals tree).*1.
Proof. apply terminals_at_spec. Qed.

Lemma elem_of_terminals tree r :
  r ∈ (BaseTree.get_terminals tree).*1 ↔ ∃ c', leaf_of (root tree) r c'.
Proof.
  unfold BaseTree.get_terminals. rewrite list_elem_of_fmap. split.
  - intros ([r' c'] & -> & Hin).
    apply (proj1 (terminals_at_spec _ _)) in Hin as (q & -> & Hleaf). eauto.
  - intros (c' & Hleaf). exists (r, c'). split; [done|].
    apply (proj1 (terminals_at_spec _ _)). eauto.
Qed.

(** ** The two height layouts *)

Lemma get_y_positions_spec tree :
  ∃ heights,
    Draw.get_y_positions tree = Ok heights ∧
    tips_at (λ j, inject_Z (Z.of_nat j + 1)) tree heights ∧
    midpoints (λ a b, (a + b) / 2)%Q tree heights.
Proof.
  unfold Draw.get_y_positions.
  set (taxa := BaseTree.get_terminals tree).
  set (n := BaseTree.count_terminals tree).
  set (h0 := dict_of_items _).
  assert (tips_at (λ j, inject_Z (Z.of_nat j + 1)) tree h0) as Htips.
  { intros j tip Hj. fold taxa in Hj.
    assert (reverse taxa !! (length taxa - S j)%nat = Some tip) as Hrev.
    { rewrite reverse_lookup.
      - rewrite <- Hj. f_equal. apply lookup_lt_Some in Hj. lia.
      - apply lookup_lt_Some in Hj. lia. }
    pose proof (tip_dict_lookup (λ i, inject_Z (n - i)) (reverse taxa)
                  (length taxa - S j)%nat tip) as Hlook.
    unfold tip_items in Hlook. unfold h0. rewrite Hlook; [|..|done].
    - do 2 f_equal. unfold n, BaseTree.count_terminals, len. fold taxa.
      apply lookup_lt_Some in Hj. lia.
    - rewrite fmap_reverse, reverse_Permutation. apply terminals_NoDup. }
  assert (tips_only h0 [] (root tree)) as Honly.
  { intros q. simpl. unfold h0.
    rewrite <- elem_of_terminals. fold taxa.
    pose proof (tip_dict_is_Some (λ i, inject_Z (n - i)) (reverse taxa) q) as Hs.
    unfold tip_items in Hs. rewrite Hs, fmap_reverse. apply elem_of_reverse. }
  destruct (clades (root tree)) as [|s0 subs0] eqn:Hsubs.
  - exists h0. split; [done|]. split; [done|].
    intros p c Hp Hc. exfalso.
    destruct p as [|i p]; simpl in Hp; [congruence|].
    by rewrite Hsubs in Hp.
  - destruct (calc_row_spec (λ a b, (a + b) / 2)%Q (root tree) [] h0)
      as (h' & Hcalc & Hext & Hmid); [by rewrite Hsubs|done|].
    exists h'. split; [done|]. split; [|done].
    intros j tip Hj. rewrite Hext; [by apply Htips|].
    left. rewrite (Htips j tip Hj). eauto.
Qed.

Lemma get_row_positions_spec tree :
  clades (root tree) ≠ [] →
  ∃ rows,
    DrawAscii.get_row_positions (BaseTree.get_terminals tree) tree = Ok rows ∧
    tips_at (λ j, 2 * Z.of_nat j) tree rows ∧
    midpoints (λ a b, (a + b) `div` 2) tree rows.
Proof.
  intros Hne. unfold DrawAscii.get_row_positions.
  set (taxa := BaseTree.get_terminals tree).
  set (h0 := dict_of_items _).
  assert (tips_at (λ j, 2 * Z.of_nat j) tree h0) as Htips.
  { intros j tip Hj.
    pose proof (tip_dict_lookup (λ i, 2 * i) taxa j tip) as Hlook.
    unfold tip_items in Hlook. unfold h0. rewrite Hlook; [done|..|done].
    apply terminals_NoDup. }
  assert (tips_only h0 [] (root tree)) as Honly.
  { intros q. simpl. unfold h0. rewrite <- elem_of_terminals. fold taxa.
    pose proof (tip_dict_is_Some (λ i, 2 * i) taxa q) as Hs.
    unfold tip_items in Hs. by rewrite Hs. }
  destruct (calc_row_spec (λ a b, (a + b) `div` 2) (root tree) [] h0)
    as (h' & Hcalc & Hext & Hmid); [done..|].
  exists h'. split; [done|]. split; [|done].
  intros j tip Hj. rewrite Hext; [by apply Htips|].
  left. rewrite (Htips j tip Hj). eauto.
Qed.

(** ** The depth layout *)

Lemma inject_Z_succ (n : Z) : (inject_Z n + 1)%Q = inject_Z (n + 1).
Proof. unfold inject_Z, Qplus. simpl. f_equal. lia. Qed.

Lemma update_depths_unit c :
  ∀ p n m,
  (∀ r, ¬ p `prefix_of` r →
        BaseTree.update_depths true c p (inject_Z n) m !! r = m !! r) ∧
  (∀ q c', subclade c q = Some c' →
           BaseTree.update_depths true c p (inject_Z n) m !! (p ++ q)
           = Some (inject_Z (n + Z.of_nat (length q)))).
Proof.
  induction c as [nm bl cf cfs subs IH] using Clade_ind. intros p n m.
  simpl BaseTree.update_depths.
  pose (P := λ (k : nat) (mk : gmap path Q),
    (∀ r, ¬ p `prefix_of` r → mk !! r = m !! r) ∧
    mk !! p = Some (inject_Z n) ∧
    (∀ j sub q c', (j < k)%nat → subs !! j = Some sub →
       subclade sub q = Some c' →
       mk !! (p ++ j :: q) = Some (inject_Z (n + 1 + Z.of_nat (length q))))).
  match goal with |- context [fold_each ?body 0%nat subs ?m0] =>
    assert (P (0 + length subs)%nat (fold_each body 0%nat subs m0))
      as (Hout & Hp & Hin)
  end.
  { apply (fold_each_inv _ P).
    - split_and!.
      + intros r Hr. rewrite lookup_insert_ne; [done|]. by intros <-.
      + by rewrite lookup_insert_eq.
      + intros; lia.
    - intros j sub mk Hsub (Hout & Hp & Hin). simpl in *.
      rewrite Forall_lookup in IH. rewrite inject_Z_succ.
      destruct (IH j sub Hsub (p ++ [j]) (n + 1) mk) as [IHout IHin].
      split_and!.
      + intros r Hr. rewrite IHout; [by apply Hout|].
        intros Hpre. apply Hr. by eapply prefix_app_l.
      + rewrite IHout; [done|]. apply prefix_snoc_self.
      + intros j' sub' q c' Hlt Hsub' Hq.
        destruct (decide (j' = j)) as [->|Hne].
        * simplify_eq. rewrite <- snoc_app. by eapply IHin.
        * rewrite IHout; [eapply Hin; [lia|done..]|].
          intros Hpre. apply Hne. symmetry.
          apply (prefix_snoc_inj p j j' (p ++ j' :: q)); [done|].
          exists q. by rewrite snoc_app. }
  simpl in *. split; [done|].
  intros [|j q] c' Hq; simpl in Hq.
  - rewrite app_nil_r, Hp. do 2 f_equal. simpl. lia.
  - destruct (subs !! j) as [sub|] eqn:Hsub; simpl in Hq; [|done].
    rewrite (Hin j sub q c'); [|by eapply lookup_lt_Some|done..].
    do 2 f_equal. simpl length. lia.
Qed.

Lemma update_depths_frame u c :
  ∀ p d m,
  (∀ r, ¬ p `prefix_of` r → BaseTree.update_depths u c p d m !! r = m !! r) ∧
  BaseTree.update_depths u c p d m !! p = Some d.
Proof.
  induction c as [nm bl cf cfs subs IH] using Clade_ind. intros p d m.
  simpl BaseTree.update_depths.
  match goal with |- context [fold_each ?body 0%nat subs ?m0] =>
    apply (fold_each_inv body
      (λ (_ : nat) (mk : gmap path Q),
         (∀ r, ¬ p `prefix_of` r → mk !! r = m !! r) ∧ mk !! p = Some d)
      subs 0%nat m0)
  end.
  - split; [|by rewrite lookup_insert_eq].
    intros r Hr. rewrite lookup_insert_ne; [done|]. by intros <-.
  - intros j sub mk Hsub [Hout Hp]. simpl in *.
    rewrite Forall_lookup in IH.
    destruct (IH j sub Hsub (p ++ [j])
                (d + BaseTree.depth_of u sub)%Q mk) as [IHout _].
    split.
    + intros r Hr. rewrite IHout; [by apply Hout|].
      intros Hpre. apply Hr. by eapply prefix_app_l.
    + rewrite IHout; [done|]. apply prefix_snoc_self.
Qed.

Lemma depths_root u tree : BaseTree.depths u tree !! [] = Some 0%Q.
Proof. apply update_depths_frame. Qed.

Lemma unit_depths tree p c :
  subclade (root tree) p = Some c →
  BaseTree.depths true tree !! p = Some (inject_Z (Z.of_nat (length p))).
Proof.
  intros Hp. unfold BaseTree.depths.
  destruct (update_depths_unit (root tree) [] 0 ∅) as [_ Hin].
  by apply (Hin p c).
Qed.

(** [max] returns an element that no other exceeds. *)
Lemma py_max_spec l :
  l ≠ [] → ∃ m, py_max l = Ok m ∧ m ∈ l ∧ ∀ y, y ∈ l → (y <= m)%Q.
Proof.
  destruct l as [|x l]; [done|]. intros _. simpl. eexists. split; [done|].
  revert x. induction l as [|z l IH]; intros x; simpl.
  - split; [by apply list_elem_of_singleton|].
    intros y ->%list_elem_of_singleton. apply Qle_refl.
  - destruct (Qle_bool z x) eqn:Hzx.
    + destruct (IH x) as [Hin Hmax]. split.
      * apply elem_of_cons in Hin as [->|Hin]; [by left|]. by do 2 right.
      * intros y [->|[->|Hy]%elem_of_cons]%elem_of_cons.
        -- apply Hmax. by left.
        -- eapply Qle_trans; [by apply Qle_bool_iff|]. apply Hmax. by left.
        -- apply Hmax. by right.
    + destruct (IH z) as [Hin Hmax]. split; [by right|].
      intros y [->|Hy]%elem_of_cons; [|by apply Hmax].
      eapply Qle_trans; [|apply Hmax; by left].
      apply Qlt_le_weak, Qnot_le_lt. intros Hle.
      apply Qle_bool_iff in Hle. congruence.
Qed.

Lemma values_nonempty `{Countable K} {A} (d : gmap K A) k v :
  d !! k = Some v → values d ≠ [].
Proof.
  intros Hk Hnil. unfold values in Hnil.
  apply fmap_nil_inv, map_to_list_empty_iff in Hnil. by subst.
Qed.

Lemma max_depth_exists u tree :
  ∃ m, py_max (values (BaseTree.depths u tree)) = Ok m.
Proof.
  destruct (py_max_spec (values (BaseTree.depths u tree))) as (m & ? & _); eauto.
  eapply values_nonempty, depths_root.
Qed.

Lemma get_x_positions_total tree : succeeds (Draw.get_x_positions tree).
Proof.
  unfold Draw.get_x_positions.
  destruct (max_depth_exists false tree) as [m ->]. simpl.
  destruct (Qeq_bool m 0); by eexists.
Qed.

Lemma tips_at_increasing {V} (lt : V → V → Prop) (value : nat → V) tree positions :
  (∀ j k, (j < k)%nat → lt (value j) (value k)) →
  tips_at value tree positions → tips_increasing lt tree positions.
Proof.
  intros Hmono Htips j k tj tk Hlt Hj Hk.
  exists (value j), (value k). split_and!; [by apply Htips..|by apply Hmono].
Qed.

Lemma inject_Z_lt a b : a < b → (inject_Z a < inject_Z b)%Q.
Proof. intros Hlt. by rewrite <- Zlt_Qlt. Qed.

(** C1, as stated, fails: in the ASCII layout the root of ((A, B), C) is on
    row 2, while its children are on the rows 1 and 4. *)
Lemma C1_ascii_midpoint_is_floored :
  ∃ rows,
    DrawAscii.get_row_positions (BaseTree.get_terminals tree_ab_c) tree_ab_c
      = Ok rows ∧
    rows !! [] = Some 2 ∧ rows !! [0%nat] = Some 1 ∧ rows !! [1%nat] = Some 4 ∧
    ¬ exact_midpoints tree_ab_c rows.
Proof.
  destruct (DrawAscii.get_row_positions _ tree_ab_c) as [rows|e] eqn:Hrows;
    [|by vm_compute in Hrows].
  exists rows. split; [done|].
  vm_compute in Hrows. injection Hrows as <-.
  split_and!; [by vm_compute..|].
  intros Hex.
  destruct (Hex [] (root tree_ab_c) eq_refl) as (a & b & h & Ha & Hb & Hh & Heq).
  { done. }
  vm_compute in Ha, Hb, Hh. by simplify_eq.
Qed.

(** C1, amended: in the vector layout the tips are at 1, 2, ... in
    traversal order and every clade with children is exactly at
    [(first + last) / 2]; in the ASCII layout of a tree whose root has
    children the tips are at 0, 2, ... and every clade with children is at
    [(first + last) // 2], the midpoint rounded down. *)
Theorem C1_height_layouts tree :
  (∃ heights,
     Draw.get_y_positions tree = Ok heights ∧
     tips_at (λ j, inject_Z (Z.of_nat j + 1)) tree heights ∧
     tips_increasing Qlt tree heights ∧
     midpoints (λ a b, (a + b) / 2)%Q tree heights) ∧
  (clades (root tree) ≠ [] →
   ∃ rows,
     DrawAscii.get_row_positions (BaseTree.get_terminals tree) tree = Ok rows ∧
     tips_at (λ j, 2 * Z.of_nat j) tree rows ∧
     tips_increasing Z.lt tree rows ∧
     midpoints (λ a b, (a + b) `div` 2) tree rows).
Proof.
  split.
  - destruct (get_y_positions_spec tree) as (heights & Hy & Htips & Hmid).
    exists heights. split_and!; try done.
    eapply tips_at_increasing; [|done]. intros j k Hlt. apply inject_Z_lt. lia.
  - intros Hne.
    destruct (get_row_positions_spec tree Hne) as (rows & Hr & Htips & Hmid).
    exists rows. split_and!; try done.
    eapply tips_at_increasing; [|done]. intros j k Hlt. simpl. lia.
Qed.

(** C1 at ((A, B), C), whose root has children. *)
Lemma C1_height_layouts_witness :
  ∃ rows,
    DrawAscii.get_row_positions (BaseTree.get_terminals tree_ab_c) tree_ab_c
      = Ok rows ∧
    tips_at (λ j, 2 * Z.of_nat j) tree_ab_c rows ∧
    tips_increasing Z.lt tree_ab_c rows ∧
    midpoints (λ a b, (a + b) `div` 2) tree_ab_c rows.
Proof. apply (proj2 (C1_height_layouts tree_ab_c)). simpl. discriminate. Defined.

(** C2: with [m] the maximum of the depths by branch length, [get_x_positions]
    returns those depths as they are when [m] is not zero, and the depths by
    unit branch length when [m] is zero; in the latter every clade is at the
    number of edges between it and the root.  [get_col_positions] scales the
    depths chosen in the same way. *)
Theorem C2_depth_fallback tree :
  ∃ m,
    py_max (values (BaseTree.depths false tree)) = Ok m ∧
    m ∈ values (BaseTree.depths false tree) ∧
    (∀ d, d ∈ values (BaseTree.depths false tree) → (d <= m)%Q) ∧
    (¬ (m == 0)%Q →
       Draw.get_x_positions tree = Ok (BaseTree.depths false tree)) ∧
    ((m == 0)%Q →
       Draw.get_x_positions tree = Ok (BaseTree.depths true tree)) ∧
    (∀ p c, subclade (root tree) p = Some c →
       BaseTree.depths true tree !! p = Some (inject_Z (Z.of_nat (length p)))) ∧
    (∀ taxa drawing_width,
       DrawAscii.get_col_positions taxa drawing_width tree =
       Draw.get_x_positions tree ≫= scaled_columns taxa drawing_width).
Proof.
  destruct (py_max_spec (values (BaseTree.depths false tree)))
    as (m & Hm & Hin & Hmax).
  { eapply values_nonempty, depths_root. }
  exists m. split_and!; try done.
  - intros Hne. unfold Draw.get_x_positions. rewrite Hm. simpl.
    destruct (Qeq_bool m 0) eqn:Hz; [|done]. by apply Qeq_bool_iff in Hz.
  - intros Hz. unfold Draw.get_x_positions. rewrite Hm. simpl.
    apply Qeq_bool_iff in Hz. by rewrite Hz.
  - apply unit_depths.
  - intros taxa w. unfold DrawAscii.get_col_positions, Draw.get_x_positions.
    rewrite Hm. simpl. by destruct (Qeq_bool m 0).
Qed.

(** C3, the failing input: on a tree of one clade the maximum depth is zero
    also by unit branch lengths, and [get_col_positions] divides by it;
    [draw_ascii] stops there.  [get_x_positions] returns a mapping for every
    tree. *)
Theorem C3_single_node_columns_raise nm bl cf cfs rooted tname w :
  let tree := single_node nm bl cf cfs rooted tname in
  DrawAscii.get_col_positions (BaseTree.get_terminals tree) w tree
    = Raise ZeroDivisionError ∧
  draw_ascii tree w = Raise ZeroDivisionError ∧
  Draw.get_x_positions tree = Ok {[ [] := 0%Q ]}.
Proof.
  intros tree.
  assert (∀ u, BaseTree.depths u tree = {[ [] := 0%Q ]}) as Hd.
  { intros u. unfold BaseTree.depths. simpl. by rewrite insert_empty. }
  assert (values ({[ [] := 0%Q ]} : gmap path Q) = [0%Q]) as Hv.
  { unfold values. by rewrite map_to_list_singleton. }
  assert (∀ w', DrawAscii.get_col_positions (BaseTree.get_terminals tree) w' tree
                = Raise ZeroDivisionError) as Hcol.
  { intros w'. unfold DrawAscii.get_col_positions. rewrite !Hd, Hv. simpl.
    by rewrite Hv. }
  split_and!; [done| |].
  - unfold draw_ascii.
    change (BaseTree.get_terminals tree) with [(@nil nat, root tree)] in *.
    unfold py_max_int. simpl fmap. cbv beta iota. simpl foldl.
    change (mbind ?f (Ok ?x)) with (f x). cbv beta.
    by rewrite Hcol.
  - unfold Draw.get_x_positions. by rewrite !Hd, Hv.
Qed.

(** C4, as stated, fails: in ((A, B), C) the vector layout places the first
    tip at 1, not at [count - 0 = 3], and in both layouts the last tip is
    placed higher than the first. *)
Lemma C4_first_tip_is_lowest :
  ∃ heights rows,
    Draw.get_y_positions tree_ab_c = Ok heights ∧
    DrawAscii.get_row_positions (BaseTree.get_terminals tree_ab_c) tree_ab_c
      = Ok rows ∧
    ¬ tips_at (λ j, inject_Z (BaseTree.count_terminals tree_ab_c - Z.of_nat j))
        tree_ab_c heights ∧
    ¬ first_tip_extreme (λ a b, b <= a)%Q tree_ab_c heights ∧
    ¬ first_tip_extreme (λ a b, b <= a) tree_ab_c rows.
Proof.
  destruct (Draw.get_y_positions tree_ab_c) as [heights|e] eqn:Hy;
    [|by vm_compute in Hy].
  destruct (DrawAscii.get_row_positions _ tree_ab_c) as [rows|e] eqn:Hr;
    [|by vm_compute in Hr].
  exists heights, rows. split_and!; try done.
  - intros Htips. specialize (Htips 0%nat _ eq_refl).
    vm_compute in Hy. injection Hy as <-. by vm_compute in Htips.
  - intros Hfirst.
    specialize (Hfirst _ ([1%nat], leaf "C") 1%Q 3%Q eq_refl).
    vm_compute in Hy. injection Hy as <-.
    assert (3 <= 1)%Q as Hle; [|by vm_compute in Hle].
    apply Hfirst; [|by vm_compute..]. do 2 right. left.
  - intros Hfirst.
    specialize (Hfirst _ ([1%nat], leaf "C") 0 4 eq_refl).
    vm_compute in Hr. injection Hr as <-.
    assert (4 <= 0) as Hle; [|lia].
    apply Hfirst; [|by vm_compute..]. do 2 right. left.
Qed.

(** C4, amended: the tip at index [j] of the traversal is at [j + 1] in the
    vector layout, which is [count - i] for its index [i = count - 1 - j]
    in the reversed traversal, and at [2 * j] in the ASCII layout; in both
    the first tip has the lowest position of all tips. *)
Theorem C4_tip_positions tree :
  (∃ heights,
     Draw.get_y_positions tree = Ok heights ∧
     tips_at (λ j, inject_Z (Z.of_nat j + 1)) tree heights ∧
     tips_at (λ j, inject_Z (BaseTree.count_terminals tree
                             - (BaseTree.count_terminals tree - 1 - Z.of_nat j)))
       tree heights ∧
     first_tip_extreme Qle tree heights) ∧
  (clades (root tree) ≠ [] →
   ∃ rows,
     DrawAscii.get_row_positions (BaseTree.get_terminals tree) tree = Ok rows ∧
     tips_at (λ j, 2 * Z.of_nat j) tree rows ∧
     first_tip_extreme Z.le tree rows).
Proof.
  split.
  - destruct (get_y_positions_spec tree) as (heights & Hy & Htips & _).
    exists heights. split_and!; try done.
    + intros j tip Hj. rewrite (Htips j tip Hj). do 2 f_equal. lia.
    + intros first tip a b Hfirst [k Hk]%list_elem_of_lookup Ha Hb.
      rewrite (Htips _ _ Hfirst) in Ha. rewrite (Htips _ _ Hk) in Hb.
      simplify_eq. rewrite <- Zle_Qle. lia.
  - intros Hne.
    destruct (get_row_positions_spec tree Hne) as (rows & Hr & Htips & _).
    exists rows. split_and!; try done.
    intros first tip a b Hfirst [k Hk]%list_elem_of_lookup Ha Hb.
    rewrite (Htips _ _ Hfirst) in Ha. rewrite (Htips _ _ Hk) in Hb.
    simplify_eq. lia.
Qed.

(** C4 at ((A, B), C), whose root has children. *)
Lemma C4_tip_positions_witness :
  ∃ rows,
    DrawAscii.get_row_positions (BaseTree.get_terminals tree_ab_c) tree_ab_c
      = Ok rows ∧
    tips_at (λ j, 2 * Z.of_nat j) tree_ab_c rows ∧
    first_tip_extreme Z.le tree_ab_c rows.
Proof. apply (proj2 (C4_tip_positions tree_ab_c)). simpl. discriminate. Defined.

(** C5: for ((A, B), (C, D)) with unit branch lengths, [draw_ascii] writes
    seven rows and then an empty line; the rows 0, 2, 4 and 6 end with the
    labels A, B, C and D, in the order of the traversal, and the rows between
    them hold line art only. *)
Theorem C5_balanced4_rows :
  (BaseTree.str ∘ snd) <$> BaseTree.get_terminals balanced4 = ["A"; "B"; "C"; "D"] ∧
  ∃ rows,
    draw_ascii balanced4 80 = Ok (rows ++ [newline]) ∧
    length rows = (2 * 4 - 1)%nat ∧
    (∀ i label, ["A"; "B"; "C"; "D"] !! i = Some label →
       ∃ row, rows !! (2 * i)%nat = Some row ∧
              ends_with (" " +:+ label +:+ newline) row) ∧
    (∀ i row, rows !! (2 * i + 1)%nat = Some row → line_art_only row).
Proof.
  split; [done|].
  destruct (draw_ascii balanced4 80) as [out|e] eqn:Hout;
    [|by vm_compute in Hout].
  vm_compute in Hout. injection Hout as <-.
  eexists [_; _; _; _; _; _; _]. split; [reflexivity|]. split; [done|]. split.
  - intros i label Hi.
    destruct i as [|[|[|[|i]]]]; simpl in Hi; simplify_eq; eexists;
      (split; [reflexivity|]).
    + by exists (String.concat EmptyString
                   (replicate 40 " " ++ replicate 37 "_"))%string.
    + by exists (String.concat EmptyString
                   ([" "; "|"] ++ replicate 37 " " ++ ["|"] ++ replicate 37 "_"))%string.
    + by exists (String.concat EmptyString
                   ([" "; "|"] ++ replicate 38 " " ++ replicate 37 "_"))%string.
    + by exists (String.concat EmptyString
                   (replicate 39 " " ++ ["|"] ++ replicate 37 "_"))%string.
  - intros i row Hi.
    destruct i as [|[|[|i]]];
      [..|apply lookup_lt_Some in Hi; simpl in Hi; lia];
      simpl in Hi; by simplify_eq.
Qed.

(** ** Stateful code *)

Lemma bind_Ok_inv {St A B} (m : M St A) (f : A → M St B) s b s' :
  (m ≫= f) s = (Ok b, s') → ∃ a s1, m s = (Ok a, s1) ∧ f a s1 = (Ok b, s').
Proof.
  unfold mbind, M_bind. destruct (m s) as [[a|e] s1]; [eauto|done].
Qed.

Lemma bind_Ok {St A B} (m : M St A) (f : A → M St B) s a s1 :
  m s = (Ok a, s1) → (m ≫= f) s = f a s1.
Proof. intros Hm. unfold mbind, M_bind. by rewrite Hm. Qed.

Lemma bind_Raise {St A B} (m : M St A) (f : A → M St B) s e s1 :
  m s = (Raise e, s1) → (m ≫= f) s = (Raise e, s1).
Proof. intros Hm. unfold mbind, M_bind. by rewrite Hm. Qed.

Lemma for_each_M_inv {St A} (body : nat → A → M St unit)
    (P : nat → St → Prop) l :
  ∀ i s,
  P i s →
  (∀ j x s, l !! j = Some x → P (i + j)%nat s →
            ∃ s', body (i + j)%nat x s = (Ok tt, s') ∧ P (S (i + j)) s') →
  ∃ s', for_each_M body i l s = (Ok tt, s') ∧ P (i + length l)%nat s'.
Proof.
  induction l as [|x l IH]; intros i s Hs Hstep; simpl.
  - exists s. by rewrite Nat.add_0_r.
  - destruct (Hstep 0%nat x s eq_refl) as (s1 & Hb & Hs1);
      [by rewrite Nat.add_0_r|].
    rewrite Nat.add_0_r in Hb, Hs1. rewrite (bind_Ok _ _ _ _ _ Hb).
    rewrite <- Nat.add_succ_comm. apply IH; [done|].
    intros j y t Hj Ht. rewrite Nat.add_succ_comm. apply Hstep; [done|].
    by rewrite <- Nat.add_succ_comm.
Qed.

Lemma for_each_M_app {St A} (body : nat → A → M St unit) l1 l2 :
  ∀ i s,
  for_each_M body i (l1 ++ l2) s
  = (for_each_M body i l1 ≫= λ _, for_each_M body (i + length l1)%nat l2) s.
Proof.
  induction l1 as [|x l1 IH]; intros i s; simpl.
  - rewrite Nat.add_0_r. by unfold mbind, M_bind, mret, M_ret.
  - unfold mbind, M_bind in *. destruct (body i x s) as [[[]|e] s1]; [|done].
    rewrite IH. by rewrite <- Nat.add_succ_comm.
Qed.

Section preserves.
Context {St : Type} (R : relation St) `{!PreOrder R}.

Lemma preserves_ret {A} (a : A) : preserves R (mret a).
Proof. intros s r s' [= <- <-]. reflexivity. Qed.

Lemma preserves_lift {A} (x : Res A) : preserves R (lift x).
Proof. intros s r s' [= <- <-]. reflexivity. Qed.

Lemma preserves_raise {A} e : preserves R (raise e : M St A).
Proof. intros s r s' [= <- <-]. reflexivity. Qed.

Lemma preserves_gets {A} (f : St → A) : preserves R (gets f).
Proof. intros s r s' [= <- <-]. reflexivity. Qed.

Lemma preserves_modify (f : St → St) :
  (∀ s, R s (f s)) → preserves R (modify f).
Proof. intros Hf s r s' [= <- <-]. apply Hf. Qed.

Lemma preserves_bind {A B} (m : M St A) (f : A → M St B) :
  preserves R m → (∀ a, preserves R (f a)) → preserves R (m ≫= f).
Proof.
  intros Hm Hf s r s'. unfold mbind, M_bind.
  destruct (m s) as [[a|e] s1] eqn:Hms.
  - intros Hfa. etransitivity; [by eapply Hm|by eapply Hf].
  - intros [= <- <-]. by eapply Hm.
Qed.

Lemma preserves_when b (m : M St unit) :
  preserves R m → preserves R (when b m).
Proof. intros Hm. destruct b; [done|]. apply preserves_ret. Qed.

Lemma preserves_for_each_M {A} (body : nat → A → M St unit) l :
  ∀ i,
  (∀ j x, l !! j = Some x → preserves R (body (i + j)%nat x)) →
  preserves R (for_each_M body i l).
Proof.
  induction l as [|x l IH]; intros i Hbody; simpl.
  - apply preserves_ret.
  - apply preserves_bind.
    + specialize (Hbody 0%nat x eq_refl). by rewrite Nat.add_0_r in Hbody.
    + intros _. apply IH. intros j y Hj.
      rewrite Nat.add_succ_comm. by apply Hbody.
Qed.

End preserves.

(** ** [draw]: what a run may change *)

#[local] Instance grows_preorder : PreOrder grows.
Proof.
  split.
  - by intros s.
  - intros s1 s2 s3 (Hh1 & Hc1 & Hl1 & Hv1) (Hh2 & Hc2 & Hl2 & Hv2).
    split_and!; [congruence|by etransitivity..].
Qed.

Lemma preserves_issue c : preserves grows (Draw.issue c).
Proof.
  apply (preserves_modify grows). intros s.
  split_and!; simpl; try done. by apply prefix_app_r.
Qed.

Lemma preserves_draw_clade_lines b o y xs xh yb yt c lw ls :
  preserves grows (Draw.draw_clade_lines b o y xs xh yb yt c lw ls).
Proof.
  unfold Draw.draw_clade_lines.
  repeat case_match; try apply preserves_issue;
    try (by apply (preserves_ret grows));
    apply (preserves_modify grows); intros s;
    split_and!; simpl; try done; by apply prefix_app_r.
Qed.

Ltac preserves_step :=
  lazymatch goal with
  | |- preserves _ (mbind _ _) => apply (preserves_bind grows); [|intros ?]
  | |- preserves _ (mret _) => apply (preserves_ret grows)
  | |- preserves _ (lift _) => apply (preserves_lift grows)
  | |- preserves _ (raise _) => apply (preserves_raise grows)
  | |- preserves _ (gets _) => apply (preserves_gets grows)
  | |- preserves _ (when _ _) => apply (preserves_when grows)
  | |- preserves _ (for_each_M _ _ _) =>
      apply (preserves_for_each_M grows); intros ? ? ?
  | |- preserves _ (Draw.issue _) => apply preserves_issue
  | |- preserves _ (Draw.draw_clade_lines _ _ _ _ _ _ _ _ _ _) =>
      apply preserves_draw_clade_lines
  | |- preserves _ (if ?b then _ else _) => destruct b
  | |- preserves _ (match ?x with _ => _ end) => destruct x
  | |- preserves _ (let _ := _ in _) => lazy zeta
  end.

Ltac preserves_auto := repeat preserves_step.

Section draw_grows.
Variables (lw0 : Q) (float_str : Q → string) (tree : Tree) (a : Draw.Args).
Variables (format_branch_label : path → Clade → option string).
Variables (get_label_color : string → string) (x_posns y_posns : gmap path Q).

Lemma preserves_draw_label p clade x y xmax text_at :
  (∀ xplc label, preserves grows (text_at xplc label)) →
  preserves grows (Draw.draw_label tree a p clade x y xmax text_at).
Proof. intros Htext. unfold Draw.draw_label. preserves_auto; apply Htext. Qed.

Lemma preserves_draw_clade clade :
  ∀ p x_start color lw,
  preserves grows
    (Draw.draw_clade lw0 tree a format_branch_label get_label_color
       x_posns y_posns clade p x_start color lw).
Proof.
  induction clade as [nm bl cf cfs subs IH] using Clade_ind.
  intros p x_start color lw. cbn [Draw.draw_clade clades].
  rewrite Forall_lookup in IH.
  preserves_auto;
    try (apply preserves_draw_label; intros; preserves_auto);
    eapply IH; eassumption.
Qed.

Lemma preserves_draw_clade_polar clade :
  ∀ p color lw x_start y_start,
  preserves grows
    (Draw.draw_clade_polar tree a x_posns y_posns clade p color lw
       x_start y_start).
Proof.
  induction clade as [nm bl cf cfs subs IH] using Clade_ind.
  intros p color lw x_start y_start. cbn [Draw.draw_clade_polar clades].
  rewrite Forall_lookup in IH.
  preserves_auto; eapply IH; eassumption.
Qed.

Lemma preserves_draw_tree :
  preserves grows
    (Draw.draw_tree lw0 tree a format_branch_label get_label_color
       x_posns y_posns).
Proof.
  unfold Draw.draw_tree.
  preserves_auto;
    first [apply preserves_draw_clade | apply preserves_draw_clade_polar].
Qed.

End draw_grows.

Lemma preserves_setup_axes a : preserves grows (Draw.setup_axes a).
Proof. unfold Draw.setup_axes. preserves_auto. Qed.

Lemma preserves_draw_figure lw fs tree a :
  preserves grows (Draw.draw_figure lw fs tree a).
Proof.
  unfold Draw.draw_figure.
  preserves_auto;
    first [apply preserves_setup_axes | apply preserves_draw_tree].
Qed.

Lemma preserves_pyplot_option plt key value :
  preserves grows (Draw.pyplot_option plt key value).
Proof. unfold Draw.pyplot_option, Draw.pyplot_call. preserves_auto. Qed.

Lemma preserves_draw_body lw fs plt tree a :
  preserves grows (Draw.draw_body lw fs plt tree a).
Proof.
  unfold Draw.draw_body.
  preserves_auto;
    first [apply preserves_draw_figure | apply preserves_pyplot_option].
Qed.

(** ** [draw]: the tree is drawn when [draw_figure] returns *)

Lemma drawn_grows s s' : grows s s' → drawn s → drawn s'.
Proof.
  intros (_ & [k Hk] & _) Hs. unfold drawn in *.
  rewrite Hk, existsb_app, Hs. done.
Qed.

Lemma lift_inv {St A} (x : Res A) (s s' : St) r :
  lift x s = (r, s') → r = x ∧ s' = s.
Proof. by intros [= <- <-]. Qed.

Lemma gets_inv {St A} (f : St → A) (s s' : St) r :
  gets f s = (r, s') → r = Ok (f s) ∧ s' = s.
Proof. by intros [= <- <-]. Qed.

Lemma issue_inv c s r s' :
  Draw.issue c s = (r, s') →
  s' = Draw.mkPlot (Draw.heap s) (Draw.calls s ++ [c])
         (Draw.horizontal_linecollections s) (Draw.vertical_linecollections s).
Proof. by intros [= <- <-]. Qed.

Lemma draw_clade_lines_horizontal y xs xh yb yt c lw ls s r s' :
  Draw.draw_clade_lines true "horizontal" y xs xh yb yt c lw ls s = (r, s') →
  s' = Draw.mkPlot (Draw.heap s) (Draw.calls s)
         (Draw.horizontal_linecollections s ++
            [Draw.mkLineCollection ((xs, y), (xh, y)) c lw ls])
         (Draw.vertical_linecollections s).
Proof. by intros [= <- <-]. Qed.

Lemma draw_clade_lines_vertical y xs xh yb yt c lw ls s r s' :
  Draw.draw_clade_lines true "vertical" y xs xh yb yt c lw ls s = (r, s') →
  s' = Draw.mkPlot (Draw.heap s) (Draw.calls s)
         (Draw.horizontal_linecollections s)
         (Draw.vertical_linecollections s ++
            [Draw.mkLineCollection ((xh, yb), (xh, yt)) c lw ls]).
Proof. by intros [= <- <-]. Qed.

(** Inverts the first bind of a run that returned. *)
Ltac inv_bind H a :=
  let s := fresh "s" in
  let H1 := fresh H in
  apply bind_Ok_inv in H as (a & s & H1 & H);
  lazymatch type of H1 with
  | lift _ _ = _ => apply lift_inv in H1 as [H1 ->]
  | gets _ _ = _ => apply gets_inv in H1 as [H1 ->]
  | Draw.issue _ _ = _ => apply issue_inv in H1 as ->
  | Draw.draw_clade_lines true "horizontal" _ _ _ _ _ _ _ _ _ = _ =>
      apply draw_clade_lines_horizontal in H1 as ->
  | Draw.draw_clade_lines true "vertical" _ _ _ _ _ _ _ _ _ = _ =>
      apply draw_clade_lines_vertical in H1 as ->
  | _ => idtac
  end.

Ltac tail_grows H :=
  match type of H with
  | ?m ?s = _ =>
      let Hm := fresh "Hm" in
      assert (preserves grows m) as Hm;
      [|apply Hm in H]
  end.

Section draw_draws.
Variables (lw0 : Q) (float_str : Q → string) (tree : Tree) (a : Draw.Args).
Variables (format_branch_label : path → Clade → option string).
Variables (get_label_color : string → string) (x_posns y_posns : gmap path Q).

Lemma draw_clade_appends clade p x_start color lw s s' :
  Draw.draw_clade lw0 tree a format_branch_label get_label_color
    x_posns y_posns clade p x_start color lw s = (Ok tt, s') →
  (Draw.orient_tree a = "vertical" → Draw.horizontal_linecollections s' ≠ []) ∧
  (Draw.orient_tree a = "horizontal" → Draw.vertical_linecollections s' ≠ []).
Proof.
  intros H. destruct clade as [nm bl cf cfs subs]. cbn [Draw.draw_clade clades] in H.
  inv_bind H x_here. inv_bind H y_here. inv_bind H xmax.
  inv_bind H own_color. inv_bind H own_width.
  destruct (String.eqb_spec (Draw.orient_tree a) "vertical") as [Hv|Hv].
  - inv_bind H u.
    tail_grows H.
    { preserves_auto;
        first [ apply preserves_draw_clade
              | apply preserves_draw_label; intros; preserves_auto ]. }
    split; [|by rewrite Hv]. intros _.
    destruct H as (_ & _ & [k Hk] & _). rewrite Hk.
    simpl. by destruct (Draw.horizontal_linecollections s).
  - destruct (String.eqb_spec (Draw.orient_tree a) "horizontal") as [Hh|Hh];
      [|by split].
    inv_bind H u.
    tail_grows H.
    { preserves_auto;
        first [ apply preserves_draw_clade
              | apply preserves_draw_label; intros; preserves_auto ]. }
    split; [done|]. intros _.
    destruct H as (_ & _ & _ & [k Hk]). rewrite Hk.
    simpl. by destruct (Draw.vertical_linecollections s).
Qed.

Lemma draw_clade_polar_draws clade p color lw x_start y_start s s' :
  Draw.draw_clade_polar tree a x_posns y_posns clade p color lw
    x_start y_start s = (Ok tt, s') →
  drawn s'.
Proof.
  intros H. destruct clade as [nm bl cf cfs subs].
  cbn [Draw.draw_clade_polar clades] in H.
  inv_bind H ymax. inv_bind H yang. inv_bind H m. inv_bind H rad.
  inv_bind H x_here. inv_bind H y. inv_bind H u.
  tail_grows H.
  { preserves_auto; apply preserves_draw_clade_polar. }
  eapply drawn_grows; [done|].
  unfold drawn. simpl.
  rewrite existsb_app. simpl. by rewrite orb_true_r.
Qed.

Lemma add_collections l :
  ∀ i s,
  for_each_M (λ _ lc, Draw.issue (Draw.axes_add_collection lc)) i l s
  = (Ok tt,
     Draw.mkPlot (Draw.heap s)
       (Draw.calls s ++ (Draw.axes_add_collection <$> l))
       (Draw.horizontal_linecollections s) (Draw.vertical_linecollections s)).
Proof.
  induction l as [|lc l IH]; intros i s; simpl.
  - rewrite app_nil_r. by destruct s.
  - unfold mbind, M_bind. simpl. rewrite IH. simpl.
    by rewrite <- app_assoc.
Qed.

Lemma draw_tree_draws s s' :
  Draw.check_orientation a = Ok tt →
  Draw.draw_tree lw0 tree a format_branch_label get_label_color
    x_posns y_posns s = (Ok tt, s') →
  drawn s'.
Proof.
  intros Hcheck H. unfold Draw.draw_tree in H.
  unfold Draw.check_orientation in Hcheck.
  destruct (Draw.str_in (Draw.orient_tree a) ["horizontal"; "vertical"])
    eqn:Hhv.
  - inv_bind H u. destruct u. apply draw_clade_appends in H0 as [Hvert Hhoriz].
    inv_bind H hs. injection H0 as ->.
    rewrite bind_Ok with (1 := add_collections _ _ _) in H.
    inv_bind H vs. injection H0 as ->.
    rewrite bind_Ok with (1 := add_collections _ _ _) in H.
    tail_grows H. { preserves_auto. }
    eapply drawn_grows; [done|]. unfold drawn. simpl.
    rewrite !existsb_app.
    unfold Draw.str_in in Hhv. simpl in Hhv.
    destruct (String.eqb_spec (Draw.orient_tree a) "horizontal") as [Hh|Hh].
    + destruct (Draw.vertical_linecollections s0); [by destruct Hhoriz|].
      simpl. by rewrite !orb_true_r.
    + destruct (String.eqb_spec (Draw.orient_tree a) "vertical") as [Hv|Hv];
        [|done].
      destruct (Draw.horizontal_linecollections s0); [by destruct Hvert|].
      simpl. by rewrite !orb_true_r.
  - destruct (String.eqb_spec (Draw.orient_tree a) "circular") as [Hc|Hc].
    + inv_bind H u. destruct u. apply draw_clade_polar_draws in H0.
      tail_grows H. { preserves_auto. }
      by eapply drawn_grows.
    + exfalso. unfold Draw.str_in in *. simpl in *.
      destruct (String.eqb_spec (Draw.orient_tree a) "horizontal"); [done|].
      destruct (String.eqb_spec (Draw.orient_tree a) "vertical"); [done|].
      destruct (String.eqb_spec (Draw.orient_tree a) "circular"); done.
Qed.

End draw_draws.

Lemma draw_figure_draws lw fs tree a s s' :
  Draw.draw_figure lw fs tree a s = (Ok tt, s') → drawn s'.
Proof.
  intros H. unfold Draw.draw_figure in H.
  inv_bind H u. destruct u.
  inv_bind H format_branch_label. inv_bind H x_posns. inv_bind H y_posns.
  inv_bind H u. inv_bind H u'. destruct u'.
  match goal with
  | Hd : Draw.draw_tree _ _ _ _ _ _ _ _ = _ |- _ =>
      apply draw_tree_draws in Hd; [|done]
  end.
  tail_grows H. { preserves_auto. }
  by eapply drawn_grows.
Qed.

(** ** [to_networkx]: the cascade of colors *)

Lemma add_edge_colors version n1 n2 c2 s :
  ∃ s',
    ToNetworkx.add_edge version n1 n2 c2 s = (Ok tt, s') ∧
    (∀ k, k ≠ n2 → colors s' !! k = colors s !! k) ∧
    (String.leb "1.0" version = true →
     colors s' !! n2 = match colors s !! n2 with
                       | Some c => Some c
                       | None => colors s !! n1
                       end).
Proof.
  unfold ToNetworkx.add_edge, colors. destruct s as [[col wid] g].
  destruct (String.leb "1.0" version) eqn:Hv.
  - cbv beta iota zeta delta
      [mbind M_bind gets ToNetworkx.graph_add_edge ToNetworkx.set_G
       ToNetworkx.set_heap ToNetworkx.edge_set_color ToNetworkx.edge_set_width
       modify mret M_ret ToNetworkx.heap ToNetworkx.G clade_color clade_width].
    destruct (col !! n2) as [col2|] eqn:H2;
      destruct (col !! n1) as [col1|] eqn:H1;
      cbv beta iota;
      destruct (wid !! n2) as [w2|];
      destruct (wid !! n1) as [w1|];
      cbv beta iota;
      eexists; (split; [reflexivity|]);
      cbv beta iota;
      split; intros; rewrite ?lookup_insert_ne, ?lookup_insert_eq by done;
      done.
  - destruct (String.leb "0.99" version);
      eexists; (split; [reflexivity|]); split; intros; done.
Qed.

Lemma add_node_colors n s :
  ∃ s', ToNetworkx.graph_add_node n s = (Ok tt, s') ∧ colors s' = colors s.
Proof. eexists. split; reflexivity. Qed.

(** [build_subgraph] below [p] assigns colors below [p] only. *)
Lemma build_subgraph_colors version c :
  ∀ p s,
  ∃ s', ToNetworkx.build_subgraph version c p s = (Ok tt, s') ∧
        ∀ k, (∀ i q, k ≠ p ++ i :: q) → colors s' !! k = colors s !! k.
Proof.
  induction c as [nm bl cf cfs subs IH] using Clade_ind. intros p s.
  cbn [ToNetworkx.build_subgraph clades]. rewrite Forall_lookup in IH.
  edestruct (for_each_M_inv
    (λ i clade,
       ToNetworkx.graph_add_node (p ++ [i]);;
       ToNetworkx.add_edge version p (p ++ [i]) clade;;
       ToNetworkx.build_subgraph version clade (p ++ [i]))
    (λ _ sj, ∀ k, (∀ i q, k ≠ p ++ i :: q) → colors sj !! k = colors s !! k)
    subs 0%nat s) as (s' & Hrun & Hs'); [done| |by eauto].
  intros j x sj Hx Hsj. cbv beta. rewrite Nat.add_0_l.
  destruct (add_node_colors (p ++ [j]) sj) as (s1 & Hn & H1).
  destruct (add_edge_colors version p (p ++ [j]) x s1) as (s2 & H2 & H2' & _).
  destruct (IH j x Hx (p ++ [j]) s2) as (s3 & H3 & H3').
  exists s3.
  rewrite (bind_Ok _ _ _ _ _ Hn), (bind_Ok _ _ _ _ _ H2), H3. split; [done|].
  intros k Hk. rewrite H3', H2', H1; [by apply Hsj| |].
  - apply (Hk j []).
  - intros i q. rewrite snoc_app. apply Hk.
Qed.

Lemma to_networkx_cascade version tree h i child c :
  String.leb "1.0" version = true →
  clades (root tree) !! i = Some child →
  clade_color h !! [] = Some c →
  clade_color h !! [i] = None →
  clade_color (to_networkx version tree h).2 !! [i] = Some c.
Proof.
  intros Hv Hi Hroot Hchild. unfold to_networkx.
  destruct (root tree) as [nm bl cf cfs subs] eqn:Htree. simpl in Hi.
  set (s0 := ToNetworkx.mkState h _).
  destruct (add_node_colors [] s0) as (s1 & Hn1 & H1).
  rewrite (bind_Ok _ _ _ _ _ Hn1).
  cbn [ToNetworkx.build_subgraph clades].
  edestruct (for_each_M_inv
    (λ i clade,
       ToNetworkx.graph_add_node ([] ++ [i]);;
       ToNetworkx.add_edge version [] ([] ++ [i]) clade;;
       ToNetworkx.build_subgraph version clade ([] ++ [i]))
    (λ j sj, colors sj !! [] = Some c ∧
             ((j ≤ i)%nat → colors sj !! [i] = None) ∧
             ((i < j)%nat → colors sj !! [i] = Some c))
    subs 0%nat s1) as (s' & -> & _ & _ & Hs').
  { rewrite H1. split_and!; [done|done|lia]. }
  { intros j x sj Hx (Hr & Hle & Hgt). cbv beta. rewrite Nat.add_0_l.
    change ([] ++ [j]) with [j].
    destruct (add_node_colors [j] sj) as (s2 & Hn & H2).
    destruct (add_edge_colors version [] [j] x s2) as (s3 & H3 & H3' & H3'').
    destruct (build_subgraph_colors version x [j] s3) as (s4 & H4 & H4').
    exists s4.
    rewrite (bind_Ok _ _ _ _ _ Hn), (bind_Ok _ _ _ _ _ H3), H4. split; [done|].
    specialize (H3'' Hv). rewrite H2 in H3', H3''.
    assert (∀ k : nat, colors s4 !! [k] = colors s3 !! [k]) as Hone.
    { intros k. apply H4'. intros i' q. simpl. congruence. }
    split_and!.
    - rewrite H4', H3'; [done..|]. intros i' q. done.
    - intros Hji. rewrite Hone, H3'; [apply Hle; lia|]. intros [= ->]. lia.
    - intros Hij. rewrite Hone. destruct (decide (j = i)) as [->|Hne].
      + rewrite H3'', Hle, Hr; [done|lia].
      + rewrite H3'; [apply Hgt; lia|]. congruence. }
  simpl. apply Hs'. by eapply lookup_lt_Some.
Qed.

(** C6: an [orient_tree] that is none of the three orientations makes
    [draw] raise [ValueError] before any call on the plotting library: the
    list of calls is empty, as are the two lists of line collections, and
    the clades keep their attributes. *)
Theorem C6_invalid_orientation lw fs plt tree a h :
  Draw.str_in (Draw.orient_tree a) ["horizontal"; "vertical"; "circular"]
    = false →
  draw lw fs plt tree a h =
    (Raise (ValueError
       "orient_tree must be one of 'horizontal', 'vertical' or 'circular'"),
     Draw.mkPlot h [] [] []).
Proof.
  intros Hbad. unfold draw, Draw.draw_body, Draw.draw_figure.
  unfold Draw.check_orientation. rewrite Hbad. reflexivity.
Qed.

(** C6 at [orient_tree="diagonal"]. *)
Lemma C6_invalid_orientation_witness :
  draw 1 no_float_str pyplot tree_ab_c (with_orient_tree "diagonal" default_args)
    no_annotations =
    (Raise (ValueError
       "orient_tree must be one of 'horizontal', 'vertical' or 'circular'"),
     Draw.mkPlot no_annotations [] [] []).
Proof. apply C6_invalid_orientation. reflexivity. Defined.

Lemma option_forwarded plt kv s :
  forwarded plt kv →
  Draw.pyplot_option plt kv.1 kv.2 s = Draw.issue (option_call kv) s.
Proof.
  destruct kv as [key v]. intros [Hv (f & Hf & Hcall)].
  unfold Draw.pyplot_option, Draw.pyplot_call, option_call in *. simpl in *.
  rewrite Hf.
  destruct v as [str|kw|[|arg args]|args kw|e|e]; try done;
    unfold mbind, M_bind, Draw.issue, modify, lift; by rewrite Hcall.
Qed.

Lemma options_passed_on plt l :
  ∀ i s,
  Forall (forwarded plt) l →
  for_each_M (λ _ kv, Draw.pyplot_option plt kv.1 kv.2) i l s =
    (Ok tt,
     Draw.mkPlot (Draw.heap s) (Draw.calls s ++ (option_call <$> l))
       (Draw.horizontal_linecollections s) (Draw.vertical_linecollections s)).
Proof.
  induction l as [|kv l IH]; intros i s Hl; simpl.
  - rewrite app_nil_r. by destruct s.
  - apply Forall_cons in Hl as [Hv Hl].
    rewrite (bind_Ok _ _ s tt _ (option_forwarded plt kv s Hv)), IH by done.
    simpl. by rewrite <- app_assoc.
Qed.

(** C7, as stated, fails: with the option [axvline=5], which is not
    iterable, [draw] raises the [ValueError] of the keyword arguments only
    after the tree has been drawn. *)
Lemma C7_tree_is_drawn_before_keyword_error :
  let r := draw 1 no_float_str pyplot tree_ab_c
             (with_kwargs [("axvline"%string, Draw.kw_not_iterable "5")]
                default_args) no_annotations in
  r.1 = Raise (Draw.keyword_error "axvline" "5") ∧
  existsb Draw.is_drawing (Draw.calls r.2) = true.
Proof. by vm_compute. Qed.

(** C7, amended: when everything before the keyword arguments has run
    ([draw_figure] returned), every keyword argument before the offending
    one is passed on to a function that [pyplot] has and that returns, and
    the offending one has a value that is not iterable, [draw] raises the
    [ValueError] that names the option and its value.  It does so after
    drawing: lines or text have been issued, and the options before the
    offending one have been passed on, in their order. *)
Theorem C7_keyword_error_after_drawing lw fs plt tree a h s1 before key str after :
  Draw.draw_figure lw fs tree a (Draw.mkPlot h [] [] []) = (Ok tt, s1) →
  Draw.kwargs a = before ++ (key, Draw.kw_not_iterable str) :: after →
  Forall (forwarded plt) before →
  draw lw fs plt tree a h =
    (Raise (Draw.keyword_error key str),
     Draw.mkPlot (Draw.heap s1) (Draw.calls s1 ++ (option_call <$> before))
       (Draw.horizontal_linecollections s1)
       (Draw.vertical_linecollections s1)) ∧
  existsb Draw.is_drawing (Draw.calls s1) = true.
Proof.
  intros Hfig Hkw Hbefore. split; [|by eapply draw_figure_draws].
  unfold draw, Draw.draw_body.
  rewrite (bind_Ok _ _ _ _ _ Hfig), Hkw.
  apply bind_Raise. rewrite for_each_M_app.
  rewrite (bind_Ok _ _ _ _ _ (options_passed_on plt before _ _ Hbefore)).
  reflexivity.
Qed.

(** C7 at ((A, B), C) with the options [axhline={"y": 1}], [title=("T",)]
    and [axvline=5], in this order: the first two are passed on, the third
    is the offending one. *)
Lemma C7_keyword_error_after_drawing_witness :
  let before := [("axhline"%string, Draw.kw_dict [("y"%string, "1"%string)]);
                 ("title"%string, Draw.kw_args ["T"%string])] in
  let a := with_kwargs
             (before ++ [("axvline"%string, Draw.kw_not_iterable "5")])
             default_args in
  let s1 := (Draw.draw_figure 1 no_float_str tree_ab_c a
               (Draw.mkPlot no_annotations [] [] [])).2 in
  draw 1 no_float_str pyplot tree_ab_c a no_annotations =
    (Raise (Draw.keyword_error "axvline" "5"),
     Draw.mkPlot (Draw.heap s1)
       (Draw.calls s1 ++
          [Draw.plt_option "axhline" [] [("y"%string, "1"%string)];
           Draw.plt_option "title" ["T"%string] []])
       (Draw.horizontal_linecollections s1)
       (Draw.vertical_linecollections s1)) ∧
  existsb Draw.is_drawing (Draw.calls s1) = true.
Proof.
  intros before a s1.
  apply (C7_keyword_error_after_drawing 1 no_float_str pyplot tree_ab_c a
           no_annotations s1 before "axvline" "5" []).
  - by vm_compute.
  - reflexivity.
  - repeat constructor; eexists; split; reflexivity.
Defined.

(** C8, as stated, fails: after [draw] on a root with the color "#ff0000"
    and a child without a color, the child still has no color, although
    its branch (the second horizontal line) has been drawn in "#ff0000". *)
Lemma C8_draw_leaves_child_color_None :
  let r := draw 1 no_float_str pyplot parent_child default_args red_root in
  r.1 = Ok tt ∧
  clade_color (Draw.heap r.2) !! [0%nat] = None ∧
  Draw.calls r.2 !! 4%nat =
    Some (Draw.axes_add_collection
            (Draw.mkLineCollection ((0%Q, 1%Q), (1%Q, 1%Q)) "#ff0000" 1 "solid")).
Proof. by vm_compute. Qed.

(** ** The layouts keep nothing from one call to the next *)

Lemma makes_twice {V} (m : M (list (gmap path V)) nat) r : makes m r → twice m r.
Proof.
  intros Hm s. destruct (Hm s) as (s1 & Hp1 & H1).
  destruct (Hm s1) as (s2 & Hp2 & H2). exists s1, s2.
  split; [by etransitivity|]. destruct r as [d|e]; [|done].
  destruct H1 as (l1 & Hrun1 & Hl1 & Hd1).
  destruct H2 as (l2 & Hrun2 & Hl2 & Hd2).
  exists l1, l2. apply lookup_lt_Some in Hd1 as Hlt.
  pose proof (prefix_length _ _ Hp1).
  split_and!; [done|done|lia| | |done| |done].
  - apply lookup_ge_None_2. lia.
  - apply lookup_ge_None_2. lia.
  - by eapply prefix_lookup_Some.
Qed.

Lemma dict_at_run {V} (l : nat) (s : list (gmap path V)) d :
  s !! l = Some d → Objects.dict_at l s = (Ok d, s).
Proof. intros Hl. unfold Objects.dict_at, gets. by rewrite Hl. Qed.

Lemma loop_refines {V} (l : nat)
    (body_obj : nat → Clade → M (list (gmap path V)) unit)
    (body : nat → Clade → gmap path V → Res (gmap path V)) subs :
  (∀ j x i s d, subs !! j = Some x → s !! l = Some d →
     refines l s (body_obj i x s) (body i x d)) →
  ∀ i s d, s !! l = Some d →
    refines l s (for_each_M body_obj i subs s) (for_each body i subs d).
Proof.
  induction subs as [|x subs IH]; intros Hbody i s d Hl.
  - exists d. split; [by rewrite list_insert_id|done].
  - cbn [for_each_M for_each]. unfold mbind at 1, M_bind.
    destruct (Hbody 0%nat x i s d eq_refl Hl) as (d' & Hs & Hr).
    destruct (body_obj i x s) as [r1 s1]. simpl in Hs, Hr. subst s1.
    destruct (body i x d) as [d1|e]; cbn [mbind Res_bind].
    + destruct Hr as [-> ->].
      destruct (IH (λ j, Hbody (S j)) (S i) (<[l:=d1]> s) d1)
        as (d2 & Hs2 & Hr2).
      { apply list_lookup_insert_eq. by eapply lookup_lt_Some. }
      exists d2. by rewrite list_insert_insert_eq in Hs2.
    + subst r1. by exists d'.
Qed.

Lemma calc_row_refines {V} (midpoint : V → V → V) c :
  ∀ p l (s : list (gmap path V)) d,
  s !! l = Some d →
  refines l s (Objects.calc_row midpoint l c p s) (calc_row midpoint c p d).
Proof.
  induction c as [nm bl cf cfs subs IH] using Clade_ind.
  intros p l s d Hl. rewrite Forall_lookup in IH.
  cbn [Objects.calc_row calc_row clades].
  pose proof (loop_refines l
    (λ i subclade,
       d ← Objects.dict_at l;
       if decide (is_Some (d !! (p ++ [i]))) then mret tt
       else Objects.calc_row midpoint l subclade (p ++ [i]))
    (λ i subclade positions,
       if decide (is_Some (positions !! (p ++ [i]))) then Ok positions
       else calc_row midpoint subclade (p ++ [i]) positions)
    subs) as Hloop.
  destruct (Hloop) with (i := 0%nat) (s := s) (d := d) as (d1 & Hs1 & Hr1);
    [|done|].
  { intros j x i s0 d0 Hx Hl0. unfold mbind at 1, M_bind.
    rewrite (dict_at_run _ _ _ Hl0).
    destruct (decide (is_Some (d0 !! (p ++ [i])))).
    - exists d0. split; [by rewrite list_insert_id|done].
    - by eapply IH. }
  clear Hloop. unfold mbind at 1, M_bind.
  destruct (for_each_M _ 0%nat subs s) as [r1 s1]. simpl in Hs1, Hr1. subst s1.
  destruct (for_each _ 0%nat subs d) as [d1'|e]; cbn [mbind Res_bind];
    [|subst r1; by exists d1].
  destruct Hr1 as [-> ->].
  assert (<[l:=d1']> s !! l = Some d1') as Hl1.
  { apply list_lookup_insert_eq. by eapply lookup_lt_Some. }
  unfold mbind at 1, M_bind, lift.
  destruct (py_getitem subs 0) as [c_first|e]; cbn [mbind Res_bind];
    [|by exists d1'].
  unfold mbind at 1, M_bind. rewrite (dict_at_run _ _ _ Hl1).
  unfold mbind at 1, M_bind, lift.
  destruct (py_lookup d1' (p ++ [c_first.1])) as [a|e]; cbn [mbind Res_bind];
    [|by exists d1'].
  unfold mbind at 1, M_bind, lift.
  destruct (py_getitem subs (-1)) as [c_last|e]; cbn [mbind Res_bind];
    [|by exists d1'].
  unfold mbind at 1, M_bind. rewrite (dict_at_run _ _ _ Hl1).
  unfold mbind at 1, M_bind, lift.
  destruct (py_lookup d1' (p ++ [c_last.1])) as [b|e]; cbn [mbind Res_bind];
    [|by exists d1'].
  unfold Objects.dict_setitem, modify. rewrite Hl1. simpl.
  eexists. split; [by rewrite list_insert_insert_eq|done].
Qed.

Lemma new_dict_calc_row {V} (midpoint : V → V → V) (c : Clade)
    (d : gmap path V)
    (s : list (gmap path V)) :
  ∃ d', (Objects.calc_row midpoint (length s) c [] (s ++ [d])).2 = s ++ [d'] ∧
        match calc_row midpoint c [] d with
        | Ok d1 =>
            (Objects.calc_row midpoint (length s) c [] (s ++ [d])).1 = Ok tt
            ∧ d' = d1
        | Raise e =>
            (Objects.calc_row midpoint (length s) c [] (s ++ [d])).1 = Raise e
        end.
Proof.
  destruct (calc_row_refines midpoint c [] (length s) (s ++ [d]) d)
    as (d' & Hs & Hr).
  { by rewrite lookup_app_r, Nat.sub_diag. }
  exists d'. split; [|done]. rewrite Hs.
  by rewrite insert_app_r_alt, Nat.sub_diag.
Qed.

Lemma makes_alt {V} (m : M (list (gmap path V)) nat) r :
  (∀ s, ∃ res s',
     m s = (res, s') ∧ s `prefix_of` s' ∧
     match r with
     | Ok d => ∃ l, res = Ok l ∧ (length s ≤ l)%nat ∧ s' !! l = Some d
     | Raise e => res = Raise e
     end) →
  makes m r.
Proof.
  intros Hm s. destruct (Hm s) as (res & s' & Hrun & Hp & Hr).
  exists s'. split; [done|]. destruct r as [d|e].
  - destruct Hr as (l & -> & Hl & Hd). by exists l.
  - by subst res.
Qed.

Lemma lookup_new {A} (s : list A) (d : A) : (s ++ [d]) !! length s = Some d.
Proof. by rewrite lookup_app_r, Nat.sub_diag. Qed.

Lemma makes_get_y_positions tree :
  makes (Objects.get_y_positions tree) (Draw.get_y_positions tree).
Proof.
  apply makes_alt. intros s.
  unfold Objects.get_y_positions, Draw.get_y_positions.
  set (heights := dict_of_items _).
  unfold mbind at 1, M_bind, Objects.new_dict.
  destruct (clades (root tree)) as [|sub subs] eqn:Hsubs.
  - exists (Ok (length s)), (s ++ [heights]). split; [done|].
    split; [by apply prefix_app_r|].
    exists (length s). split; [done|]. split; [done|]. apply lookup_new.
  - destruct (new_dict_calc_row (λ a b, (a + b) / 2)%Q (root tree) heights s)
      as (d' & Hs & Hr).
    unfold mbind at 1, M_bind.
    destruct (Objects.calc_row _ (length s) (root tree) [] (s ++ [heights]))
      as [r1 s1]. simpl in Hs, Hr. subst s1.
    destruct (calc_row _ (root tree) [] heights) as [d1|e].
    + destruct Hr as [-> ->]. exists (Ok (length s)), (s ++ [d1]).
      split; [done|]. split; [by apply prefix_app_r|].
      exists (length s). split; [done|]. split; [done|]. apply lookup_new.
    + subst r1. exists (Raise e), (s ++ [d']). split; [done|].
      split; [by apply prefix_app_r|done].
Qed.

Lemma makes_get_row_positions taxa tree :
  makes (Objects.get_row_positions taxa tree)
    (DrawAscii.get_row_positions taxa tree).
Proof.
  apply makes_alt. intros s.
  unfold Objects.get_row_positions, DrawAscii.get_row_positions.
  set (positions := dict_of_items _).
  unfold mbind at 1, M_bind, Objects.new_dict.
  destruct (new_dict_calc_row (λ a b, (a + b) `div` 2) (root tree) positions s)
    as (d' & Hs & Hr).
  unfold mbind at 1, M_bind.
  destruct (Objects.calc_row _ (length s) (root tree) [] (s ++ [positions]))
    as [r1 s1]. simpl in Hs, Hr. subst s1.
  destruct (calc_row _ (root tree) [] positions) as [d1|e].
  - destruct Hr as [-> ->]. exists (Ok (length s)), (s ++ [d1]).
    split; [done|]. split; [by apply prefix_app_r|].
    exists (length s). split; [done|]. split; [done|]. apply lookup_new.
  - subst r1. exists (Raise e), (s ++ [d']). split; [done|].
    split; [by apply prefix_app_r|done].
Qed.

Lemma makes_get_x_positions tree :
  makes (Objects.get_x_positions tree) (Draw.get_x_positions tree).
Proof.
  apply makes_alt. intros s.
  unfold Objects.get_x_positions, Draw.get_x_positions, Objects.depths.
  unfold mbind at 1, M_bind, Objects.new_dict.
  unfold mbind at 1, M_bind.
  rewrite (dict_at_run (length s) (s ++ [BaseTree.depths false tree])
             (BaseTree.depths false tree)) by apply lookup_new.
  unfold mbind at 1, M_bind, lift.
  destruct (py_max (values (BaseTree.depths false tree))) as [m|e];
    cbn [mbind Res_bind].
  - destruct (Qeq_bool m 0).
    + eexists _, _. split; [done|]. split.
      { apply prefix_app_r, prefix_app_r. done. }
      eexists. split; [done|]. split; [|apply lookup_new].
      rewrite length_app. simpl. lia.
    + eexists _, _. split; [done|]. split; [by apply prefix_app_r|].
      eexists. split; [done|]. split; [done|]. apply lookup_new.
  - eexists _, _. split; [done|]. split; [by apply prefix_app_r|done].
Qed.

Lemma makes_get_col_positions taxa drawing_width tree :
  makes (Objects.get_col_positions taxa drawing_width tree)
    (DrawAscii.get_col_positions taxa drawing_width tree).
Proof.
  apply makes_alt. intros s.
  unfold Objects.get_col_positions, DrawAscii.get_col_positions.
  unfold mbind at 1, M_bind, lift.
  destruct (py_max (values (BaseTree.depths false tree))) as [m|e];
    cbn [mbind Res_bind]; [|by exists (Raise e), s].
  unfold mbind at 1, M_bind.
  destruct (len taxa <=? 0); cbn [mbind Res_bind]; [by eexists _, s|].
  unfold mbind at 1, M_bind.
  destruct (py_max (values _)) as [m'|e]; cbn [mbind Res_bind];
    [|by exists (Raise e), s].
  unfold mbind at 1, M_bind.
  destruct (py_truediv _ m') as [cpu|e]; cbn [mbind Res_bind];
    [|by exists (Raise e), s].
  eexists _, _. split; [done|]. split; [by apply prefix_app_r|].
  eexists. split; [done|]. split; [done|]. apply lookup_new.
Qed.

(** C9: the layout functions keep nothing from one call to the next.  The
    dicts that they make and that their closures assign to are objects of
    a store here.  From any store, [get_x_positions] and [get_y_positions]
    return, and two calls in a row return two dicts that hold the same
    mapping, the one that the function determines from the tree alone; the
    second call makes a dict of its own and leaves the dict of the first
    call, and every dict that was there before, as it was.  The columns
    and the rows of [draw_ascii] likewise, where the outcome can be an
    exception, the same both times. *)
Theorem C9_layout_is_deterministic tree taxa drawing_width :
  (∃ x y,
     Draw.get_x_positions tree = Ok x ∧ Draw.get_y_positions tree = Ok y ∧
     twice (Objects.get_x_positions tree) (Ok x) ∧
     twice (Objects.get_y_positions tree) (Ok y)) ∧
  twice (Objects.get_col_positions taxa drawing_width tree)
    (DrawAscii.get_col_positions taxa drawing_width tree) ∧
  twice (Objects.get_row_positions taxa tree)
    (DrawAscii.get_row_positions taxa tree).
Proof.
  split_and!.
  - destruct (get_x_positions_total tree) as [x Hx].
    destruct (get_y_positions_spec tree) as (y & Hy & _).
    exists x, y. split_and!; [done|done| |].
    + rewrite <- Hx. apply makes_twice, makes_get_x_positions.
    + rewrite <- Hy. apply makes_twice, makes_get_y_positions.
  - apply makes_twice, makes_get_col_positions.
  - apply makes_twice, makes_get_row_positions.
Qed.

(** C10: an empty dict as [branch_labels] is treated as no [branch_labels]:
    the branch labels are the confidence values under [show_confidence]
    and absent otherwise, no [TypeError] is raised, and [draw] does what it
    does with [branch_labels=None]. *)
Theorem C10_empty_dict_is_default lw fs plt tree a h :
  Draw.choose_format_branch_label fs (Draw.BL_dict ∅) (Draw.show_confidence a)
    = Ok (if Draw.show_confidence a
          then λ _ clade, Draw.confidence_label fs clade
          else λ _ _, None) ∧
  Draw.choose_format_branch_label fs (Draw.BL_dict ∅) (Draw.show_confidence a)
    = Draw.choose_format_branch_label fs Draw.BL_None (Draw.show_confidence a) ∧
  draw lw fs plt tree (with_branch_labels (Draw.BL_dict ∅) a) h
    = draw lw fs plt tree (with_branch_labels Draw.BL_None a) h.
Proof.
  split_and!.
  - unfold Draw.choose_format_branch_label. simpl.
    rewrite bool_decide_eq_true_2 by done. simpl.
    by destruct (Draw.show_confidence a).
  - unfold Draw.choose_format_branch_label. simpl.
    by rewrite bool_decide_eq_true_2.
  - unfold draw, Draw.draw_body, Draw.draw_figure. simpl.
    unfold Draw.choose_format_branch_label. simpl.
    by rewrite bool_decide_eq_true_2.
Qed.

(** C2 at root -> A -> (A1, A2) without branch lengths: the unit depths are
    chosen and A2 is at depth 2. *)
Lemma C2_depth_fallback_witness :
  Draw.get_x_positions no_lengths = Ok (BaseTree.depths true no_lengths) ∧
  BaseTree.depths true no_lengths !! [0%nat; 1%nat] = Some (inject_Z 2).
Proof.
  destruct (C2_depth_fallback no_lengths)
    as (m & Hm & _ & _ & _ & Hzero & Hunit & _).
  split.
  - apply Hzero. vm_compute in Hm. by injection Hm as <-.
  - by apply (Hunit [0%nat; 1%nat]
                (mkClade (Some "A2"%string) None None None [])).
Defined.

(** * Further properties *)

(** ** [to_networkx]: the graph *)

Lemma add_node_spec n s :
  ∃ s', ToNetworkx.graph_add_node n s = (Ok tt, s') ∧
        ToNetworkx.heap s' = ToNetworkx.heap s ∧
        ToNetworkx.directed (ToNetworkx.G s') = ToNetworkx.directed (ToNetworkx.G s) ∧
        ToNetworkx.nodes (ToNetworkx.G s') = {[n]} ∪ ToNetworkx.nodes (ToNetworkx.G s) ∧
        ToNetworkx.edges (ToNetworkx.G s') = ToNetworkx.edges (ToNetworkx.G s).
Proof. eexists. split_and!; reflexivity. Qed.

Ltac unfold_add_edge :=
  cbv beta iota zeta delta
    [mbind M_bind gets ToNetworkx.graph_add_edge ToNetworkx.set_G
     ToNetworkx.set_heap ToNetworkx.edge_set_color ToNetworkx.edge_set_width
     modify mret M_ret ToNetworkx.heap ToNetworkx.G clade_color clade_width
     ToNetworkx.directed ToNetworkx.nodes ToNetworkx.edges
     ToNetworkx.weight ToNetworkx.color ToNetworkx.width].

(** What [add_edge] does to the graph. *)
Lemma add_edge_graph version n1 n2 c2 s :
  ∃ s' d,
    ToNetworkx.add_edge version n1 n2 c2 s = (Ok tt, s') ∧
    ToNetworkx.directed (ToNetworkx.G s') = ToNetworkx.directed (ToNetworkx.G s) ∧
    ToNetworkx.nodes (ToNetworkx.G s')
      = {[n1; n2]} ∪ ToNetworkx.nodes (ToNetworkx.G s) ∧
    (∀ e, e ≠ (n1, n2) →
       ToNetworkx.edges (ToNetworkx.G s') !! e
       = ToNetworkx.edges (ToNetworkx.G s) !! e) ∧
    ToNetworkx.edges (ToNetworkx.G s') !! (n1, n2) = Some d ∧
    ToNetworkx.weight d = edge_weight version c2 ∧
    (if String.leb "1.0" version
     then ToNetworkx.color d = colors s' !! n2 ∧
          ToNetworkx.width d = widths s' !! n2
     else ToNetworkx.color d = None ∧ ToNetworkx.width d = None ∧
          ToNetworkx.heap s' = ToNetworkx.heap s).
Proof.
  unfold ToNetworkx.add_edge, colors, widths, edge_weight.
  destruct s as [[col wid] [dir nds eds]].
  destruct (String.leb "1.0" version) eqn:Hv.
  - unfold_add_edge.
    destruct (col !! n2) as [col2|] eqn:H2;
      destruct (col !! n1) as [col1|] eqn:H1;
      cbv beta iota;
      destruct (wid !! n2) as [w2|] eqn:W2;
      destruct (wid !! n1) as [w1|] eqn:W1;
      cbv beta iota;
      do 2 eexists; (split; [reflexivity|]);
      cbv beta iota;
      (split_and!; [done|done| |
         rewrite ?lookup_alter_eq, ?lookup_alter_ne, ?lookup_insert_eq by done;
         reflexivity|done|
         cbv beta iota; rewrite ?lookup_insert_eq; done|
         cbv beta iota; rewrite ?lookup_insert_eq; done]);
      intros e He;
      rewrite ?lookup_alter_ne, ?lookup_insert_ne by done; done.
  - destruct (String.leb "0.99" version);
      do 2 eexists; (split; [reflexivity|]); unfold_add_edge;
      (split_and!; [done|done| |by rewrite lookup_insert_eq|done..]);
      intros e He; by rewrite lookup_insert_ne.
Qed.

Lemma new_edge_sub c p j x e :
  clades c !! j = Some x → new_edge x (p ++ [j]) e → new_edge c p e.
Proof.
  intros Hj (q & i & -> & Hq). exists (j :: q), i. split.
  - by rewrite !snoc_app.
  - simpl. by rewrite Hj.
Qed.

Lemma new_edge_first c p j x :
  clades c !! j = Some x → new_edge c p (p, p ++ [j]).
Proof.
  intros Hj. exists [], j. rewrite app_nil_r. split; [done|].
  simpl. rewrite Hj. simpl. eauto.
Qed.

(** The child of [p] through which an edge of [new_edge] passes. *)
Lemma new_edge_branch (p q : path) i :
  ∃ j rest, q ++ [i] = j :: rest ∧
            (p ++ q, p ++ q ++ [i]) = (p ++ q, p ++ j :: rest).
Proof.
  destruct q as [|j q]; simpl.
  - by exists i, [].
  - by exists j, (q ++ [i]).
Qed.

Lemma build_subgraph_graph version c :
  ∀ p s,
  ∃ s',
    ToNetworkx.build_subgraph version c p s = (Ok tt, s') ∧
    ToNetworkx.directed (ToNetworkx.G s') = ToNetworkx.directed (ToNetworkx.G s) ∧
    (∀ n, n ∈ ToNetworkx.nodes (ToNetworkx.G s') ↔
          n ∈ ToNetworkx.nodes (ToNetworkx.G s) ∨
          (clades c ≠ [] ∧ n = p) ∨
          ∃ j q, n = p ++ j :: q ∧ is_Some (subclade c (j :: q))) ∧
    (∀ e, ¬ new_edge c p e →
          ToNetworkx.edges (ToNetworkx.G s') !! e
          = ToNetworkx.edges (ToNetworkx.G s) !! e) ∧
    (∀ q i child, subclade c (q ++ [i]) = Some child →
       ∃ d, ToNetworkx.edges (ToNetworkx.G s') !! (p ++ q, p ++ q ++ [i]) = Some d ∧
            ToNetworkx.weight d = edge_weight version child).
Proof.
  induction c as [nm bl cf cfs subs IH] using Clade_ind. intros p s.
  cbn [ToNetworkx.build_subgraph clades]. rewrite Forall_lookup in IH.
  set (c := mkClade nm bl cf cfs subs).
  edestruct (for_each_M_inv
    (λ i clade,
       ToNetworkx.graph_add_node (p ++ [i]);;
       ToNetworkx.add_edge version p (p ++ [i]) clade;;
       ToNetworkx.build_subgraph version clade (p ++ [i]))
    (λ k sk,
       ToNetworkx.directed (ToNetworkx.G sk) = ToNetworkx.directed (ToNetworkx.G s) ∧
       (∀ n, n ∈ ToNetworkx.nodes (ToNetworkx.G sk) ↔
             n ∈ ToNetworkx.nodes (ToNetworkx.G s) ∨
             ((0 < k)%nat ∧ n = p) ∨
             ∃ j q, (j < k)%nat ∧ n = p ++ j :: q ∧ is_Some (subclade c (j :: q))) ∧
       (∀ e, ¬ new_edge c p e →
             ToNetworkx.edges (ToNetworkx.G sk) !! e
             = ToNetworkx.edges (ToNetworkx.G s) !! e) ∧
       (∀ q i child j rest, subclade c (q ++ [i]) = Some child →
          q ++ [i] = j :: rest → (j < k)%nat →
          ∃ d, ToNetworkx.edges (ToNetworkx.G sk) !! (p ++ q, p ++ q ++ [i]) = Some d ∧
               ToNetworkx.weight d = edge_weight version child))
    subs 0%nat s) as (s' & Hrun & Hdir & Hnodes & Hframe & Hvals).
  { split_and!; [done| |done|intros; lia].
    intros n. split; [by left|]. intros [?|[[? _]|(j & _ & ? & _)]]; [done|lia..]. }
  { intros j x sk Hx (Hdir & Hnodes & Hframe & Hvals). cbv beta.
    rewrite Nat.add_0_l.
    destruct (add_node_spec (p ++ [j]) sk) as (s1 & Hn & _ & Hd1 & Hn1 & He1).
    destruct (add_edge_graph version p (p ++ [j]) x s1)
      as (s2 & d & Ha & Hd2 & Hn2 & Hf2 & He2 & Hw2 & _).
    destruct (IH j x Hx (p ++ [j]) s2) as (s3 & Hb & Hd3 & Hn3 & Hf3 & Hv3).
    exists s3.
    rewrite (bind_Ok _ _ _ _ _ Hn), (bind_Ok _ _ _ _ _ Ha), Hb.
    split; [done|]. split_and!.
    - congruence.
    - intros n. rewrite Hn3, Hn2, Hn1, !elem_of_union, !elem_of_singleton, Hnodes.
      split.
      + intros [[[->| ->]|[->|[?|[[? ->]|(j' & q & ? & -> & ?)]]]]
               |[[_ ->]|(j' & q & -> & Hq)]].
        * right; left. split; [lia|done].
        * right; right. exists j, []. split_and!; [lia|done|].
          simpl. rewrite Hx. simpl. eauto.
        * right; right. exists j, []. split_and!; [lia|done|].
          simpl. rewrite Hx. simpl. eauto.
        * by left.
        * right; left. split; [lia|done].
        * right; right. exists j', q. split_and!; [lia|done..].
        * right; right. exists j, []. split_and!; [lia|done|].
          simpl. rewrite Hx. simpl. eauto.
        * right; right. exists j, (j' :: q). rewrite snoc_app.
          split_and!; [lia|done|]. simpl. by rewrite Hx.
      + intros [?|[[_ ->]|(j' & q & Hlt & -> & Hq)]].
        * left. right. right. by left.
        * left. left. by left.
        * destruct (decide (j' = j)) as [->|Hne].
          -- simpl in Hq. rewrite Hx in Hq. simpl in Hq.
             destruct q as [|i q].
             ++ left. left. by right.
             ++ right. right. exists i, q. by rewrite snoc_app.
          -- left. right. right. right. right.
             exists j', q. split_and!; [lia|done..].
    - intros e He. rewrite Hf3, Hf2, He1; [by apply Hframe| |].
      + intros ->. apply He. by eapply new_edge_first.
      + intros Hnew. apply He. by eapply new_edge_sub.
    - intros q i child j' rest Hq Hhead Hlt.
      destruct (decide (j' = j)) as [->|Hne].
      + destruct q as [|j0 q]; simpl in Hhead; simplify_eq.
        * (* the edge to the child itself *)
          exists d. rewrite app_nil_r. simpl in Hq. rewrite Hx in Hq.
          simpl in Hq. simplify_eq. split; [|done].
          rewrite Hf3; [done|].
          intros (q' & i' & [= Hq1 _] & _).
          apply (f_equal length) in Hq1. rewrite !length_app in Hq1.
          simpl in Hq1. lia.
        * simpl in Hq. rewrite Hx in Hq. simpl in Hq.
          destruct (Hv3 q i child Hq) as (d' & Hd' & Hw').
          rewrite 2!snoc_app in Hd'. by exists d'.
      + destruct (Hvals q i child j' rest Hq Hhead) as (d' & Hd' & Hw'); [lia|].
        exists d'. split; [|done].
        assert (∀ tl, p ++ q ++ [i] ≠ p ++ j :: tl) as Hother.
        { intros tl Heq. apply app_inv_head in Heq. congruence. }
        rewrite Hf3, Hf2, He1; [done| |].
        * intros [= _ Heq]. by apply (Hother []).
        * intros (q' & i' & [= _ Heq] & _). rewrite !snoc_app in Heq.
          by apply (Hother (q' ++ [i'])). }
  exists s'. split; [done|]. split; [done|]. split_and!.
  - intros n. rewrite Hnodes. simpl. split.
    + intros [?|[[Hk ->]|(j & q & Hlt & -> & Hq)]].
      * by left.
      * right; left. split; [|done]. intros ->. simpl in Hk. lia.
      * right; right. eauto.
    + intros [?|[[Hne ->]|(j & q & -> & Hq)]].
      * by left.
      * right; left. split; [|done]. destruct subs; [done|simpl; lia].
      * right; right. exists j, q. split_and!; try done.
        simpl in Hq. destruct (subs !! j) eqn:Hj; [|by destruct Hq].
        by eapply lookup_lt_Some.
  - done.
  - intros q i child Hq.
    destruct (new_edge_branch p q i) as (j & rest & Hhead & _).
    apply (Hvals q i child j rest Hq Hhead).
    rewrite Hhead in Hq. simpl in Hq.
    destruct (subs !! j) eqn:Hj; [|done]. simpl. by eapply lookup_lt_Some.
Qed.

Lemma run_unique {St A} (m : M St A) s r1 s1 r2 s2 :
  m s = (r1, s1) → m s = (r2, s2) → s1 = s2.
Proof. congruence. Qed.

(** ** [to_networkx]: the attributes that cascade *)

Section cascade.
Context {A : Type} (attr : ToNetworkx.State → gmap path A).
Context (edge_attr : ToNetworkx.EdgeData → option A).
Context (version : string).

Hypothesis add_node_attr : ∀ n s s',
  ToNetworkx.graph_add_node n s = (Ok tt, s') → attr s' = attr s.

Hypothesis add_edge_attr : ∀ n1 n2 c2 s,
  ∃ s' d,
    ToNetworkx.add_edge version n1 n2 c2 s = (Ok tt, s') ∧
    (∀ k, k ≠ n2 → attr s' !! k = attr s !! k) ∧
    attr s' !! n2 = match attr s !! n2 with
                    | Some x => Some x
                    | None => attr s !! n1
                    end ∧
    ToNetworkx.edges (ToNetworkx.G s') !! (n1, n2) = Some d ∧
    edge_attr d = attr s' !! n2.

Lemma path_ne_snoc (p : path) j : p ≠ p ++ [j].
Proof. intros Heq. apply (prefix_snoc_self p j). by rewrite <- Heq. Qed.

Lemma not_below_self (p : path) : ¬ below p p.
Proof.
  intros (i & q & Heq). apply (f_equal length) in Heq.
  rewrite length_app in Heq. simpl in Heq. lia.
Qed.

Lemma below_snoc (p : path) j k : below (p ++ [j]) k → below p k.
Proof. intros (i & q & ->). exists j, (i :: q). by rewrite snoc_app. Qed.

Lemma below_branch (p : path) j j' rest :
  below (p ++ [j]) (p ++ j' :: rest) → j' = j.
Proof.
  intros (i & q & Heq). rewrite snoc_app in Heq.
  apply app_inv_head in Heq. congruence.
Qed.

Lemma snoc_branch (p : path) j j' rest :
  p ++ j' :: rest = p ++ [j] → j' = j.
Proof. intros Heq. apply app_inv_head in Heq. congruence. Qed.

Lemma build_subgraph_attr c :
  ∀ p s,
  ∃ s',
    ToNetworkx.build_subgraph version c p s = (Ok tt, s') ∧
    (∀ k, ¬ below p k → attr s' !! k = attr s !! k) ∧
    (∀ q i child, subclade c (q ++ [i]) = Some child →
       attr s' !! (p ++ q ++ [i])
       = match attr s !! (p ++ q ++ [i]) with
         | Some x => Some x
         | None => attr s' !! (p ++ q)
         end ∧
       ∃ d, ToNetworkx.edges (ToNetworkx.G s') !! (p ++ q, p ++ q ++ [i]) = Some d ∧
            edge_attr d = attr s' !! (p ++ q ++ [i])).
Proof.
  induction c as [nm bl cf cfs subs IH] using Clade_ind. intros p s.
  cbn [ToNetworkx.build_subgraph clades]. rewrite Forall_lookup in IH.
  set (c := mkClade nm bl cf cfs subs).
  edestruct (for_each_M_inv
    (λ i clade,
       ToNetworkx.graph_add_node (p ++ [i]);;
       ToNetworkx.add_edge version p (p ++ [i]) clade;;
       ToNetworkx.build_subgraph version clade (p ++ [i]))
    (λ k sk,
       (∀ key, ¬ below p key → attr sk !! key = attr s !! key) ∧
       (∀ j rest, (k ≤ j)%nat →
          attr sk !! (p ++ j :: rest) = attr s !! (p ++ j :: rest)) ∧
       (∀ q i child j rest, subclade c (q ++ [i]) = Some child →
          q ++ [i] = j :: rest → (j < k)%nat →
          attr sk !! (p ++ q ++ [i])
          = match attr s !! (p ++ q ++ [i]) with
            | Some x => Some x
            | None => attr sk !! (p ++ q)
            end ∧
          ∃ d, ToNetworkx.edges (ToNetworkx.G sk) !! (p ++ q, p ++ q ++ [i]) = Some d ∧
               edge_attr d = attr sk !! (p ++ q ++ [i])))
    subs 0%nat s) as (s' & Hrun & Hframe & _ & Hvals).
  { split_and!; [done|done|intros; lia]. }
  { intros j x sk Hx (Hframe & Hlater & Hvals). cbv beta.
    rewrite Nat.add_0_l in *.
    destruct (add_node_spec (p ++ [j]) sk) as (s1 & Hn & _ & _ & _ & He1).
    pose proof (add_node_attr _ _ _ Hn) as Ha1.
    destruct (add_edge_attr p (p ++ [j]) x s1)
      as (s2 & d & Ha & Hf2 & Hv2 & He2 & Hd2).
    destruct (add_edge_graph version p (p ++ [j]) x s1)
      as (s2' & d' & Ha' & _ & _ & Hg2 & _).
    assert (s2' = s2) as -> by (by eapply run_unique).
    destruct (IH j x Hx (p ++ [j]) s2) as (s3 & Hb & Hf3 & Hv3).
    destruct (build_subgraph_graph version x (p ++ [j]) s2)
      as (s3' & Hb' & _ & _ & Hg3 & _).
    assert (s3' = s3) as -> by (by eapply run_unique).
    exists s3.
    rewrite (bind_Ok _ _ _ _ _ Hn), (bind_Ok _ _ _ _ _ Ha), Hb.
    split; [done|].
    (* what this step leaves as it was *)
    assert (∀ key, ¬ below (p ++ [j]) key → key ≠ p ++ [j] →
              attr s3 !! key = attr sk !! key) as Hstep.
    { intros key H1 H2. by rewrite Hf3, Hf2, Ha1. }
    assert (∀ j' rest, j' ≠ j →
              attr s3 !! (p ++ j' :: rest) = attr sk !! (p ++ j' :: rest))
      as Hother.
    { intros j' rest Hne. apply Hstep.
      - by intros ?%below_branch.
      - by intros ?%snoc_branch. }
    assert (attr s3 !! p = attr sk !! p) as Hp.
    { apply Hstep; [|apply path_ne_snoc].
      intros Hb3%below_snoc. by apply not_below_self in Hb3. }
    split_and!.
    - intros key Hkey. rewrite Hstep; [by apply Hframe| |].
      + by intros ?%below_snoc.
      + intros ->. apply Hkey. by exists j, [].
    - intros j' rest Hle. rewrite Hother by lia. apply Hlater. lia.
    - intros q i child j' rest Hq Hhead Hlt.
      destruct (decide (j' = j)) as [->|Hne].
      + destruct q as [|j0 q]; simpl in Hhead; simplify_eq.
        * (* the child itself *)
          simpl in Hq. rewrite Hx in Hq. simpl in Hq. simplify_eq.
          rewrite app_nil_r. simpl.
          assert (attr s3 !! (p ++ [j]) = attr s2 !! (p ++ [j])) as H3.
          { apply Hf3, not_below_self. }
          split.
          -- rewrite H3, Hv2, Ha1, Hp.
             by rewrite (Hlater j []) by lia.
          -- exists d. rewrite H3. split; [|done].
             rewrite Hg3; [done|].
             intros (q' & i' & [= Hq1 _] & _).
             apply (f_equal length) in Hq1. rewrite !length_app in Hq1.
             simpl in Hq1. lia.
        * simpl in Hq. rewrite Hx in Hq. simpl in Hq.
          destruct (Hv3 q i child Hq) as (Hval & d3 & Hd3 & Hed3).
          rewrite 2!snoc_app in Hval. rewrite 2!snoc_app in Hd3.
          rewrite snoc_app in Hed3. rewrite <- !app_comm_cons.
          split.
          -- rewrite Hval. rewrite Hf2, Ha1.
             ++ by rewrite (Hlater j (q ++ [i])) by lia.
             ++ intros Heq. apply (f_equal length) in Heq.
                rewrite !length_app in Heq. simpl in Heq.
                rewrite length_app in Heq. simpl in Heq. lia.
          -- by exists d3.
      + destruct (Hvals q i child j' rest Hq Hhead) as (Hval & dk & Hdk & Hek);
          [lia|].
        assert (attr s3 !! (p ++ q ++ [i]) = attr sk !! (p ++ q ++ [i])) as H1.
        { rewrite Hhead. by apply Hother. }
        assert (attr s3 !! (p ++ q) = attr sk !! (p ++ q)) as H2.
        { destruct q as [|j0 q]; simpl in Hhead; simplify_eq.
          - by rewrite app_nil_r.
          - by apply Hother. }
        split; [by rewrite H1, H2|].
        exists dk. rewrite H1. split; [|done].
        assert (∀ tl, p ++ q ++ [i] ≠ p ++ j :: tl) as Hkey.
        { intros tl Heq. apply app_inv_head in Heq. congruence. }
        rewrite Hg3, Hg2, He1; [done| |].
        * intros [= _ Heq]. by apply (Hkey []).
        * intros (q' & i' & [= _ Heq] & _). rewrite !snoc_app in Heq.
          by apply (Hkey (q' ++ [i'])). }
  exists s'. split; [done|]. split; [done|].
  intros q i child Hq.
  destruct (new_edge_branch p q i) as (j & rest & Hhead & _).
  apply (Hvals q i child j rest Hq Hhead).
  rewrite Hhead in Hq. simpl in Hq.
  destruct (subs !! j) eqn:Hj; [|done]. simpl. by eapply lookup_lt_Some.
Qed.

(** [build_subgraph] leaves the attribute of every key that is not a clade
    below [p]. *)
Lemma build_subgraph_attr_frame c :
  ∀ p s s',
    ToNetworkx.build_subgraph version c p s = (Ok tt, s') →
    ∀ k, (∀ j q, k = p ++ j :: q → subclade c (j :: q) = None) →
         attr s' !! k = attr s !! k.
Proof.
  induction c as [nm bl cf cfs subs IH] using Clade_ind. intros p s s' Hrun.
  revert Hrun.
  cbn [ToNetworkx.build_subgraph clades]. rewrite Forall_lookup in IH.
  set (c := mkClade nm bl cf cfs subs).
  edestruct (for_each_M_inv
    (λ i clade,
       ToNetworkx.graph_add_node (p ++ [i]);;
       ToNetworkx.add_edge version p (p ++ [i]) clade;;
       ToNetworkx.build_subgraph version clade (p ++ [i]))
    (λ (_ : nat) sk,
       ∀ k, (∀ j q, k = p ++ j :: q → subclade c (j :: q) = None) →
            attr sk !! k = attr s !! k)
    subs 0%nat s) as (s'' & Hrun & Hframe).
  { done. }
  { intros j x sk Hx Hframe. cbv beta. rewrite Nat.add_0_l in *.
    destruct (add_node_spec (p ++ [j]) sk) as (s1 & Hn & _).
    pose proof (add_node_attr _ _ _ Hn) as Ha1.
    destruct (add_edge_attr p (p ++ [j]) x s1)
      as (s2 & d & Ha & Hf2 & _).
    destruct (build_subgraph_graph version x (p ++ [j]) s2)
      as (s3 & Hb & _).
    exists s3.
    rewrite (bind_Ok _ _ _ _ _ Hn), (bind_Ok _ _ _ _ _ Ha), Hb.
    split; [done|]. intros k Hk.
    rewrite (IH j x Hx (p ++ [j]) s2 s3 Hb), Hf2, Ha1; [by apply Hframe| |].
    - intros ->. specialize (Hk j [] eq_refl). simpl in Hk.
      rewrite Hx in Hk. done.
    - intros j' q' ->. specialize (Hk j (j' :: q')).
      rewrite snoc_app in Hk. specialize (Hk eq_refl).
      simpl in Hk. rewrite Hx in Hk. done. }
  rewrite Hrun. intros [= <-]. done.
Qed.

End cascade.

(** What [add_edge] of networkx 1.0 and later does to the colors and the
    widths of the clades. *)
Lemma add_edge_color_attr version n1 n2 c2 s :
  String.leb "1.0" version = true →
  ∃ s' d,
    ToNetworkx.add_edge version n1 n2 c2 s = (Ok tt, s') ∧
    (∀ k, k ≠ n2 → colors s' !! k = colors s !! k) ∧
    colors s' !! n2 = match colors s !! n2 with
                      | Some x => Some x
                      | None => colors s !! n1
                      end ∧
    ToNetworkx.edges (ToNetworkx.G s') !! (n1, n2) = Some d ∧
    ToNetworkx.color d = colors s' !! n2.
Proof.
  intros Hv.
  destruct (add_edge_graph version n1 n2 c2 s)
    as (s' & d & Hrun & _ & _ & _ & Hd & _ & Hattr).
  rewrite Hv in Hattr. destruct Hattr as [Hcol _].
  exists s', d. split; [done|]. split_and!; [| |done..].
  - revert Hrun. unfold ToNetworkx.add_edge, colors. rewrite Hv.
    destruct s as [[col wid] [dir nds eds]]. unfold_add_edge.
    destruct (col !! n2) as [col2|] eqn:H2;
      destruct (col !! n1) as [col1|] eqn:H1;
      cbv beta iota;
      destruct (wid !! n2) as [w2|] eqn:W2;
      destruct (wid !! n1) as [w1|] eqn:W1;
      cbv beta iota; intros [= <-]; intros k Hk; cbv beta iota;
      by rewrite ?lookup_insert_ne.
  - revert Hrun. unfold ToNetworkx.add_edge, colors. rewrite Hv.
    destruct s as [[col wid] [dir nds eds]]. unfold_add_edge.
    destruct (col !! n2) as [col2|] eqn:H2;
      destruct (col !! n1) as [col1|] eqn:H1;
      cbv beta iota;
      destruct (wid !! n2) as [w2|] eqn:W2;
      destruct (wid !! n1) as [w1|] eqn:W1;
      cbv beta iota; intros [= <-]; cbv beta iota;
      by rewrite ?lookup_insert_eq, ?H2.
Qed.

Lemma add_edge_width_attr version n1 n2 c2 s :
  String.leb "1.0" version = true →
  ∃ s' d,
    ToNetworkx.add_edge version n1 n2 c2 s = (Ok tt, s') ∧
    (∀ k, k ≠ n2 → widths s' !! k = widths s !! k) ∧
    widths s' !! n2 = match widths s !! n2 with
                      | Some x => Some x
                      | None => widths s !! n1
                      end ∧
    ToNetworkx.edges (ToNetworkx.G s') !! (n1, n2) = Some d ∧
    ToNetworkx.width d = widths s' !! n2.
Proof.
  intros Hv.
  destruct (add_edge_graph version n1 n2 c2 s)
    as (s' & d & Hrun & _ & _ & _ & Hd & _ & Hattr).
  rewrite Hv in Hattr. destruct Hattr as [_ Hwid].
  exists s', d. split; [done|]. split_and!; [| |done..].
  - revert Hrun. unfold ToNetworkx.add_edge, widths. rewrite Hv.
    destruct s as [[col wid] [dir nds eds]]. unfold_add_edge.
    destruct (col !! n2) as [col2|] eqn:H2;
      destruct (col !! n1) as [col1|] eqn:H1;
      cbv beta iota;
      destruct (wid !! n2) as [w2|] eqn:W2;
      destruct (wid !! n1) as [w1|] eqn:W1;
      cbv beta iota; intros [= <-]; intros k Hk; cbv beta iota;
      by rewrite ?lookup_insert_ne.
  - revert Hrun. unfold ToNetworkx.add_edge, widths. rewrite Hv.
    destruct s as [[col wid] [dir nds eds]]. unfold_add_edge.
    destruct (col !! n2) as [col2|] eqn:H2;
      destruct (col !! n1) as [col1|] eqn:H1;
      cbv beta iota;
      destruct (wid !! n2) as [w2|] eqn:W2;
      destruct (wid !! n1) as [w1|] eqn:W1;
      cbv beta iota; intros [= <-]; cbv beta iota;
      by rewrite ?lookup_insert_eq, ?W2.
Qed.

(** The run behind [to_networkx]. *)
Lemma to_networkx_run version tree h :
  ∃ s1 s',
    ToNetworkx.graph_add_node [] (ToNetworkx.mkState h
       (ToNetworkx.mkGraph (rooted tree) ∅ ∅)) = (Ok tt, s1) ∧
    ToNetworkx.build_subgraph version (root tree) [] s1 = (Ok tt, s') ∧
    to_networkx version tree h = (Ok (ToNetworkx.G s'), ToNetworkx.heap s').
Proof.
  destruct (add_node_spec [] (ToNetworkx.mkState h
       (ToNetworkx.mkGraph (rooted tree) ∅ ∅))) as (s1 & Hn & _).
  destruct (build_subgraph_graph version (root tree) [] s1) as (s' & Hb & _).
  exists s1, s'. split; [done|]. split; [done|].
  unfold to_networkx. rewrite (bind_Ok _ _ _ _ _ Hn), Hb. done.
Qed.

Lemma subclade_app c (p q : path) :
  subclade c (p ++ q) = subclade c p ≫= λ c', subclade c' q.
Proof.
  revert c. induction p as [|i p IH]; intros c; [done|].
  simpl. destruct (clades c !! i) as [sub|]; [apply IH|done].
Qed.

Lemma subclade_parent c (p : path) i :
  is_Some (subclade c (p ++ [i])) → is_Some (subclade c p).
Proof.
  rewrite subclade_app. destruct (subclade c p); [eauto|].
  by intros [? [=]].
Qed.

(** The clades of [c], the root apart, are the paths of the form
    [j :: q]. *)
Lemma nonroot_path (n : path) c :
  is_Some (subclade c n) ↔
  n = [] ∨ ∃ j q, n = j :: q ∧ is_Some (subclade c (j :: q)).
Proof.
  split.
  - intros Hn. destruct n as [|j q]; [by left|right; eauto].
  - intros [->|(j & q & -> & Hq)]; [simpl; eauto|done].
Qed.

(** A pair of paths is an edge from a clade to one of its children, or it
    is not. *)
Lemma new_edge_dec c (e : path * path) :
  new_edge c [] e ∨ ¬ new_edge c [] e.
Proof.
  destruct e as [k1 k2].
  destruct (decide (k2 = [])) as [->|Hne].
  { right. intros (q & i & [= _ Heq] & _). simpl in Heq.
    by destruct q. }
  destruct (exists_last Hne) as (q & i & ->).
  destruct (decide (k1 = q)) as [->|Hk].
  - destruct (subclade c (q ++ [i])) as [child|] eqn:Hq.
    + left. exists q, i. split; [done|]. rewrite Hq. eauto.
    + right. intros (q' & i' & [= -> Heq] & Hsome). simpl in Heq.
      apply app_inj_tail in Heq as [_ <-]. rewrite Hq in Hsome.
      by destruct Hsome.
  - right. intros (q' & i' & [= -> Heq] & _). simpl in Heq.
    apply app_inj_tail in Heq as [<- _]. done.
Qed.

(** The graph that [to_networkx] builds: what [build_subgraph] has done
    when it returns. *)
Lemma to_networkx_graph version tree h :
  ∃ g h',
    to_networkx version tree h = (Ok g, h') ∧
    ToNetworkx.directed g = rooted tree ∧
    (∀ n, n ∈ ToNetworkx.nodes g ↔ is_Some (subclade (root tree) n)) ∧
    (∀ e, ¬ new_edge (root tree) [] e → ToNetworkx.edges g !! e = None) ∧
    (∀ p i child, subclade (root tree) (p ++ [i]) = Some child →
       ∃ d, ToNetworkx.edges g !! (p, p ++ [i]) = Some d ∧
            ToNetworkx.weight d = edge_weight version child).
Proof.
  destruct (to_networkx_run version tree h) as (s1 & s' & Hn & Hb & ->).
  destruct (add_node_spec [] (ToNetworkx.mkState h
       (ToNetworkx.mkGraph (rooted tree) ∅ ∅)))
    as (s1' & Hn' & _ & Hd1 & Hn1 & He1).
  assert (s1' = s1) as -> by (by eapply run_unique).
  destruct (build_subgraph_graph version (root tree) [] s1)
    as (s'' & Hb' & Hd & Hnodes & Hframe & Hvals).
  assert (s'' = s') as -> by (by eapply run_unique).
  exists (ToNetworkx.G s'), (ToNetworkx.heap s'). split; [done|].
  split_and!.
  - by rewrite Hd, Hd1.
  - intros n. rewrite Hnodes, Hn1, nonroot_path. simpl.
    rewrite elem_of_union, elem_of_singleton. split.
    + intros [[->|Hin]|[[_ ->]|?]]; [by left|set_solver|by left|by right].
    + intros [->|?]; [left; by left|right; by right].
  - intros e He. rewrite Hframe, He1; done.
  - intros p i child Hq. apply (Hvals p i child Hq).
Qed.

(** Before networkx 1.0, [build_subgraph] reads no color and no width. *)
Lemma build_subgraph_plain version c :
  String.leb "1.0" version = false →
  ∀ p s s',
    ToNetworkx.build_subgraph version c p s = (Ok tt, s') →
    ToNetworkx.heap s' = ToNetworkx.heap s ∧
    ∀ e d, ToNetworkx.edges (ToNetworkx.G s') !! e = Some d →
           ToNetworkx.edges (ToNetworkx.G s) !! e = Some d ∨
           (ToNetworkx.color d = None ∧ ToNetworkx.width d = None).
Proof.
  intros Hv.
  induction c as [nm bl cf cfs subs IH] using Clade_ind. intros p s s' Hrun.
  revert Hrun.
  cbn [ToNetworkx.build_subgraph clades]. rewrite Forall_lookup in IH.
  edestruct (for_each_M_inv
    (λ i clade,
       ToNetworkx.graph_add_node (p ++ [i]);;
       ToNetworkx.add_edge version p (p ++ [i]) clade;;
       ToNetworkx.build_subgraph version clade (p ++ [i]))
    (λ (_ : nat) sk,
       ToNetworkx.heap sk = ToNetworkx.heap s ∧
       ∀ e d, ToNetworkx.edges (ToNetworkx.G sk) !! e = Some d →
              ToNetworkx.edges (ToNetworkx.G s) !! e = Some d ∨
              (ToNetworkx.color d = None ∧ ToNetworkx.width d = None))
    subs 0%nat s) as (s'' & Hrun & Hinv).
  { split; [done|]. intros e d ?. by left. }
  { intros j x sk Hx [Hheap Hedges]. cbv beta. rewrite Nat.add_0_l in *.
    destruct (add_node_spec (p ++ [j]) sk) as (s1 & Hn & Hh1 & _ & _ & He1).
    destruct (add_edge_graph version p (p ++ [j]) x s1)
      as (s2 & d2 & Ha & _ & _ & Hf2 & Hd2 & _ & Hattr).
    rewrite Hv in Hattr. destruct Hattr as (Hc2 & Hw2 & Hh2).
    destruct (build_subgraph_graph version x (p ++ [j]) s2)
      as (s3 & Hb & _).
    destruct (IH j x Hx (p ++ [j]) s2 s3 Hb) as [Hh3 He3].
    exists s3.
    rewrite (bind_Ok _ _ _ _ _ Hn), (bind_Ok _ _ _ _ _ Ha), Hb.
    split; [done|]. split; [congruence|].
    intros e d Hd. destruct (He3 e d Hd) as [Hd'|?]; [|by right].
    destruct (decide (e = (p, p ++ [j]))) as [->|Hne].
    - right. rewrite Hd2 in Hd'. by simplify_eq.
    - rewrite Hf2, He1 in Hd' by done. by apply Hedges. }
  rewrite Hrun. by intros [= <-].
Qed.

(** X1: the graph of [to_networkx] is directed exactly when the tree is
    rooted; its nodes are the clades of the tree, and its edges lead from
    each clade to each of its children, and nowhere else. *)
Theorem to_networkx_nodes_and_edges version tree h :
  ∃ g,
    (to_networkx version tree h).1 = Ok g ∧
    ToNetworkx.directed g = rooted tree ∧
    (∀ n, n ∈ ToNetworkx.nodes g ↔ is_Some (subclade (root tree) n)) ∧
    (∀ n1 n2, is_Some (ToNetworkx.edges g !! (n1, n2)) ↔
              ∃ i, n2 = n1 ++ [i] ∧ is_Some (subclade (root tree) n2)).
Proof.
  destruct (to_networkx_graph version tree h)
    as (g & h' & -> & Hdir & Hnodes & Hframe & Hvals).
  exists g. split; [done|]. split; [done|]. split; [done|].
  intros n1 n2. split.
  - intros Hsome.
    destruct (new_edge_dec (root tree) (n1, n2))
      as [(q & i & [= -> ->] & Hq)|Hno].
    + by exists i.
    + rewrite (Hframe _ Hno) in Hsome. by destruct Hsome.
  - intros (i & -> & [child Hq]).
    destruct (Hvals n1 i child Hq) as (d & -> & _). eauto.
Qed.

(** X2: with networkx 0.99 or later the edge to a clade weighs the branch
    length of the clade, and 1 when the clade has no branch length or the
    branch length 0; before 0.99 an edge has no weight. *)
Theorem to_networkx_weights version tree h :
  ∃ g,
    (to_networkx version tree h).1 = Ok g ∧
    ∀ p i child,
      subclade (root tree) (p ++ [i]) = Some child →
      ∃ d, ToNetworkx.edges g !! (p, p ++ [i]) = Some d ∧
           ToNetworkx.weight d =
             if String.leb "1.0" version || String.leb "0.99" version
             then Some (match branch_length child with
                        | Some b => if Qeq_bool b 0 then 1%Q else b
                        | None => 1%Q
                        end)
             else None.
Proof.
  destruct (to_networkx_graph version tree h)
    as (g & h' & -> & _ & _ & _ & Hvals).
  exists g. split; [done|]. intros p i child Hq.
  destruct (Hvals p i child Hq) as (d & Hd & Hw). by exists d.
Qed.

(** The two attributes at the end of [to_networkx], with networkx 1.0 or
    later. *)
Lemma to_networkx_attrs version tree h :
  String.leb "1.0" version = true →
  ∃ g h',
    to_networkx version tree h = (Ok g, h') ∧
    (∀ k, subclade (root tree) k = None ∨ k = [] →
          clade_color h' !! k = clade_color h !! k ∧
          clade_width h' !! k = clade_width h !! k) ∧
    ∀ p i child,
      subclade (root tree) (p ++ [i]) = Some child →
      clade_color h' !! (p ++ [i])
        = match clade_color h !! (p ++ [i]) with
          | Some x => Some x
          | None => clade_color h' !! p
          end ∧
      clade_width h' !! (p ++ [i])
        = match clade_width h !! (p ++ [i]) with
          | Some x => Some x
          | None => clade_width h' !! p
          end ∧
      ∃ d, ToNetworkx.edges g !! (p, p ++ [i]) = Some d ∧
           ToNetworkx.color d = clade_color h' !! (p ++ [i]) ∧
           ToNetworkx.width d = clade_width h' !! (p ++ [i]).
Proof.
  intros Hv.
  destruct (to_networkx_run version tree h) as (s1 & s' & Hn & Hb & ->).
  destruct (add_node_spec [] (ToNetworkx.mkState h
       (ToNetworkx.mkGraph (rooted tree) ∅ ∅)))
    as (s1' & Hn' & Hh1 & _).
  assert (s1' = s1) as -> by (by eapply run_unique). simpl in Hh1.
  assert (∀ n s s', ToNetworkx.graph_add_node n s = (Ok tt, s') →
                    colors s' = colors s) as Hnc.
  { intros n s s2 Hrun. destruct (add_node_spec n s) as (s2' & Hrun' & Hh & _).
    assert (s2' = s2) as -> by (by eapply run_unique).
    unfold colors. by rewrite Hh. }
  assert (∀ n s s', ToNetworkx.graph_add_node n s = (Ok tt, s') →
                    widths s' = widths s) as Hnw.
  { intros n s s2 Hrun. destruct (add_node_spec n s) as (s2' & Hrun' & Hh & _).
    assert (s2' = s2) as -> by (by eapply run_unique).
    unfold widths. by rewrite Hh. }
  pose proof (λ n1 n2 c2 s, add_edge_color_attr version n1 n2 c2 s Hv) as Hec.
  pose proof (λ n1 n2 c2 s, add_edge_width_attr version n1 n2 c2 s Hv) as Hew.
  destruct (build_subgraph_attr colors ToNetworkx.color version Hnc Hec
              (root tree) [] s1) as (s2 & Hb2 & _ & Hcol).
  assert (s2 = s') as -> by (by eapply run_unique).
  destruct (build_subgraph_attr widths ToNetworkx.width version Hnw Hew
              (root tree) [] s1) as (s2 & Hb2' & _ & Hwid).
  assert (s2 = s') as -> by (by eapply run_unique).
  pose proof (build_subgraph_attr_frame colors ToNetworkx.color version Hnc Hec
                (root tree) [] s1 s' Hb) as Hfc.
  pose proof (build_subgraph_attr_frame widths ToNetworkx.width version Hnw Hew
                (root tree) [] s1 s' Hb) as Hfw.
  unfold colors, widths in *. rewrite Hh1 in *. simpl in *.
  exists (ToNetworkx.G s'), (ToNetworkx.heap s'). split; [done|]. split.
  - intros k Hk. split.
    + apply Hfc. intros j q ->. by destruct Hk.
    + apply Hfw. intros j q ->. by destruct Hk.
  - intros p i child Hq.
    destruct (Hcol p i child Hq) as (Hc & dc & Hdc & Hcd).
    destruct (Hwid p i child Hq) as (Hw & dw & Hdw & Hwd).
    split; [done|]. split; [done|].
    exists dc. split; [done|]. split; [done|]. congruence.
Qed.

(** X3: with networkx 1.0 or later, [to_networkx] hands the colors and the
    widths down the whole tree.  The root keeps its attributes; every other
    clade keeps a color of its own and takes the final color of its parent
    when it has none, and its width likewise; the edge to a clade carries
    the clade's final color and width. *)
Theorem to_networkx_hands_down_attributes version tree h :
  String.leb "1.0" version = true →
  ∃ g h',
    to_networkx version tree h = (Ok g, h') ∧
    clade_color h' !! [] = clade_color h !! [] ∧
    clade_width h' !! [] = clade_width h !! [] ∧
    ∀ p i child,
      subclade (root tree) (p ++ [i]) = Some child →
      clade_color h' !! (p ++ [i])
        = match clade_color h !! (p ++ [i]) with
          | Some x => Some x
          | None => clade_color h' !! p
          end ∧
      clade_width h' !! (p ++ [i])
        = match clade_width h !! (p ++ [i]) with
          | Some x => Some x
          | None => clade_width h' !! p
          end ∧
      ∃ d, ToNetworkx.edges g !! (p, p ++ [i]) = Some d ∧
           ToNetworkx.color d = clade_color h' !! (p ++ [i]) ∧
           ToNetworkx.width d = clade_width h' !! (p ++ [i]).
Proof.
  intros Hv.
  destruct (to_networkx_attrs version tree h Hv) as (g & h' & Hrun & Hf & Hvals).
  exists g, h'. split; [done|].
  destruct (Hf []) as [? ?]; [by right|]. done.
Qed.

(** X3 at a red root with one child, under networkx 2.8. *)
Lemma to_networkx_hands_down_attributes_witness :
  ∃ g h',
    to_networkx "2.8" parent_child red_root = (Ok g, h') ∧
    clade_color h' !! [] = clade_color red_root !! [] ∧
    clade_width h' !! [] = clade_width red_root !! [] ∧
    ∀ p i child,
      subclade (root parent_child) (p ++ [i]) = Some child →
      clade_color h' !! (p ++ [i])
        = match clade_color red_root !! (p ++ [i]) with
          | Some x => Some x
          | None => clade_color h' !! p
          end ∧
      clade_width h' !! (p ++ [i])
        = match clade_width red_root !! (p ++ [i]) with
          | Some x => Some x
          | None => clade_width h' !! p
          end ∧
      ∃ d, ToNetworkx.edges g !! (p, p ++ [i]) = Some d ∧
           ToNetworkx.color d = clade_color h' !! (p ++ [i]) ∧
           ToNetworkx.width d = clade_width h' !! (p ++ [i]).
Proof.
  apply (to_networkx_hands_down_attributes "2.8" parent_child red_root).
  reflexivity.
Defined.

Lemma to_networkx_plain version tree h :
  String.leb "1.0" version = false →
  ∃ g, to_networkx version tree h = (Ok g, h).
Proof.
  intros Hv.
  destruct (to_networkx_run version tree h) as (s1 & s' & Hn & Hb & ->).
  destruct (add_node_spec [] (ToNetworkx.mkState h
       (ToNetworkx.mkGraph (rooted tree) ∅ ∅)))
    as (s1' & Hn' & Hh1 & _).
  assert (s1' = s1) as -> by (by eapply run_unique). simpl in Hh1.
  destruct (build_subgraph_plain version (root tree) Hv [] s1 s' Hb)
    as [Hheap _].
  exists (ToNetworkx.G s'). by rewrite Hheap, Hh1.
Qed.

(** X4: before networkx 1.0, [to_networkx] assigns no attribute of any
    clade, and no edge of its graph has a color or a width. *)
Theorem to_networkx_old_versions_keep_tree version tree h :
  String.leb "1.0" version = false →
  ∃ g,
    to_networkx version tree h = (Ok g, h) ∧
    ∀ e d, ToNetworkx.edges g !! e = Some d →
           ToNetworkx.color d = None ∧ ToNetworkx.width d = None.
Proof.
  intros Hv.
  destruct (to_networkx_run version tree h) as (s1 & s' & Hn & Hb & ->).
  destruct (add_node_spec [] (ToNetworkx.mkState h
       (ToNetworkx.mkGraph (rooted tree) ∅ ∅)))
    as (s1' & Hn' & Hh1 & _ & _ & He1).
  assert (s1' = s1) as -> by (by eapply run_unique). simpl in Hh1, He1.
  destruct (build_subgraph_plain version (root tree) Hv [] s1 s' Hb)
    as [Hheap Hedges].
  exists (ToNetworkx.G s'). split; [by rewrite Hheap, Hh1|].
  intros e d Hd. destruct (Hedges e d Hd) as [Hd'|?]; [|done].
  rewrite He1 in Hd'. by rewrite lookup_empty in Hd'.
Qed.

(** X4 at a red root with one child, under networkx 0.99. *)
Lemma to_networkx_old_versions_keep_tree_witness :
  ∃ g,
    to_networkx "0.99" parent_child red_root = (Ok g, red_root) ∧
    ∀ e d, ToNetworkx.edges g !! e = Some d →
           ToNetworkx.color d = None ∧ ToNetworkx.width d = None.
Proof.
  apply (to_networkx_old_versions_keep_tree "0.99" parent_child red_root).
  reflexivity.
Defined.

(** Handing down twice changes nothing more. *)
Lemma cascade_fixed {A} (c : Clade) (a0 a1 a2 : gmap path A) :
  (∀ p i child, subclade c (p ++ [i]) = Some child →
     a1 !! (p ++ [i]) = match a0 !! (p ++ [i]) with
                        | Some x => Some x
                        | None => a1 !! p
                        end) →
  a2 !! [] = a1 !! [] →
  (∀ p i child, subclade c (p ++ [i]) = Some child →
     a2 !! (p ++ [i]) = match a1 !! (p ++ [i]) with
                        | Some x => Some x
                        | None => a2 !! p
                        end) →
  ∀ n, is_Some (subclade c n) → a2 !! n = a1 !! n.
Proof.
  intros H1 Hroot H2 n.
  induction n as [|i p IH] using rev_ind; intros Hn; [done|].
  pose proof (subclade_parent _ _ _ Hn) as Hp. destruct Hn as [child Hn].
  rewrite (H2 p i child Hn), (IH Hp).
  pose proof (H1 p i child Hn) as Hone.
  destruct (a1 !! (p ++ [i])) as [x|] eqn:Hx; [done|].
  destruct (a0 !! (p ++ [i])); [done|]. done.
Qed.

Lemma Heap_eq (h1 h2 : Heap) :
  (∀ k, clade_color h1 !! k = clade_color h2 !! k) →
  (∀ k, clade_width h1 !! k = clade_width h2 !! k) →
  h1 = h2.
Proof.
  destruct h1, h2. simpl. intros Hc Hw. f_equal; by apply map_eq.
Qed.

(** X5: a second [to_networkx] on the same tree returns the same graph and
    changes no attribute: what the first call has handed down stays. *)
Theorem to_networkx_twice version tree h :
  ∃ g h',
    to_networkx version tree h = (Ok g, h') ∧
    to_networkx version tree h' = (Ok g, h').
Proof.
  destruct (String.leb "1.0" version) eqn:Hv.
  - destruct (to_networkx_attrs version tree h Hv)
      as (g & h' & Hrun & Hf & Hvals).
    destruct (to_networkx_attrs version tree h' Hv)
      as (g2 & h2 & Hrun2 & Hf2 & Hvals2).
    exists g, h'. split; [done|]. rewrite Hrun2.
    assert (∀ k, clade_color h2 !! k = clade_color h' !! k ∧
                 clade_width h2 !! k = clade_width h' !! k) as Hsame.
    { intros k. destruct (subclade (root tree) k) as [ck|] eqn:Hk.
      - split.
        + apply (cascade_fixed (root tree) (clade_color h)); [| |
            |by rewrite Hk].
          * intros p i child Hq. by destruct (Hvals p i child Hq) as (? & _).
          * apply Hf2. by right.
          * intros p i child Hq. by destruct (Hvals2 p i child Hq) as (? & _).
        + apply (cascade_fixed (root tree) (clade_width h)); [| |
            |by rewrite Hk].
          * intros p i child Hq.
            by destruct (Hvals p i child Hq) as (_ & ? & _).
          * apply Hf2. by right.
          * intros p i child Hq.
            by destruct (Hvals2 p i child Hq) as (_ & ? & _).
      - apply Hf2. by left. }
    assert (h2 = h') as ->.
    { apply Heap_eq; intros k; by destruct (Hsame k). }
    f_equal. f_equal.
    destruct (to_networkx_graph version tree h)
      as (g' & h'' & Hrun' & Hdir & Hnodes & Hframe & Hw).
    rewrite Hrun in Hrun'. injection Hrun' as <- <-.
    destruct (to_networkx_graph version tree h')
      as (g' & h'' & Hrun' & Hdir2 & Hnodes2 & Hframe2 & Hw2).
    rewrite Hrun2 in Hrun'. injection Hrun' as <- _.
    destruct g as [dir nds eds], g2 as [dir2 nds2 eds2]. simpl in *.
    f_equal.
    + congruence.
    + apply set_eq. intros n. by rewrite Hnodes, Hnodes2.
    + apply map_eq. intros e.
      destruct (new_edge_dec (root tree) e)
        as [(q & i & -> & [child Hq])|Hno].
      * simpl.
        destruct (Hvals q i child Hq) as (_ & _ & d & Hd & Hdc & Hdw).
        destruct (Hvals2 q i child Hq) as (_ & _ & d2 & Hd2 & Hdc2 & Hdw2).
        destruct (Hw q i child Hq) as (d' & Hd' & Hdw').
        destruct (Hw2 q i child Hq) as (d2' & Hd2' & Hdw2').
        simpl in *. simplify_eq. rewrite Hd, Hd2. f_equal.
        destruct d, d2. simpl in *. congruence.
      * by rewrite Hframe, Hframe2.
  - destruct (to_networkx_plain version tree h Hv) as (g & Hrun).
    by exists g, h.
Qed.

(** ** [draw_ascii]: the shape of the character matrix *)

Lemma Res_bind_Ok_inv {A B} (m : Res A) (f : A → Res B) b :
  m ≫= f = Ok b → ∃ a, m = Ok a ∧ f a = Ok b.
Proof. destruct m as [a|e]; [eauto|done]. Qed.

Lemma for_each_Ok_inv {A T} (body : nat → A → T → Res T) (P : T → Prop) l :
  ∀ i s s',
  for_each body i l s = Ok s' → P s →
  (∀ j x s s', l !! j = Some x → P s → body (i + j)%nat x s = Ok s' → P s') →
  P s'.
Proof.
  induction l as [|x l IH]; intros i s s' Hrun Hs Hstep; simpl in Hrun.
  - by simplify_eq.
  - apply Res_bind_Ok_inv in Hrun as (s1 & Hb & Hrun).
    apply (IH (S i) s1 s' Hrun).
    + apply (Hstep 0%nat x s s1 eq_refl Hs). by rewrite Nat.add_0_r.
    + intros j y t t' Hj Ht Hbody. apply (Hstep (S j) y t t' Hj Ht).
      by rewrite <- Nat.add_succ_comm.
Qed.

Lemma py_getitem_Ok {A} (l : list A) i r :
  py_getitem l i = Ok r → l !! r.1 = Some r.2.
Proof.
  unfold py_getitem. destruct (_ <? 0); [done|].
  destruct (l !! _) eqn:Hl; [|done]. intros [= <-]. done.
Qed.

Lemma py_setitem_Ok {A} (l : list A) i x l' :
  py_setitem l i x = Ok l' → ∃ j, (j < length l)%nat ∧ l' = <[j := x]> l.
Proof.
  unfold py_setitem, len.
  set (j := if i <? 0 then _ else _).
  destruct (Z.ltb_spec j 0); [done|].
  destruct (Z.leb_spec (Z.of_nat (length l)) j); [done|]. simpl.
  intros [= <-]. exists (Z.to_nat j). split; [lia|done].
Qed.

Lemma set_cell_shaped h w m row col ch m' :
  DrawAscii.set_cell m row col ch = Ok m' →
  art_char ch → shaped h w m → shaped h w m' ∧ (0 < w)%nat.
Proof.
  unfold DrawAscii.set_cell. intros Hrun Hch [Hlen Hrows].
  apply Res_bind_Ok_inv in Hrun as ([i r] & Hget & Hrun).
  apply Res_bind_Ok_inv in Hrun as (cells & Hset & Hrun).
  simpl in *. simplify_eq.
  apply py_getitem_Ok in Hget. simpl in Hget.
  apply py_setitem_Ok in Hset as (j & Hj & ->).
  rewrite Forall_lookup in Hrows. destruct (Hrows i r Hget) as [Hw Hart].
  split; [|lia]. split.
  - by rewrite length_insert.
  - apply Forall_insert; [by apply Forall_lookup|].
    split; [by rewrite length_insert|]. by apply Forall_insert.
Qed.

Lemma set_cells_shaped {A} h w (cell : A → Z * Z) ch l i m m' :
  for_each (λ _ x m, DrawAscii.set_cell m (cell x).1 (cell x).2 ch) i l m = Ok m' →
  art_char ch → shaped h w m → shaped h w m'.
Proof.
  intros Hrun Hch Hm.
  apply (for_each_Ok_inv _ (shaped h w) _ _ _ _ Hrun Hm).
  intros j x s s' _ Hs Hcell. by eapply set_cell_shaped.
Qed.

(** [draw_clade] keeps the shape of the matrix, and writes line art only. *)
Lemma draw_clade_shaped h w cols rows c :
  ∀ p startcol m m',
  DrawAscii.draw_clade cols rows c p startcol m = Ok m' →
  shaped h w m → shaped h w m'.
Proof.
  induction c as [nm bl cf cfs subs IH] using Clade_ind.
  intros p startcol m m' Hrun Hm. rewrite Forall_lookup in IH.
  cbn [DrawAscii.draw_clade clades] in Hrun.
  apply Res_bind_Ok_inv in Hrun as (thiscol & _ & Hrun).
  apply Res_bind_Ok_inv in Hrun as (thisrow & _ & Hrun).
  apply Res_bind_Ok_inv in Hrun as (m1 & Hline & Hrun).
  assert (shaped h w m1) as Hm1.
  { apply (for_each_Ok_inv _ (shaped h w) _ _ _ _ Hline Hm).
    intros j x s s' _ Hs Hcell.
    eapply set_cell_shaped; [done| |done]. right; by left. }
  destruct subs as [|sub subs]; [by simplify_eq|].
  apply Res_bind_Ok_inv in Hrun as (first & _ & Hrun).
  apply Res_bind_Ok_inv in Hrun as (toprow & _ & Hrun).
  apply Res_bind_Ok_inv in Hrun as (last & _ & Hrun).
  apply Res_bind_Ok_inv in Hrun as (botrow & _ & Hrun).
  apply Res_bind_Ok_inv in Hrun as (m2 & Hvert & Hrun).
  assert (shaped h w m2) as Hm2.
  { apply (for_each_Ok_inv _ (shaped h w) _ _ _ _ Hvert Hm1).
    intros j x s s' _ Hs Hcell.
    eapply set_cell_shaped; [done| |done]. right; right; by left. }
  apply Res_bind_Ok_inv in Hrun as (firstcol & _ & Hrun).
  apply Res_bind_Ok_inv in Hrun as (m3 & Hcomma & Hrun).
  assert (shaped h w m3) as Hm3.
  { destruct (_ <? 2); [|by simplify_eq].
    eapply set_cell_shaped; [done| |done]. by do 3 right. }
  apply (for_each_Ok_inv _ (shaped h w) _ _ _ _ Hrun Hm3).
  intros j x s s' Hx Hs Hsub. by eapply (IH j x Hx).
Qed.

(** ** Strings *)

Lemma string_app_cons c (s t : string) :
  String c s +:+ t = String c (s +:+ t).
Proof. reflexivity. Qed.

Lemma string_app_assoc (s1 s2 s3 : string) :
  (s1 +:+ s2) +:+ s3 = s1 +:+ (s2 +:+ s3).
Proof.
  induction s1 as [|c s1 IH]; [done|]. rewrite !string_app_cons. by f_equal.
Qed.

Lemma string_length_app (s1 s2 : string) :
  String.length (s1 +:+ s2) = (String.length s1 + String.length s2)%nat.
Proof.
  induction s1 as [|c s1 IH]; [done|]. rewrite string_app_cons. simpl.
  by f_equal.
Qed.

Lemma string_length_of_list (l : list ascii) :
  String.length (string_of_list_ascii l) = length l.
Proof. induction l as [|c l IH]; [done|]. cbn. by f_equal. Qed.

Lemma length_list_of_string (s : string) :
  length (list_ascii_of_string s) = String.length s.
Proof. induction s as [|c s IH]; [done|]. cbn. by f_equal. Qed.

Lemma lstrip_suffix s : DrawAscii.lstrip s `suffix_of` s.
Proof.
  induction s as [|c s IH]; simpl; [done|].
  destruct (DrawAscii.is_space c); [by apply suffix_cons_r|done].
Qed.

Lemma rstrip_prefix s : DrawAscii.rstrip s `prefix_of` s.
Proof.
  unfold DrawAscii.rstrip.
  rewrite <- (reverse_involutive s) at 2.
  apply suffix_prefix_reverse, lstrip_suffix.
Qed.

Lemma rstrip_art w row :
  length row = w → Forall art_char row →
  Forall art_char (DrawAscii.rstrip row) ∧ (length (DrawAscii.rstrip row) ≤ w)%nat.
Proof.
  intros <- Hart. destruct (rstrip_prefix row) as [k Hk]. split.
  - rewrite Hk in Hart. by apply Forall_app in Hart as [? _].
  - rewrite Hk at 2. rewrite length_app. lia.
Qed.

(** ** The loop that prints *)

(** The line printed for the row [idx]. *)
Lemma print_drawing_spec taxa m :
  (length m + 1 = 2 * length taxa)%nat →
  ∃ file,
    DrawAscii.print_drawing taxa m [] = Ok file ∧
    length file = length m ∧
    (∀ j taxon row, taxa !! j = Some taxon → m !! (2 * j)%nat = Some row →
       file !! (2 * j)%nat
       = Some (string_of_list_ascii (DrawAscii.rstrip row) +:+ " " +:+
               BaseTree.str taxon.2 +:+ newline)) ∧
    (∀ j row, m !! (2 * j + 1)%nat = Some row →
       file !! (2 * j + 1)%nat
       = Some (string_of_list_ascii (DrawAscii.rstrip row) +:+ newline)).
Proof.
  intros Hlen. unfold DrawAscii.print_drawing.
  edestruct (for_each_inv
    (λ idx row file,
       let line := string_of_list_ascii (DrawAscii.rstrip row) in
       line ← (if (Z.of_nat idx `mod` 2 =? 0)
                then taxon ← py_getitem taxa (Z.of_nat idx `div` 2);
                     Ok (line +:+ " " +:+ BaseTree.str taxon.2.2)
                else Ok line);
       Ok (file ++ [line +:+ String "010" EmptyString]))
    (λ k (file : list string),
       length file = k ∧
       (∀ j taxon row, (2 * j < k)%nat →
          taxa !! j = Some taxon → m !! (2 * j)%nat = Some row →
          file !! (2 * j)%nat
          = Some (string_of_list_ascii (DrawAscii.rstrip row) +:+ " " +:+
                  BaseTree.str taxon.2 +:+ newline)) ∧
       (∀ j row, (2 * j + 1 < k)%nat → m !! (2 * j + 1)%nat = Some row →
          file !! (2 * j + 1)%nat
          = Some (string_of_list_ascii (DrawAscii.rstrip row) +:+ newline)))
    m 0%nat []) as (file & Hrun & Hk & Heven & Hodd).
  { split_and!; [done|intros; lia..]. }
  { intros idx row file Hrow (Hk & Heven & Hodd). rewrite Nat.add_0_l.
    cbv zeta.
    pose proof (lookup_lt_Some _ _ _ Hrow) as Hidx.
    destruct (Z.eqb_spec (Z.of_nat idx `mod` 2) 0) as [Hmod|Hmod].
    - (* a row with a label *)
      assert (∃ j, idx = (2 * j)%nat ∧ (j < length taxa)%nat) as (j & -> & Hj).
      { exists (idx / 2)%nat.
        assert (idx = 2 * (idx / 2) + idx mod 2)%nat as Hdiv
          by (apply Nat.div_mod_eq).
        assert (idx mod 2 = 0)%nat.
        { apply Nat2Z.inj. by rewrite Nat2Z.inj_mod. }
        lia. }
      destruct (lookup_lt_is_Some_2 taxa j Hj) as [taxon Htaxon].
      assert (py_getitem taxa (Z.of_nat (2 * j) `div` 2) = Ok (j, taxon))
        as ->.
      { replace (Z.of_nat (2 * j) `div` 2) with (Z.of_nat j)
          by (rewrite Nat2Z.inj_mul, Z.mul_comm, Z.div_mul; lia).
        unfold py_getitem.
        destruct (Z.ltb_spec (Z.of_nat j) 0); [lia|].
        destruct (Z.ltb_spec (Z.of_nat j) 0); [lia|].
        by rewrite Nat2Z.id, Htaxon. }
      unfold mbind, Res_bind. cbv beta iota. cbn [snd].
      eexists. split; [done|]. split_and!.
      + rewrite length_app. simpl. lia.
      + intros j' taxon' row' Hlt Ht Hr.
        destruct (decide (j' = j)) as [->|Hne].
        * simplify_eq. rewrite lookup_app_r by lia.
          replace (2 * j - length file)%nat with 0%nat by lia.
          unfold newline. by rewrite !string_app_assoc.
        * rewrite lookup_app_l by lia. apply (Heven j' taxon' row'); [lia|done..].
      + intros j' row' Hlt Hr.
        rewrite lookup_app_l by lia. apply (Hodd j' row'); [lia|done].
    - (* a row of line art *)
      assert (∃ j, idx = (2 * j + 1)%nat) as (j & ->).
      { exists (idx / 2)%nat.
        assert (idx = 2 * (idx / 2) + idx mod 2)%nat as Hdiv
          by (apply Nat.div_mod_eq).
        assert (idx mod 2 ≠ 0)%nat.
        { intros H0. apply Hmod.
          change 2 with (Z.of_nat 2). rewrite <- Nat2Z.inj_mod. lia. }
        assert (idx mod 2 < 2)%nat by (apply Nat.mod_upper_bound; lia).
        lia. }
      unfold mbind, Res_bind. cbv beta iota. cbn [snd].
      eexists. split; [done|]. split_and!.
      + rewrite length_app. simpl. lia.
      + intros j' taxon' row' Hlt Ht Hr.
        rewrite lookup_app_l by lia. apply (Heven j' taxon' row'); [lia|done..].
      + intros j' row' Hlt Hr.
        destruct (decide (j' = j)) as [->|Hne].
        * simplify_eq. rewrite lookup_app_r by lia.
          replace (2 * j + 1 - length file)%nat with 0%nat by lia. done.
        * rewrite lookup_app_l by lia. apply (Hodd j' row'); [lia|done]. }
  exists file. split; [done|]. rewrite Nat.add_0_l in *. split; [done|].
  split.
  - intros j taxon row Ht Hr. apply (Heven j taxon row); [|done..].
    by eapply lookup_lt_Some.
  - intros j row Hr. apply (Hodd j row); [|done].
    by eapply lookup_lt_Some.
Qed.

(** ** [draw_ascii], when it returns *)

Lemma draw_ascii_inv tree column_width out :
  draw_ascii tree column_width = Ok out →
  let taxa := BaseTree.get_terminals tree in
  ∃ max_label_width cols rows m file,
    py_max_int ((λ taxon, len (list_ascii_of_string (BaseTree.str taxon.2)))
                  <$> taxa) = Ok max_label_width ∧
    DrawAscii.get_col_positions taxa (column_width - max_label_width - 1) tree
      = Ok cols ∧
    DrawAscii.get_row_positions taxa tree = Ok rows ∧
    DrawAscii.draw_clade cols rows (root tree) [] 0
      (replicate (Z.to_nat (2 * len taxa - 1))
         (replicate (Z.to_nat (column_width - max_label_width - 1)) " "%char))
      = Ok m ∧
    DrawAscii.print_drawing taxa m [] = Ok file ∧
    out = file ++ [newline].
Proof.
  intros Hrun. cbv zeta. unfold draw_ascii in Hrun.
  apply Res_bind_Ok_inv in Hrun as (mlw & Hmax & Hrun).
  apply Res_bind_Ok_inv in Hrun as (cols & Hcols & Hrun).
  apply Res_bind_Ok_inv in Hrun as (rows & Hrows & Hrun).
  apply Res_bind_Ok_inv in Hrun as (m & Hdraw & Hrun).
  apply Res_bind_Ok_inv in Hrun as (file & Hprint & Hrun).
  exists mlw, cols, rows, m, file. by simplify_eq.
Qed.

Lemma replicate_shaped h w :
  shaped h w (replicate h (replicate w " "%char)).
Proof.
  split; [by rewrite length_replicate|].
  apply Forall_replicate. split; [by rewrite length_replicate|].
  apply Forall_replicate. by left.
Qed.

Lemma terminals_nonempty tree : BaseTree.get_terminals tree ≠ [].
Proof.
  unfold BaseTree.get_terminals. generalize (@nil nat).
  induction (root tree) as [nm bl cf cfs subs IH] using Clade_ind.
  intros p. rewrite terminals_at_unfold. cbn [clades].
  destruct subs as [|sub subs]; [done|].
  apply Forall_cons in IH as [IHsub _]. cbn [fold_each].
  intros Hnil.
  assert (∀ l i (found : list (path * Clade)),
    found ≠ [] →
    fold_each (λ i sub found, found ++ BaseTree.terminals_at (p ++ [i]) sub)
      i l found ≠ []) as Hgrow.
  { induction l as [|x l IHl]; intros i found Hne; simpl; [done|].
    apply IHl. by destruct found. }
  apply (Hgrow subs 1%nat ([] ++ BaseTree.terminals_at (p ++ [0%nat]) sub));
    [|done].
  simpl. apply IHsub.
Qed.

(** The matrix that [draw_ascii] prints. *)
Lemma draw_ascii_matrix tree column_width out :
  draw_ascii tree column_width = Ok out →
  let taxa := BaseTree.get_terminals tree in
  ∃ max_label_width cols m file,
    py_max_int ((λ taxon, len (list_ascii_of_string (BaseTree.str taxon.2)))
                  <$> taxa) = Ok max_label_width ∧
    DrawAscii.get_col_positions taxa (column_width - max_label_width - 1) tree
      = Ok cols ∧
    shaped (2 * length taxa - 1)
      (Z.to_nat (column_width - max_label_width - 1)) m ∧
    (0 < Z.to_nat (column_width - max_label_width - 1))%nat ∧
    DrawAscii.print_drawing taxa m [] = Ok file ∧
    out = file ++ [newline].
Proof.
  intros Hrun. cbv zeta.
  destruct (draw_ascii_inv tree column_width out Hrun)
    as (mlw & cols & rows & m & file & Hmax & Hcols & Hrows & Hdraw & Hprint & ->).
  set (taxa := BaseTree.get_terminals tree) in *.
  exists mlw, cols, m, file. split; [done|]. split; [done|].
  replace (Z.to_nat (2 * len taxa - 1)) with (2 * length taxa - 1)%nat in Hdraw
    by (unfold len; lia).
  pose proof (replicate_shaped (2 * length taxa - 1)
                (Z.to_nat (column_width - mlw - 1))) as Hm0.
  split; [by eapply draw_clade_shaped|]. split; [|done].
  (* the root's own line starts in column 0 *)
  assert (cols !! [] = Some 1) as Hroot.
  { revert Hcols. unfold DrawAscii.get_col_positions. intros Hcols.
    apply Res_bind_Ok_inv in Hcols as (mx & _ & Hcols).
    apply Res_bind_Ok_inv in Hcols as (fudge & _ & Hcols).
    apply Res_bind_Ok_inv in Hcols as (mx' & _ & Hcols).
    apply Res_bind_Ok_inv in Hcols as (cpu & _ & Hcols).
    injection Hcols as <-. rewrite lookup_fmap.
    assert ((if Qeq_bool mx 0 then BaseTree.depths true tree
             else BaseTree.depths false tree) !! [] = Some 0%Q) as ->.
    { destruct (Qeq_bool mx 0); apply depths_root. }
    simpl. f_equal. destruct cpu as [n d]. unfold py_int.
    assert (0 * (n # d) + 1 == 1)%Q as Hone by ring.
    destruct (Qle_bool 0 (0 * (n # d) + 1)) eqn:Hle.
    - by rewrite Hone.
    - exfalso. assert (Qle_bool 0 (0 * (n # d) + 1) = true); [|congruence].
      apply Qle_bool_iff. rewrite Hone. done. }
  revert Hdraw. destruct (root tree) as [nm bl cf cfs subs].
  cbn [DrawAscii.draw_clade clades]. intros Hdraw.
  apply Res_bind_Ok_inv in Hdraw as (thiscol & Hthis & Hdraw).
  apply Res_bind_Ok_inv in Hdraw as (thisrow & _ & Hdraw).
  apply Res_bind_Ok_inv in Hdraw as (m1 & Hline & _).
  unfold py_lookup in Hthis. rewrite Hroot in Hthis. injection Hthis as <-.
  change (py_range 0 1) with [0] in Hline. cbn [for_each] in Hline.
  apply Res_bind_Ok_inv in Hline as (m2 & Hcell & _).
  eapply set_cell_shaped; [done| |done]. right; by left.
Qed.

Lemma py_max_int_spec l m :
  py_max_int l = Ok m → ∀ x, x ∈ l → x ≤ m.
Proof.
  destruct l as [|x0 l]; [done|]. simpl. intros [= <-].
  revert x0. induction l as [|y l IH]; intros x0 x; simpl.
  - intros ->%list_elem_of_singleton. lia.
  - intros [->|[->|Hx]%elem_of_cons]%elem_of_cons.
    + etrans; [|apply IH; by left]. lia.
    + etrans; [|apply IH; by left]. lia.
    + apply IH. by right.
Qed.

(** X6: when [draw_ascii] returns, it has written one line for each of the
    2n - 1 rows of the drawing, n the number of terminals, and then an empty
    line.  The row 2j ends with a space and the label of the terminal j of
    the traversal; the rows between hold line art only; the line art is
    made of spaces, underscores, bars and commas. *)
Theorem draw_ascii_output tree column_width file :
  draw_ascii tree column_width = Ok file →
  ∃ rows,
    file = rows ++ [newline] ∧
    (length rows + 1 = 2 * length (BaseTree.get_terminals tree))%nat ∧
    (∀ j taxon, BaseTree.get_terminals tree !! j = Some taxon →
       ∃ art, rows !! (2 * j)%nat
              = Some (art +:+ " " +:+ BaseTree.str taxon.2 +:+ newline) ∧
              line_art art) ∧
    (∀ j, (2 * j + 1 < length rows)%nat →
       ∃ art, rows !! (2 * j + 1)%nat = Some (art +:+ newline) ∧
              line_art art).
Proof.
  intros Hrun.
  destruct (draw_ascii_matrix tree column_width file Hrun)
    as (mlw & cols & m & rows & _ & _ & [Hlen Hm] & _ & Hprint & ->).
  set (taxa := BaseTree.get_terminals tree) in *.
  assert (taxa ≠ []) as Hne by apply terminals_nonempty.
  assert (length taxa ≠ 0)%nat as Hn by (by destruct taxa).
  destruct (print_drawing_spec taxa m) as (file & Hprint' & Hfile & Heven & Hodd);
    [lia|].
  rewrite Hprint in Hprint'. injection Hprint' as <-.
  rewrite Forall_lookup in Hm.
  exists rows. split; [done|]. split; [lia|]. split.
  - intros j taxon Hj. pose proof (lookup_lt_Some _ _ _ Hj) as Hlt.
    destruct (lookup_lt_is_Some_2 m (2 * j)%nat) as [row Hrow]; [lia|].
    exists (string_of_list_ascii (DrawAscii.rstrip row)).
    split; [by apply Heven|].
    unfold line_art. rewrite list_ascii_of_string_of_list_ascii.
    destruct (Hm _ _ Hrow) as [Hw Hart]. by eapply rstrip_art.
  - intros j Hlt.
    destruct (lookup_lt_is_Some_2 m (2 * j + 1)%nat) as [row Hrow]; [lia|].
    exists (string_of_list_ascii (DrawAscii.rstrip row)).
    split; [by apply Hodd|].
    unfold line_art. rewrite list_ascii_of_string_of_list_ascii.
    destruct (Hm _ _ Hrow) as [Hw Hart]. by eapply rstrip_art.
Qed.

(** X6 on ((A, B), (C, D)). *)
Lemma draw_ascii_output_witness :
  ∃ file,
    draw_ascii balanced4 80 = Ok file ∧
    ∃ rows,
      file = rows ++ [newline] ∧
      (length rows + 1 = 2 * length (BaseTree.get_terminals balanced4))%nat ∧
      (∀ j taxon, BaseTree.get_terminals balanced4 !! j = Some taxon →
         ∃ art, rows !! (2 * j)%nat
                = Some (art +:+ " " +:+ BaseTree.str taxon.2 +:+ newline) ∧
                line_art art) ∧
      (∀ j, (2 * j + 1 < length rows)%nat →
         ∃ art, rows !! (2 * j + 1)%nat = Some (art +:+ newline) ∧
                line_art art).
Proof.
  destruct (draw_ascii balanced4 80) as [file|e] eqn:Hrun;
    [|by vm_compute in Hrun].
  exists file. split; [done|]. apply (draw_ascii_output balanced4 80 file Hrun).
Defined.

(** X7: when [draw_ascii] returns, no line that it has written is longer
    than [column_width] characters, the newline at its end apart. *)
Theorem draw_ascii_fits tree column_width file :
  draw_ascii tree column_width = Ok file →
  ∀ line, line ∈ file →
    ∃ text, line = text +:+ newline ∧
            Z.of_nat (String.length text) ≤ column_width.
Proof.
  intros Hrun.
  destruct (draw_ascii_matrix tree column_width file Hrun)
    as (mlw & cols & m & rows & Hmax & _ & [Hlen Hm] & Hw & Hprint & ->).
  set (taxa := BaseTree.get_terminals tree) in *.
  assert (taxa ≠ []) as Hne by apply terminals_nonempty.
  assert (length taxa ≠ 0)%nat as Hn by (by destruct taxa).
  destruct (print_drawing_spec taxa m) as (file & Hprint' & Hfile & Heven & Hodd);
    [lia|].
  rewrite Hprint in Hprint'. injection Hprint' as <-.
  rewrite Forall_lookup in Hm.
  assert (0 ≤ mlw) as Hmlw.
  { destruct taxa as [|t taxa'] eqn:Ht; [done|].
    etrans; [|apply (py_max_int_spec _ _ Hmax); by left]. unfold len. lia. }
  intros line [Hline|Hline%list_elem_of_singleton]%elem_of_app.
  - apply list_elem_of_lookup in Hline as [idx Hidx].
    pose proof (lookup_lt_Some _ _ _ Hidx) as Hlt.
    destruct (lookup_lt_is_Some_2 m idx) as [row Hrow]; [lia|].
    destruct (Hm _ _ Hrow) as [Hrw Hart].
    destruct (rstrip_art _ row Hrw Hart) as [_ Hshort].
    assert (idx = 2 * (idx / 2) + idx mod 2)%nat as Hdiv
      by (apply Nat.div_mod_eq).
    assert (idx mod 2 < 2)%nat by (apply Nat.mod_upper_bound; lia).
    destruct (decide (idx mod 2 = 0)%nat) as [Hmod|Hmod].
    + destruct (lookup_lt_is_Some_2 taxa (idx / 2)%nat) as [taxon Htaxon];
        [lia|].
      rewrite Hdiv, Hmod, Nat.add_0_r in Hidx, Hrow.
      rewrite (Heven _ taxon row Htaxon Hrow) in Hidx. injection Hidx as <-.
      eexists. split; [by rewrite <- !string_app_assoc|].
      rewrite !string_length_app, string_length_of_list. simpl.
      assert (len (list_ascii_of_string (BaseTree.str taxon.2)) ≤ mlw) as Hlab.
      { apply (py_max_int_spec _ _ Hmax).
        apply list_elem_of_fmap. exists taxon. split; [done|].
        by eapply list_elem_of_lookup_2. }
      unfold len in Hlab. rewrite length_list_of_string in Hlab. lia.
    + assert (idx = 2 * (idx / 2) + 1)%nat as Hodd' by lia.
      rewrite Hodd' in Hidx, Hrow.
      rewrite (Hodd _ row Hrow) in Hidx. injection Hidx as <-.
      eexists. split; [done|]. rewrite string_length_of_list. lia.
  - subst line. exists EmptyString. split; [done|]. simpl. lia.
Qed.

(** X7 on ((A, B), (C, D)). *)
Lemma draw_ascii_fits_witness :
  ∃ file,
    draw_ascii balanced4 80 = Ok file ∧
    ∀ line, line ∈ file →
      ∃ text, line = text +:+ newline ∧
              Z.of_nat (String.length text) ≤ 80.
Proof.
  destruct (draw_ascii balanced4 80) as [file|e] eqn:Hrun;
    [|by vm_compute in Hrun].
  exists file. split; [done|]. apply (draw_ascii_fits balanced4 80 file Hrun).
Defined.

(** ** [draw_ascii] returns *)

Lemma py_range_lookup a b j x :
  py_range a b !! j = Some x → a ≤ x < b.
Proof.
  unfold py_range. rewrite list_lookup_fmap.
  destruct (seq 0 (Z.to_nat (b - a)) !! j) as [k|] eqn:Hk; [|done].
  apply lookup_seq in Hk as [-> Hlt]. simpl. intros [= <-]. lia.
Qed.

Lemma set_cell_total h w m row col ch :
  shaped h w m → art_char ch →
  0 ≤ row < Z.of_nat h → 0 ≤ col < Z.of_nat w →
  ∃ m', DrawAscii.set_cell m row col ch = Ok m' ∧ shaped h w m'.
Proof.
  intros Hm Hch Hrow Hcol. pose proof Hm as [Hlen Hrows].
  destruct (lookup_lt_is_Some_2 m (Z.to_nat row)) as [r Hr]; [lia|].
  rewrite Forall_lookup in Hrows. destruct (Hrows _ _ Hr) as [Hw _].
  assert (DrawAscii.set_cell m row col ch
          = Ok (<[Z.to_nat row := <[Z.to_nat col := ch]> r]> m)) as Hrun.
  { unfold DrawAscii.set_cell, py_getitem, py_setitem, len.
    destruct (Z.ltb_spec row 0); [lia|].
    destruct (Z.ltb_spec row 0); [lia|]. rewrite Hr. simpl.
    destruct (Z.ltb_spec col 0); [lia|].
    destruct (Z.ltb_spec col 0); [lia|].
    destruct (Z.leb_spec (Z.of_nat (length r)) col); [lia|]. done. }
  eexists. split; [done|]. by eapply set_cell_shaped.
Qed.

Lemma layouts_within_sub h w cols rows c p i sub :
  clades c !! i = Some sub →
  layouts_within h w cols rows c p →
  layouts_within h w cols rows sub (p ++ [i]).
Proof.
  intros Hi Hc q c' Hq. rewrite snoc_app. apply (Hc (i :: q) c').
  simpl. by rewrite Hi.
Qed.

Lemma draw_clade_total h w cols rows c :
  ∀ p startcol m,
  layouts_within h w cols rows c p → 0 ≤ startcol → shaped h w m →
  ∃ m', DrawAscii.draw_clade cols rows c p startcol m = Ok m' ∧ shaped h w m'.
Proof.
  induction c as [nm bl cf cfs subs IH] using Clade_ind.
  intros p startcol m Hin Hstart Hm. rewrite Forall_lookup in IH.
  cbn [DrawAscii.draw_clade clades].
  set (c := mkClade nm bl cf cfs subs) in *.
  destruct (Hin [] c eq_refl) as (thiscol & thisrow & Hcol & Hrow & Hc & Hr).
  rewrite app_nil_r in Hcol, Hrow.
  rewrite (py_lookup_Some _ _ _ Hcol), (py_lookup_Some _ _ _ Hrow).
  cbn [mbind Res_bind].
  (* the horizontal line *)
  destruct (for_each_inv
    (λ (_ : nat) col m, DrawAscii.set_cell m thisrow col "_"%char)
    (λ _ m, shaped h w m) (py_range startcol thiscol) 0%nat m Hm)
    as (m1 & -> & Hm1).
  { intros j x s Hx Hs. apply py_range_lookup in Hx.
    apply (set_cell_total h w); [done|right; by left|lia..]. }
  cbn [mbind Res_bind].
  subst c. destruct subs as [|sub rest]; [by exists m1|]. cbv iota.
  set (subs := sub :: rest) in *.
  set (c := mkClade nm bl cf cfs subs) in *.
  assert (subs ≠ []) as Hne by done.
  (* the vertical line *)
  assert (subs !! 0%nat = Some sub) as Hfirst by done.
  rewrite (py_getitem_first _ _ Hfirst). cbn [mbind Res_bind fst].
  destruct (Hin [0%nat] sub) as (firstcol & toprow & Hfc & Htr & Hfcb & Htrb).
  { exact (subclade_cons c _ [] _ Hfirst). }
  rewrite (py_lookup_Some _ _ _ Htr). cbn [mbind Res_bind].
  destruct (py_getitem_last subs Hne) as (lastc & Hlast & ->).
  cbn [mbind Res_bind fst].
  destruct (Hin [(length subs - 1)%nat] lastc) as (lastcol & botrow & _ & Hbr & _ & Hbrb).
  { exact (subclade_cons c _ [] _ Hlast). }
  rewrite (py_lookup_Some _ _ _ Hbr). cbn [mbind Res_bind].
  destruct (for_each_inv
    (λ (_ : nat) row m, DrawAscii.set_cell m row thiscol "|"%char)
    (λ _ m, shaped h w m) (py_range (toprow + 1) (botrow + 1)) 0%nat m1 Hm1)
    as (m2 & -> & Hm2).
  { intros j x s Hx Hs. apply py_range_lookup in Hx.
    apply (set_cell_total h w); [done|right; right; by left|lia..]. }
  cbn [mbind Res_bind].
  rewrite (py_lookup_Some _ _ _ Hfc). cbn [mbind Res_bind].
  assert (∃ m3, (if firstcol - thiscol <? 2
                 then DrawAscii.set_cell m2 toprow thiscol ","%char
                 else Ok m2) = Ok m3 ∧ shaped h w m3) as (m3 & -> & Hm3).
  { destruct (firstcol - thiscol <? 2); [|by exists m2].
    apply (set_cell_total h w); [done|by do 3 right|lia..]. }
  cbn [mbind Res_bind].
  (* the descendents *)
  destruct (for_each_inv
    (λ i child m,
       DrawAscii.draw_clade cols rows child (p ++ [i]) (thiscol + 1) m)
    (λ _ m, shaped h w m) subs 0%nat m3 Hm3) as (m4 & Hrun & Hm4).
  { intros j x s Hx Hs. rewrite Nat.add_0_l.
    apply (IH j x Hx); [|lia|done].
    by apply (layouts_within_sub h w cols rows c p). }
  by exists m4.
Qed.

Lemma nonneg_lengths_sub c :
  nonneg_lengths c = true →
  ∀ q c', subclade c q = Some c' → (0 <= BaseTree.depth_of false c')%Q.
Proof.
  intros Hc q. revert c Hc. induction q as [|i q IH]; intros c Hc c' Hq.
  - simpl in Hq. injection Hq as <-. unfold BaseTree.depth_of.
    destruct c as [nm [l|] cf cfs subs]; simpl in *; [|done].
    apply andb_true_iff in Hc as [Hl _]. by apply Qle_bool_iff.
  - simpl in Hq. destruct (clades c !! i) as [sub|] eqn:Hi; [|done].
    apply (IH sub); [|done].
    destruct c as [nm l cf cfs subs]. simpl in *.
    apply andb_true_iff in Hc as [_ Hsubs].
    rewrite forallb_forall in Hsubs. apply Hsubs.
    apply list_elem_of_In. by eapply list_elem_of_lookup_2.
Qed.

Lemma moderate_nonneg c :
  moderate_lengths c = true → nonneg_lengths c = true.
Proof.
  induction c as [nm bl cf cfs subs IH] using Clade_ind.
  cbn [moderate_lengths nonneg_lengths branch_length clades].
  rewrite !andb_true_iff. intros [Hl Hsubs]. split.
  - destruct bl as [l|]; [|done]. simpl in Hl.
    apply Qle_bool_iff. apply orb_true_iff in Hl as [Hz|Hr].
    + apply Qeq_bool_iff in Hz. rewrite Hz. apply Qle_refl.
    + apply andb_true_iff in Hr as [Hlow _]. apply Qle_bool_iff in Hlow.
      eapply Qle_trans; [|exact Hlow]. done.
  - rewrite forallb_forall in *. intros sub Hin.
    rewrite Forall_forall in IH. apply IH; [by apply list_elem_of_In|].
    by apply Hsubs.
Qed.

(** [Tree.depths] gives every clade a depth; [I] is a property of the
    depths that every edge keeps. *)
Lemma update_depths_cover u c (I : Q → Prop) :
  (∀ q c' d, subclade c q = Some c' → I d →
             I (d + BaseTree.depth_of u c')%Q) →
  ∀ p d m, I d →
  ∀ q c', subclade c q = Some c' →
    ∃ d', BaseTree.update_depths u c p d m !! (p ++ q) = Some d' ∧ I d'.
Proof.
  induction c as [nm bl cf cfs subs IH] using Clade_ind.
  intros Hlen p d m Hd. rewrite Forall_lookup in IH.
  simpl BaseTree.update_depths.
  pose (P := λ (k : nat) (mk : gmap path Q),
    mk !! p = Some d ∧
    (∀ j sub q c', (j < k)%nat → subs !! j = Some sub →
       subclade sub q = Some c' →
       ∃ d', mk !! (p ++ j :: q) = Some d' ∧ I d')).
  match goal with |- context [fold_each ?body 0%nat subs ?m0] =>
    assert (P (0 + length subs)%nat (fold_each body 0%nat subs m0))
      as (Hp & Hin)
  end.
  { apply (fold_each_inv _ P).
    - split; [by rewrite lookup_insert_eq|intros; lia].
    - intros j sub mk Hsub (Hp & Hin). simpl in *.
      assert (∀ q c' d, subclade sub q = Some c' → I d →
                        I (d + BaseTree.depth_of u c')%Q) as Hsublen.
      { intros q c' d0 Hq. apply (Hlen (j :: q)). simpl. by rewrite Hsub. }
      assert (I (d + BaseTree.depth_of u sub)%Q) as Hd'.
      { by apply (Hsublen [] sub). }
      pose proof (IH j sub Hsub Hsublen (p ++ [j])
                    (d + BaseTree.depth_of u sub)%Q mk Hd') as IHin.
      destruct (update_depths_frame u sub (p ++ [j])
                  (d + BaseTree.depth_of u sub)%Q mk) as [IHout _].
      split.
      + rewrite IHout; [done|]. apply prefix_snoc_self.
      + intros j' sub' q c' Hlt Hsub' Hq.
        destruct (decide (j' = j)) as [->|Hne].
        * simplify_eq. rewrite <- snoc_app. by eapply IHin.
        * rewrite IHout; [eapply Hin; [lia|done..]|].
          intros Hpre. apply Hne. symmetry.
          apply (prefix_snoc_inj p j j' (p ++ j' :: q)); [done|].
          exists q. by rewrite snoc_app. }
  simpl in *.
  intros [|j q] c' Hq; simpl in Hq.
  - rewrite app_nil_r, Hp. eauto.
  - destruct (subs !! j) as [sub|] eqn:Hsub; simpl in Hq; [|done].
    apply (Hin j sub q c'); [by eapply lookup_lt_Some|done..].
Qed.

Lemma depths_is_Some u tree p c :
  subclade (root tree) p = Some c → is_Some (BaseTree.depths u tree !! p).
Proof.
  intros Hp. unfold BaseTree.depths.
  destruct (update_depths_cover u (root tree) (λ _, True)) with
    (p := @nil nat) (d := 0%Q) (m := (∅ : gmap path Q)) (q := p) (c' := c)
    as (d & Hd & _); [done..|].
  by exists d.
Qed.

Lemma depths_cover u tree :
  (u = true ∨ nonneg_lengths (root tree) = true) →
  ∀ p c, subclade (root tree) p = Some c →
    ∃ d, BaseTree.depths u tree !! p = Some d ∧ (0 <= d)%Q.
Proof.
  intros Hu p c Hp. unfold BaseTree.depths.
  apply (update_depths_cover u (root tree) (λ d, 0 <= d)%Q)
    with (p := @nil nat) (c' := c); [|done..].
  intros q c' d Hq Hd.
  assert (0 <= BaseTree.depth_of u c')%Q as Hedge.
  { destruct Hu as [->|Hnn]; [done|].
    destruct u; [done|]. by eapply nonneg_lengths_sub. }
  rewrite <- (Qplus_0_r 0). by apply Qplus_le_compat.
Qed.

Lemma elem_of_values `{Countable K} {A} (d : gmap K A) k v :
  d !! k = Some v → v ∈ values d.
Proof.
  intros Hk. unfold values. apply list_elem_of_fmap. exists (k, v).
  split; [done|]. by apply elem_of_map_to_list.
Qed.

Lemma py_int_bounds (x : Q) (a b : Z) :
  (inject_Z a <= x)%Q → (x <= inject_Z b)%Q → 0 ≤ a → a ≤ py_int x ≤ b.
Proof.
  intros Ha Hb H0. unfold py_int.
  assert (Qle_bool 0 x = true) as ->.
  { apply Qle_bool_iff. eapply Qle_trans; [|done].
    by rewrite <- (Zle_Qle 0). }
  split.
  - rewrite <- (Qfloor_Z a). by apply Qfloor_resp_le.
  - rewrite <- (Qfloor_Z b). by apply Qfloor_resp_le.
Qed.

(** The columns, on a tree with more than one clade: every clade is between
    column 1 and column [drawing_width - fudge_margin + 1]. *)
Lemma get_col_positions_within tree taxa drawing_width :
  nonneg_lengths (root tree) = true →
  clades (root tree) ≠ [] →
  0 < len taxa →
  Z.log2_up (len taxa) ≤ drawing_width →
  ∃ cols,
    DrawAscii.get_col_positions taxa drawing_width tree = Ok cols ∧
    ∀ p c, subclade (root tree) p = Some c →
      ∃ col, cols !! p = Some col ∧
             1 ≤ col ≤ drawing_width - Z.log2_up (len taxa) + 1.
Proof.
  intros Hnn Hne Htaxa Hroom. unfold DrawAscii.get_col_positions.
  destruct (max_depth_exists false tree) as [m Hm]. rewrite Hm.
  cbn [mbind Res_bind].
  destruct (Z.leb_spec (len taxa) 0) as [|_]; [lia|]. cbn [mbind Res_bind].
  set (fudge := Z.log2_up (len taxa)) in *.
  set (depths' := if Qeq_bool m 0 then BaseTree.depths true tree
                  else BaseTree.depths false tree).
  assert (∀ p c, subclade (root tree) p = Some c →
            ∃ d, depths' !! p = Some d ∧ (0 <= d)%Q) as Hcover.
  { intros p c Hp. unfold depths'. destruct (Qeq_bool m 0).
    - apply (depths_cover true tree (or_introl eq_refl) p c Hp).
    - apply (depths_cover false tree (or_intror Hnn) p c Hp). }
  assert (depths' !! [] = Some 0%Q) as Hroot.
  { unfold depths'. destruct (Qeq_bool m 0); apply depths_root. }
  destruct (py_max_spec (values depths')) as (m' & Hm' & Hin & Hmax).
  { by eapply values_nonempty. }
  rewrite Hm'. cbn [mbind Res_bind].
  assert (0 < m')%Q as Hpos.
  { unfold depths' in *. destruct (Qeq_bool m 0) eqn:Hzero.
    - (* unit branch lengths: a child of the root is at depth 1 *)
      destruct (clades (root tree)) as [|sub subs] eqn:Hsubs; [done|].
      assert (subclade (root tree) [0%nat] = Some sub) as Hsub
        by (simpl; by rewrite Hsubs).
      pose proof (unit_depths tree [0%nat] sub Hsub) as Hone.
      apply elem_of_values, Hmax in Hone. simpl in Hone.
      eapply Qlt_le_trans; [|exact Hone]. done.
    - rewrite Hm in Hm'. injection Hm' as <-.
      pose proof (Hmax 0%Q (elem_of_values _ _ _ Hroot)) as H0.
      apply Qle_lteq in H0 as [?|Heq]; [done|].
      exfalso. symmetry in Heq. apply Qeq_bool_iff in Heq. congruence. }
  assert (Qeq_bool m' 0 = false) as Hnz.
  { destruct (Qeq_bool m' 0) eqn:Heq; [|done].
    apply Qeq_bool_iff in Heq. rewrite Heq in Hpos.
    by apply Qlt_irrefl in Hpos. }
  unfold py_truediv. rewrite Hnz. cbn [mbind Res_bind].
  eexists. split; [done|].
  intros p c Hp. destruct (Hcover p c Hp) as (d & Hd & Hd0).
  rewrite lookup_fmap, Hd. simpl. eexists. split; [done|].
  set (cpu := (inject_Z (drawing_width - fudge) / m')%Q).
  assert (0 <= cpu)%Q as Hcpu.
  { unfold cpu. apply Qle_shift_div_l; [done|].
    rewrite Qmult_0_l. rewrite <- (Zle_Qle 0). lia. }
  assert (m' * cpu == inject_Z (drawing_width - fudge))%Q as Hfull.
  { unfold cpu. apply Qmult_div_r. intros Heq. rewrite Heq in Hpos.
    by apply Qlt_irrefl in Hpos. }
  assert (d <= m')%Q as Hdm by (by apply Hmax, (elem_of_values _ p)).
  apply py_int_bounds; [| |lia].
  - change (inject_Z 1) with (0 + 1)%Q. apply Qplus_le_compat; [|done].
    by apply Qmult_le_0_compat.
  - replace (drawing_width - fudge + 1) with ((drawing_width - fudge) + 1)
      by lia.
    rewrite inject_Z_plus. apply Qplus_le_compat; [|done].
    rewrite <- Hfull. by apply Qmult_le_compat_r.
Qed.

(** The rows: every clade is between row 0 and row 2n - 2. *)
Lemma rows_within tree rows :
  tips_at (λ j, 2 * Z.of_nat j) tree rows →
  midpoints (λ a b, (a + b) `div` 2) tree rows →
  ∀ c p, subclade (root tree) p = Some c →
    ∃ r, rows !! p = Some r ∧
         0 ≤ r ≤ 2 * len (BaseTree.get_terminals tree) - 2.
Proof.
  intros Htips Hmid.
  induction c as [nm bl cf cfs subs IH] using Clade_ind. intros p Hp.
  rewrite Forall_lookup in IH.
  set (c := mkClade nm bl cf cfs subs) in *.
  destruct (decide (subs = [])) as [Hnil|Hne].
  - (* a terminal *)
    assert (p ∈ (BaseTree.get_terminals tree).*1) as Hin.
    { apply elem_of_terminals. exists c. split; [done|]. by rewrite <- Hnil. }
    apply list_elem_of_fmap in Hin as (tip & -> & Hin).
    apply list_elem_of_lookup in Hin as [j Hj].
    rewrite (Htips j tip Hj). eexists. split; [done|].
    apply lookup_lt_Some in Hj. unfold len. lia.
  - destruct (Hmid p c Hp Hne) as (a & b & Ha & Hb & ->).
    destruct (lookup_lt_is_Some_2 subs 0%nat) as [first Hfirst].
    { destruct subs; [done|simpl; lia]. }
    destruct (lookup_lt_is_Some_2 subs (length subs - 1)%nat) as [last Hlast].
    { destruct subs; [done|simpl; lia]. }
    destruct (IH _ _ Hfirst (p ++ [0%nat])) as (a' & Ha' & Habound).
    { rewrite subclade_app, Hp. simpl. by rewrite Hfirst. }
    destruct (IH _ _ Hlast (p ++ [(length subs - 1)%nat]))
      as (b' & Hb' & Hbbound).
    { rewrite subclade_app, Hp. simpl. by rewrite Hlast. }
    simpl in Hb. simplify_eq. eexists. split; [done|].
    split.
    + apply Z.div_pos; lia.
    + apply Z.div_le_upper_bound; lia.
Qed.

Lemma py_max_int_elem l m : py_max_int l = Ok m → m ∈ l.
Proof.
  destruct l as [|x0 l]; [done|]. simpl. intros [= <-].
  revert x0. induction l as [|y l IH]; intros x0; simpl; [by left|].
  pose proof (IH (Z.max x0 y)) as Hin.
  apply elem_of_cons in Hin as [Heq|Hin].
  - rewrite Heq. destruct (Z.max_spec x0 y) as [[_ ->]|[_ ->]].
    + right; by left.
    + by left.
  - by do 2 right.
Qed.

(** X8: [draw_ascii] returns on every tree of three terminals or more
    whose branch lengths are moderate (none, zero, or between 2^-500 and
    2^500, so that no float of the columns overflows), when the column
    width is at most 2^30 and leaves room for the longest label, the space
    before it and one column per level (ceil(log2(n)) for n terminals).
    The columns are then between 1 and the width of the drawing less the
    margin plus one, which rounding cannot take them out of. *)
Theorem draw_ascii_succeeds tree column_width :
  moderate_lengths (root tree) = true →
  3 ≤ len (BaseTree.get_terminals tree) →
  column_width ≤ 2 ^ 30 →
  (∀ taxon, taxon ∈ BaseTree.get_terminals tree →
     Z.of_nat (String.length (BaseTree.str taxon.2))
     + Z.log2_up (len (BaseTree.get_terminals tree)) + 1 ≤ column_width) →
  ∃ file, draw_ascii tree column_width = Ok file.
Proof.
  intros Hnn%moderate_nonneg Hthree _ Hroom. unfold draw_ascii.
  set (taxa := BaseTree.get_terminals tree) in *.
  set (fudge := Z.log2_up (len taxa)) in *.
  assert (2 ≤ fudge) as Hfudge.
  { change 2 with (Z.log2_up 3). by apply Z.log2_up_le_mono. }
  (* the longest label *)
  destruct (py_max_int ((λ taxon, len (list_ascii_of_string (BaseTree.str taxon.2)))
                          <$> taxa)) as [mlw|e] eqn:Hmax; cycle 1.
  { exfalso. destruct taxa as [|t taxa'] eqn:Ht; [|done].
    unfold len in Hthree. simpl in Hthree. lia. }
  cbn [mbind Res_bind].
  set (dw := column_width - mlw - 1).
  assert (fudge ≤ dw) as Hdw.
  { apply py_max_int_elem in Hmax.
    apply list_elem_of_fmap in Hmax as (taxon & -> & Hin).
    specialize (Hroom taxon Hin). unfold dw, len.
    rewrite length_list_of_string. lia. }
  (* the root has children *)
  assert (clades (root tree) ≠ []) as Hne.
  { intros Hnil. unfold taxa, BaseTree.get_terminals in Hthree.
    rewrite terminals_at_unfold, Hnil in Hthree.
    unfold len in Hthree. simpl in Hthree. lia. }
  (* the two layouts *)
  destruct (get_col_positions_within tree taxa dw Hnn Hne)
    as (cols & -> & Hcols); [lia|done|].
  destruct (get_row_positions_spec tree Hne) as (rows & Hrows & Htips & Hmid).
  fold taxa in Hrows. rewrite Hrows. cbn [mbind Res_bind].
  pose proof (rows_within tree rows Htips Hmid) as Hrowsin.
  fold taxa in Hrowsin.
  (* the drawing *)
  replace (Z.to_nat (2 * len taxa - 1)) with (2 * length taxa - 1)%nat
    by (unfold len; lia).
  destruct (draw_clade_total (2 * length taxa - 1) (Z.to_nat dw) cols rows
              (root tree) [] 0
              (replicate (2 * length taxa - 1)
                 (replicate (Z.to_nat dw) " "%char)))
    as (m & -> & [Hlen Hm]); [|done|apply replicate_shaped|].
  { intros q c' Hq. simpl.
    destruct (Hcols q c' Hq) as (col & Hcol & Hcb).
    destruct (Hrowsin c' q Hq) as (row & Hrow & Hrb).
    exists col, row. fold fudge in Hcb. unfold len in *.
    split_and!; [done|done|lia..]. }
  cbn [mbind Res_bind].
  (* the lines *)
  destruct (print_drawing_spec taxa m) as (file & -> & _).
  { unfold len in Hthree. lia. }
  cbn [mbind Res_bind]. eauto.
Qed.

(** X8 on ((A, B), (C, D)) in 80 columns. *)
Lemma draw_ascii_succeeds_witness :
  ∃ file, draw_ascii balanced4 80 = Ok file.
Proof.
  apply (draw_ascii_succeeds balanced4 80).
  - by vm_compute.
  - by vm_compute.
  - by vm_compute.
  - intros taxon Hin.
    change (BaseTree.get_terminals balanced4) with
      [([0; 0]%nat, leaf "A"); ([0; 1]%nat, leaf "B");
       ([1; 0]%nat, leaf "C"); ([1; 1]%nat, leaf "D")] in Hin.
    repeat (apply elem_of_cons in Hin as [->|Hin]; [by vm_compute|]).
    by apply elem_of_nil in Hin.
Defined.

(** ** [draw_ascii] on a tree of one terminal *)

Lemma py_int_Z (x : Q) (k : Z) : (x == inject_Z k)%Q → py_int x = k.
Proof.
  intros Hx. unfold py_int. destruct (Qle_bool 0 x).
  - rewrite Hx. apply Qfloor_Z.
  - rewrite Hx. apply Qceiling_Z.
Qed.

Lemma py_range_cons a b : a < b → py_range a b = a :: py_range (a + 1) b.
Proof.
  intros Hlt. unfold py_range.
  replace (Z.to_nat (b - a)) with (S (Z.to_nat (b - (a + 1)))) by lia.
  cbn [seq fmap list_fmap]. f_equal; [lia|].
  rewrite <- seq_shift, <- list_fmap_compose.
  apply list_fmap_ext. intros _ k _. simpl. lia.
Qed.

Lemma set_cell_outside h w m row col ch :
  shaped h w m → 0 ≤ row < Z.of_nat h → Z.of_nat w ≤ col →
  DrawAscii.set_cell m row col ch = Raise IndexError.
Proof.
  intros [Hlen Hrows] Hrow Hcol.
  destruct (lookup_lt_is_Some_2 m (Z.to_nat row)) as [r Hr]; [lia|].
  rewrite Forall_lookup in Hrows. destruct (Hrows _ _ Hr) as [Hw _].
  unfold DrawAscii.set_cell, py_getitem, py_setitem, len.
  destruct (Z.ltb_spec row 0); [lia|].
  destruct (Z.ltb_spec row 0); [lia|]. rewrite Hr. simpl.
  destruct (Z.ltb_spec col 0); [lia|].
  destruct (Z.ltb_spec col 0); [lia|].
  destruct (Z.leb_spec (Z.of_nat (length r)) col); [done|lia].
Qed.

(** A horizontal line that ends one column after the last. *)
Lemma line_past_the_end h w row :
  0 ≤ row < Z.of_nat h →
  ∀ k a i m,
  Z.of_nat k = Z.of_nat w - a → 0 ≤ a → shaped h w m →
  for_each (λ (_ : nat) col m, DrawAscii.set_cell m row col "_"%char)
    i (py_range a (Z.of_nat w + 1)) m = Raise IndexError.
Proof.
  intros Hrow. induction k as [|k IH]; intros a i m Hk Ha Hm.
  - rewrite py_range_cons by lia. cbn [for_each].
    rewrite (set_cell_outside h w); [done..|lia].
  - rewrite py_range_cons by lia. cbn [for_each].
    destruct (set_cell_total h w m row a "_"%char) as (m' & -> & Hm');
      [done|right; by left|lia..|].
    cbn [mbind Res_bind]. apply IH; [lia..|done].
Qed.

Lemma single_tip_depths u tree tip :
  clades (root tree) = [tip] → clades tip = [] →
  BaseTree.depths u tree
  = <[[0%nat] := (0 + BaseTree.depth_of u tip)%Q]> (<[[] := 0%Q]> ∅).
Proof.
  destruct tree as [[nm bl cf cfs subs] rt tn]. simpl. intros ->.
  destruct tip as [nm' bl' cf' cfs' subs']. simpl. intros ->.
  reflexivity.
Qed.

Lemma two_values_max (x : Q) m :
  py_max (values (<[[0%nat] := x]> (<[[] := 0%Q]> (∅ : gmap path Q)))) = Ok m →
  (m = 0%Q ∨ m = x) ∧ (0 <= m)%Q ∧ (x <= m)%Q.
Proof.
  intros Hm.
  set (d := <[[0%nat] := x]> (<[[] := 0%Q]> (∅ : gmap path Q))) in *.
  assert (d !! [] = Some 0%Q) as Hroot by done.
  assert (d !! [0%nat] = Some x) as Htip by done.
  destruct (py_max_spec (values d)) as (m' & Hm' & Hin & Hmax).
  { by eapply values_nonempty. }
  rewrite Hm in Hm'. injection Hm' as <-.
  split; [|split; apply Hmax; by eapply elem_of_values].
  unfold values in Hin. apply list_elem_of_fmap in Hin as ([k v] & -> & Hin).
  apply elem_of_map_to_list in Hin. unfold d in Hin.
  apply lookup_insert_Some in Hin as [[_ <-]|[_ Hin]]; [by right|].
  apply lookup_insert_Some in Hin as [[_ <-]|[_ Hin]]; [by left|done].
Qed.

Lemma single_tip_columns tree tip taxa drawing_width :
  clades (root tree) = [tip] → clades tip = [] → len taxa = 1 →
  ∃ cols,
    DrawAscii.get_col_positions taxa drawing_width tree = Ok cols ∧
    cols !! [] = Some 1 ∧ cols !! [0%nat] = Some (drawing_width + 1).
Proof.
  intros Hroot Htip Hone. unfold DrawAscii.get_col_positions.
  rewrite !(single_tip_depths _ tree tip Hroot Htip), Hone.
  destruct (max_depth_exists false tree) as [m Hm].
  rewrite (single_tip_depths _ tree tip Hroot Htip) in Hm. rewrite Hm.
  cbn [mbind Res_bind]. change (1 <=? 0) with false. cbv iota.
  cbn [mbind Res_bind]. change (Z.log2_up 1) with 0.
  set (x := λ u, (0 + BaseTree.depth_of u tip)%Q).
  change (0 + BaseTree.depth_of false tip)%Q with (x false) in *.
  change (0 + BaseTree.depth_of true tip)%Q with (x true) in *.
  set (D := λ u, <[[0%nat] := x u]> (<[[] := 0%Q]> (∅ : gmap path Q))).
  change (<[[0%nat] := x false]> (<[[] := 0%Q]> ∅)) with (D false) in *.
  change (<[[0%nat] := x true]> (<[[] := 0%Q]> ∅)) with (D true).
  (* the depths chosen, and their maximum: the depth of the tip *)
  assert (∃ u, (if Qeq_bool m 0 then D true else D false) = D u ∧
               py_max (values (D u)) = Ok (x u) ∧ ¬ (x u == 0)%Q)
    as (u & -> & -> & Hnz).
  { destruct (Qeq_bool m 0) eqn:Hzero.
    - exists true. split; [done|].
      destruct (max_depth_exists true tree) as [m' Hm'].
      rewrite (single_tip_depths _ tree tip Hroot Htip) in Hm'.
      fold (x true) in Hm'. fold (D true) in Hm'. rewrite Hm'.
      apply two_values_max in Hm' as ([->| ->] & _ & Hle).
      + by apply Qle_bool_iff in Hle.
      + split; [done|]. by intros Heq%Qeq_bool_iff.
    - exists false. split; [done|]. rewrite Hm.
      apply two_values_max in Hm as ([->| ->] & _ & _); [done|].
      split; [done|]. intros Heq%Qeq_bool_iff. congruence. }
  cbn [mbind Res_bind]. unfold py_truediv.
  assert (Qeq_bool (x u) 0 = false) as ->.
  { destruct (Qeq_bool (x u) 0) eqn:Heq; [|done].
    by apply Qeq_bool_iff in Heq. }
  cbn [mbind Res_bind]. eexists. split; [done|]. split.
  - unfold D. rewrite lookup_fmap, lookup_insert_ne, lookup_insert_eq by done.
    simpl. f_equal. apply py_int_Z. ring.
  - unfold D. rewrite lookup_fmap, lookup_insert_eq. simpl. f_equal.
    apply py_int_Z. rewrite inject_Z_plus, Z.sub_0_r.
    apply Qplus_inj_r. by apply Qmult_div_r.
Qed.

(** X9: [draw_ascii] raises IndexError on every tree whose root has one
    child that is a terminal without a branch length, whatever the label,
    for every column width up to 2^30 in absolute value: the unit branch
    lengths are assumed, the columns are integers that the floats carry
    exactly, the terminal is in the column after the last of the drawing,
    and its line ends one column after the last. *)
Theorem draw_ascii_single_tip tree tip column_width :
  clades (root tree) = [tip] → clades tip = [] →
  branch_length tip = None →
  Z.abs column_width ≤ 2 ^ 30 →
  draw_ascii tree column_width = Raise IndexError.
Proof.
  intros Hroot Htip _ _. unfold draw_ascii.
  assert (BaseTree.get_terminals tree = [([0%nat], tip)]) as ->.
  { unfold BaseTree.get_terminals.
    rewrite terminals_at_unfold, Hroot. cbn [fold_each].
    by rewrite terminals_at_unfold, Htip. }
  cbn [fmap list_fmap py_max_int foldl mbind Res_bind snd].
  set (dw := column_width - _ - 1).
  destruct (single_tip_columns tree tip [([0%nat], tip)] dw Hroot Htip eq_refl)
    as (cols & -> & Hc0 & Hc1).
  cbn [mbind Res_bind].
  (* the rows *)
  assert (clades (root tree) ≠ []) as Hne by (by rewrite Hroot).
  destruct (get_row_positions_spec tree Hne) as (rows & Hrows & Htips & Hmid).
  assert (BaseTree.get_terminals tree = [([0%nat], tip)]) as Htaxa.
  { unfold BaseTree.get_terminals.
    rewrite terminals_at_unfold, Hroot. cbn [fold_each].
    by rewrite terminals_at_unfold, Htip. }
  rewrite Htaxa in Hrows. rewrite Hrows. cbn [mbind Res_bind].
  assert (rows !! [0%nat] = Some 0) as Hr1.
  { apply (Htips 0%nat ([0%nat], tip)). by rewrite Htaxa. }
  assert (rows !! [] = Some 0) as Hr0.
  { destruct (Hmid [] (root tree) eq_refl Hne) as (a & b & Ha & Hb & ->).
    rewrite Hroot in Hb. simpl in Ha, Hb. by simplify_eq. }
  (* the drawing *)
  change (Z.to_nat (2 * len [([0%nat], tip)] - 1)) with 1%nat.
  pose proof (replicate_shaped 1 (Z.to_nat dw)) as Hm0.
  set (m0 := replicate 1 (replicate (Z.to_nat dw) " "%char)) in *.
  assert (DrawAscii.draw_clade cols rows (root tree) [] 0 m0 = Raise IndexError)
    as ->; [|done].
  destruct (root tree) as [nm bl cf cfs subs]. simpl in Hroot. subst subs.
  cbn [DrawAscii.draw_clade clades].
  rewrite (py_lookup_Some _ _ _ Hc0), (py_lookup_Some _ _ _ Hr0).
  cbn [mbind Res_bind]. change (py_range 0 1) with [0]. cbn [for_each].
  destruct (decide (dw ≤ 0)) as [Hsmall|Hbig].
  { rewrite (set_cell_outside 1 (Z.to_nat dw)); [done..|lia]. }
  destruct (set_cell_total 1 (Z.to_nat dw) m0 0 0 "_"%char)
    as (m1 & -> & Hm1); [done|right; by left|lia..|].
  cbn [mbind Res_bind].
  change (py_getitem [tip] 0) with (Ok (0%nat, tip)).
  change (py_getitem [tip] (-1)) with (Ok (0%nat, tip)).
  cbn [mbind Res_bind fst app].
  rewrite (py_lookup_Some _ _ _ Hr1), (py_lookup_Some _ _ _ Hc1).
  cbn [mbind Res_bind]. change (py_range (0 + 1) (0 + 1)) with (@nil Z).
  change (for_each _ 0%nat [] m1) with (Ok m1). cbn [mbind Res_bind].
  destruct (Z.ltb_spec (dw + 1 - 1) 2) as [Hone|Hmore].
  { (* the comma of a short branch *)
    rewrite (set_cell_outside 1 (Z.to_nat dw)); [done..|lia]. }
  cbn [mbind Res_bind for_each].
  (* the line of the terminal *)
  destruct tip as [nm' bl' cf' cfs' subs']. simpl in Htip. subst subs'.
  cbn [DrawAscii.draw_clade clades app].
  rewrite (py_lookup_Some _ _ _ Hc1), (py_lookup_Some _ _ _ Hr1).
  cbn [mbind Res_bind].
  replace (dw + 1) with (Z.of_nat (Z.to_nat dw) + 1) by lia.
  rewrite (line_past_the_end 1 (Z.to_nat dw) 0 ltac:(lia)
             (Z.to_nat (dw - 2)) (1 + 1)); [done|lia..|done].
Qed.

(** X9 on a root with the one terminal A, in 80 columns. *)
Lemma draw_ascii_single_tip_witness :
  draw_ascii bare_tip 80 = Raise IndexError.
Proof.
  apply (draw_ascii_single_tip bare_tip
           (mkClade (Some "A"%string) None None None []) 80);
    [reflexivity..|by vm_compute].
Defined.

(** ** [draw]: runs that return *)

Section returns.
Context {St : Type}.




Lemma returns_lift {A} (x : Res A) a : x = Ok a → returns (lift x : M St A).
Proof. intros -> s. by exists a, s. Qed.





Lemma returns_unit (m : M St unit) :
  returns m ↔ ∀ s, ∃ s', m s = (Ok tt, s').
Proof.
  split; intros Hm s.
  - destruct (Hm s) as ([] & s' & Hrun). eauto.
  - destruct (Hm s) as (s' & Hrun). eauto.
Qed.










End returns.

(** ** [draw_clade] *)









Section draw_returns.
Variables (lw0 : Q) (float_str : Q → string) (tree : Tree) (a : Draw.Args).
Variables (format_branch_label : path → Clade → option string).
Variables (get_label_color : string → string) (x_posns y_posns : gmap path Q).









End draw_returns.

(** ** The layouts cover the tree *)

Lemma get_x_positions_covers tree :
  ∃ x_posns, Draw.get_x_positions tree = Ok x_posns ∧
             covers x_posns (root tree) [].
Proof.
  unfold Draw.get_x_positions.
  destruct (max_depth_exists false tree) as [m ->]. cbn [mbind Res_bind].
  destruct (Qeq_bool m 0); eexists; (split; [done|]);
    intros q c' Hq; by eapply depths_is_Some.
Qed.

Lemma get_y_positions_covers tree :
  ∃ y_posns, Draw.get_y_positions tree = Ok y_posns ∧
             covers y_posns (root tree) [].
Proof.
  destruct (get_y_positions_spec tree) as (heights & Hrun & Htips & Hmid).
  exists heights. split; [done|]. intros q c' Hq. simpl.
  destruct (decide (clades c' = [])) as [Hnil|Hne].
  - assert (q ∈ (BaseTree.get_terminals tree).*1) as Hin.
    { apply elem_of_terminals. by exists c'. }
    apply list_elem_of_fmap in Hin as (tip & -> & Hin).
    apply list_elem_of_lookup in Hin as [j Hj].
    rewrite (Htips j tip Hj). eauto.
  - destruct (Hmid q c' Hq Hne) as (y1 & y2 & _ & _ & ->). eauto.
Qed.

(** ** [draw] in the two Cartesian orientations *)











(** ** [draw]: what is on the axes when it returns *)

Lemma for_each_M_Ok_inv {St A} (R : relation St) `{!PreOrder R}
    (body : nat → A → M St unit) l :
  (∀ j x, preserves R (body j x)) →
  ∀ i s s',
  for_each_M body i l s = (Ok tt, s') →
  ∀ j x, l !! j = Some x →
    ∃ s1 s2, R s s1 ∧ body (i + j)%nat x s1 = (Ok tt, s2) ∧ R s2 s'.
Proof.
  intros Hbody. induction l as [|y l IH]; intros i s s' Hrun j x Hj; [done|].
  simpl in Hrun. apply bind_Ok_inv in Hrun as ([] & s1 & Hy & Hrun).
  destruct j as [|j]; simpl in Hj.
  - simplify_eq. exists s, s1. rewrite Nat.add_0_r. split_and!; [done..|].
    eapply (preserves_for_each_M R); [|done]. intros. apply Hbody.
  - destruct (IH _ _ _ Hrun j x Hj) as (s2 & s3 & H12 & Hx & H3).
    exists s2, s3. rewrite <- Nat.add_succ_comm. split_and!; [|done..].
    etransitivity; [|done]. by eapply Hbody.
Qed.

Section draw_branches.
Variables (lw0 : Q) (float_str : Q → string) (tree : Tree) (a : Draw.Args).
Variables (format_branch_label : path → Clade → option string).
Variables (get_label_color : string → string) (x_posns y_posns : gmap path Q).

Lemma draw_clade_branches c :
  Draw.orient_tree a = "vertical" →
  ∀ p x_start color lw s s',
  Draw.draw_clade lw0 tree a format_branch_label get_label_color
    x_posns y_posns c p x_start color lw s = (Ok tt, s') →
  ∀ q c', subclade c q = Some c' →
    ∃ xs x y,
      branch_start x_posns x_start p q xs ∧
      x_posns !! (p ++ q) = Some x ∧ y_posns !! (p ++ q) = Some y ∧
      Draw.mkLineCollection ((xs, y), (x, y))
        (style_from (Draw.heap s) lw0 color lw p q).1
        (style_from (Draw.heap s) lw0 color lw p q).2 "solid"
      ∈ Draw.horizontal_linecollections s'.
Proof.
  intros Hv.
  induction c as [nm bl cf cfs subs IH] using Clade_ind.
  intros p x_start color lw s s' H. rewrite Forall_lookup in IH.
  cbn [Draw.draw_clade clades] in H. rewrite Hv in H.
  change (String.eqb "vertical" "vertical") with true in H. cbv iota in H.
  inv_bind H x_here. inv_bind H y_here. inv_bind H xmax.
  inv_bind H own_color. inv_bind H own_width. simplify_eq.
  apply bind_Ok_inv in H as (u & s1 & Hline & H).
  apply draw_clade_lines_horizontal in Hline.
  assert (Draw.heap s1 = Draw.heap s) as Hheap1 by (by subst s1).
  (* what follows the line of the clade *)
  apply bind_Ok_inv in H as (u1 & s0 & Hw & H).
  tail_grows Hw.
  { apply (preserves_when grows), preserves_draw_clade_lines. }
  rename Hw into Hg0.
  apply bind_Ok_inv in H as (u2 & s2 & Hl & H).
  tail_grows Hl.
  { apply preserves_draw_label. intros. apply preserves_issue. }
  rename Hl into Hg2.
  apply bind_Ok_inv in H as (u3 & s3 & Hb & H).
  tail_grows Hb.
  { preserves_auto. }
  rename Hb into Hg3.
  assert (grows s1 s3) as Hg13 by (do 2 (etransitivity; [|done]); done).
  pose proof H as Hg'. tail_grows Hg'.
  { preserves_auto. eapply preserves_draw_clade. }
  assert (Draw.mkLineCollection ((x_start, y_here), (x_here, y_here))
            (default color (clade_color (Draw.heap s) !! p))
            match clade_width (Draw.heap s) !! p with
            | Some w => (w * lw0)%Q
            | None => lw
            end "solid"
          ∈ Draw.horizontal_linecollections s') as Hown.
  { destruct Hg13 as (_ & _ & Hh13 & _). destruct Hg' as (_ & _ & Hh' & _).
    eapply elem_of_prefix; [|done]. eapply elem_of_prefix; [|done].
    rewrite Hline. simpl. apply elem_of_app. right. by left. }
  intros q c' Hq. destruct q as [|j q].
  - (* the clade itself *)
    exists x_start, x_here, y_here. rewrite app_nil_r.
    unfold py_lookup in *.
    destruct (x_posns !! p) eqn:Hxp; [|done].
    destruct (y_posns !! p) eqn:Hyp; [|done]. simplify_eq.
    split_and!; [by left|done..].
  - (* a clade below: the call on the child [j] *)
    simpl in Hq. destruct (subs !! j) as [sub|] eqn:Hj; [|done]. simpl in Hq.
    destruct subs as [|sub0 rest] eqn:Hsubs; [done|]. rewrite <- Hsubs in *.
    rename H into Hrest.
    inv_bind Hrest c_first. inv_bind Hrest y_top. inv_bind Hrest c_last.
    inv_bind Hrest y_bot.
    apply bind_Ok_inv in Hrest as (u4 & s4 & Hvert & Hrest).
    apply draw_clade_lines_vertical in Hvert.
    destruct (for_each_M_Ok_inv grows _ subs
                (λ j x, preserves_draw_clade lw0 tree a format_branch_label
                          get_label_color x_posns y_posns x _ _ _ _)
                _ _ _ Hrest j sub Hj)
      as (s5 & s6 & Hg5 & Hchild & Hg6).
    rewrite Nat.add_0_l in Hchild.
    destruct (IH j sub Hj _ _ _ _ _ _ Hchild q c' Hq)
      as (xs & x & y & Hstart & Hx & Hy & Hin).
    exists xs, x, y. rewrite <- !(snoc_app p j q).
    assert (Draw.heap s5 = Draw.heap s) as Hheap5.
    { destruct Hg5 as (-> & _). rewrite Hvert. simpl.
      destruct Hg13 as (-> & _). done. }
    split_and!; [|done..|].
    + destruct Hstart as [[-> ->]|(r & i & -> & Hr)].
      * right. exists [], j. rewrite app_nil_r. split; [done|].
        unfold py_lookup in *. destruct (x_posns !! p); [|done].
        by simplify_eq.
      * right. exists (j :: r), i. split; [done|]. by rewrite <- snoc_app.
    + destruct Hg6 as (_ & _ & Hh6 & _).
      eapply elem_of_prefix; [|done].
      rewrite Hheap5 in Hin. cbn [style_from]. exact Hin.
Qed.

End draw_branches.

(** X13: in the vertical orientation, when [draw] returns, every clade but
    the root has its branch on the axes: a line collection from the depth
    of its parent to its own depth, at its own height, in the color and
    the line width handed down to it (its own, or else those of the
    nearest ancestor that has them, or else black and the default width). *)
Theorem draw_draws_every_branch lw fs plt tree a h x_posns y_posns :
  Draw.orient_tree a = "vertical" →
  (draw lw fs plt tree a h).1 = Ok tt →
  Draw.get_x_positions tree = Ok x_posns →
  Draw.get_y_positions tree = Ok y_posns →
  ∀ r i c', subclade (root tree) (r ++ [i]) = Some c' →
    ∃ xs x y,
      x_posns !! r = Some xs ∧
      x_posns !! (r ++ [i]) = Some x ∧ y_posns !! (r ++ [i]) = Some y ∧
      Draw.axes_add_collection
        (Draw.mkLineCollection ((xs, y), (x, y))
           (style_from h lw "k" lw [] (r ++ [i])).1
           (style_from h lw "k" lw [] (r ++ [i])).2 "solid")
      ∈ Draw.calls (draw lw fs plt tree a h).2.
Proof.
  intros Hv Hok Hx Hy r i c' Hq. unfold draw in *.
  destruct (Draw.draw_body lw fs plt tree a (Draw.mkPlot h [] [] []))
    as [res s_end] eqn:Hrun.
  simpl in Hok. subst res. simpl. unfold Draw.draw_body in Hrun.
  apply bind_Ok_inv in Hrun as (u & s1 & Hfig & Hrun).
  tail_grows Hrun.
  { preserves_auto. apply preserves_pyplot_option. }
  unfold Draw.draw_figure in Hfig.
  inv_bind Hfig u0. inv_bind Hfig f. inv_bind Hfig x'. inv_bind Hfig y'.
  simplify_eq.
  repeat match goal with
  | H : Ok _ = _ |- _ => symmetry in H
  end.
  assert (x' = x_posns) as -> by congruence.
  assert (y' = y_posns) as -> by congruence.
  apply bind_Ok_inv in Hfig as (u1 & s2 & Haxes & Hfig).
  tail_grows Haxes. { apply preserves_setup_axes. }
  apply bind_Ok_inv in Hfig as (u2 & s3 & Htree & Hfig).
  tail_grows Hfig. { preserves_auto. }
  unfold Draw.draw_tree in Htree. rewrite Hv in Htree.
  change (Draw.str_in "vertical" ["horizontal"; "vertical"]) with true in Htree.
  change (String.eqb "vertical" "vertical") with true in Htree.
  cbv iota in Htree.
  apply bind_Ok_inv in Htree as (u3 & s4 & Hclade & Htree).
  inv_bind Htree hs. simplify_eq.
  rewrite bind_Ok with (1 := add_collections _ _ _) in Htree.
  tail_grows Htree. { preserves_auto. }
  destruct u3.
  destruct (draw_clade_branches lw tree a f _ x_posns y_posns (root tree) Hv
              _ _ _ _ _ _ Hclade (r ++ [i]) c' Hq)
    as (xs & x & y & Hstart & Hxq & Hyq & Hin).
  simpl in Hxq, Hyq.
  destruct Hstart as [[Hnil _]|(r' & i' & Heq & Hxs)]; [by destruct r|].
  apply app_inj_tail in Heq as [<- <-]. simpl in Hxs.
  exists xs, x, y. split_and!; [done..|].
  assert (Draw.heap s2 = h) as Hheap by (by destruct Haxes as (-> & _)).
  rewrite Hheap in Hin.
  destruct Hrun as (_ & Hc1 & _). destruct Hfig as (_ & Hc2 & _).
  destruct Htree as (_ & Hc3 & _).
  eapply elem_of_prefix; [|done]. eapply elem_of_prefix; [|done].
  eapply elem_of_prefix; [|done]. simpl.
  apply elem_of_app. right. by apply list_elem_of_fmap_2.
Qed.

Section draw_labels.
Variables (lw0 : Q) (float_str : Q → string) (tree : Tree) (a : Draw.Args).
Variables (format_branch_label : path → Clade → option string).
Variables (get_label_color : string → string) (x_posns y_posns : gmap path Q).

Lemma draw_clade_labels c :
  Draw.orient_tree a = "vertical" →
  Draw.draw_labels a = true → Draw.align_labels a = false →
  ∀ p x_start color lw s s',
  Draw.draw_clade lw0 tree a format_branch_label get_label_color
    x_posns y_posns c p x_start color lw s = (Ok tt, s') →
  ∀ q c' label,
    subclade c q = Some c' →
    Draw.label_func a (p ++ q) c' = Some label → label ≠ "Clade" →
    ∃ x y,
      x_posns !! (p ++ q) = Some x ∧ y_posns !! (p ++ q) = Some y ∧
      label_text a get_label_color x y label ∈ Draw.calls s'.
Proof.
  intros Hv Hlabels Halign.
  induction c as [nm bl cf cfs subs IH] using Clade_ind.
  intros p x_start color lw s s' H. rewrite Forall_lookup in IH.
  cbn [Draw.draw_clade clades] in H. rewrite Hv in H.
  change (String.eqb "vertical" "vertical") with true in H. cbv iota in H.
  inv_bind H x_here. inv_bind H y_here. inv_bind H xmax.
  inv_bind H own_color. inv_bind H own_width. simplify_eq.
  apply bind_Ok_inv in H as (u & s1 & Hline & H).
  apply bind_Ok_inv in H as (u1 & s0 & Hw & H).
  apply bind_Ok_inv in H as (u2 & s2 & Hl & H).
  pose proof H as Hg'. tail_grows Hg'.
  { preserves_auto. eapply preserves_draw_clade. }
  intros q c' label Hq Hlabel Hname. destruct q as [|j q].
  - (* the clade itself *)
    simpl in Hq. injection Hq as <-. rewrite app_nil_r in *.
    exists x_here, y_here.
    unfold py_lookup in *.
    destruct (x_posns !! p) eqn:Hxp; [|done].
    destruct (y_posns !! p) eqn:Hyp; [|done]. simplify_eq.
    split; [done|]. split; [done|].
    destruct Hg' as (_ & Hc' & _). eapply elem_of_prefix; [|done].
    unfold Draw.draw_label in Hl. rewrite Hlabel in Hl.
    apply String.eqb_neq in Hname. rewrite Hname, Hlabels, Halign in Hl.
    cbn [andb when] in Hl. apply issue_inv in Hl as ->. simpl.
    apply elem_of_app. right. by left.
  - (* a clade below: the call on the child [j] *)
    simpl in Hq. destruct (subs !! j) as [sub|] eqn:Hj; [|done]. simpl in Hq.
    apply bind_Ok_inv in H as (u3 & s3 & Hb & H).
    destruct subs as [|sub0 rest] eqn:Hsubs; [done|]. rewrite <- Hsubs in *.
    rename H into Hrest.
    inv_bind Hrest c_first. inv_bind Hrest y_top. inv_bind Hrest c_last.
    inv_bind Hrest y_bot.
    apply bind_Ok_inv in Hrest as (u4 & s4 & Hvert & Hrest).
    destruct (for_each_M_Ok_inv grows _ subs
                (λ j x, preserves_draw_clade lw0 tree a format_branch_label
                          get_label_color x_posns y_posns x _ _ _ _)
                _ _ _ Hrest j sub Hj)
      as (s5 & s6 & Hg5 & Hchild & Hg6).
    rewrite Nat.add_0_l in Hchild. rewrite <- (snoc_app p j q) in Hlabel.
    destruct (IH j sub Hj _ _ _ _ _ _ Hchild q c' label Hq Hlabel Hname)
      as (x & y & Hx & Hy & Hin).
    exists x, y. rewrite <- !(snoc_app p j q).
    split; [done|]. split; [done|].
    destruct Hg6 as (_ & Hc6 & _). by eapply elem_of_prefix.
Qed.

End draw_labels.

(** X14: in the vertical orientation, with [draw_labels] set and
    [align_labels] not, when [draw] returns, every clade whose label is
    neither None nor the class name has its label on the axes: the text is
    the label after a space, at the depth and the height of the clade, in
    the color that [label_colors] gives the label. *)
Theorem draw_places_every_label lw fs plt tree a h x_posns y_posns :
  Draw.orient_tree a = "vertical" →
  Draw.draw_labels a = true → Draw.align_labels a = false →
  (draw lw fs plt tree a h).1 = Ok tt →
  Draw.get_x_positions tree = Ok x_posns →
  Draw.get_y_positions tree = Ok y_posns →
  ∀ q c' label,
    subclade (root tree) q = Some c' →
    Draw.label_func a q c' = Some label → label ≠ "Clade" →
    ∃ x y,
      x_posns !! q = Some x ∧ y_posns !! q = Some y ∧
      label_text a (Draw.choose_get_label_color (Draw.label_colors a)) x y label
      ∈ Draw.calls (draw lw fs plt tree a h).2.
Proof.
  intros Hv Hlabels Halign Hok Hx Hy q c' label Hq Hlabel Hname.
  unfold draw in *.
  destruct (Draw.draw_body lw fs plt tree a (Draw.mkPlot h [] [] []))
    as [res s_end] eqn:Hrun.
  simpl in Hok. subst res. simpl. unfold Draw.draw_body in Hrun.
  apply bind_Ok_inv in Hrun as (u & s1 & Hfig & Hrun).
  tail_grows Hrun.
  { preserves_auto. apply preserves_pyplot_option. }
  unfold Draw.draw_figure in Hfig.
  inv_bind Hfig u0. inv_bind Hfig f. inv_bind Hfig x'. inv_bind Hfig y'.
  simplify_eq.
  repeat match goal with
  | H : Ok _ = _ |- _ => symmetry in H
  end.
  assert (x' = x_posns) as -> by congruence.
  assert (y' = y_posns) as -> by congruence.
  apply bind_Ok_inv in Hfig as (u1 & s2 & Haxes & Hfig).
  apply bind_Ok_inv in Hfig as (u2 & s3 & Htree & Hfig).
  tail_grows Hfig. { preserves_auto. }
  unfold Draw.draw_tree in Htree. rewrite Hv in Htree.
  change (Draw.str_in "vertical" ["horizontal"; "vertical"]) with true in Htree.
  cbv iota in Htree.
  apply bind_Ok_inv in Htree as (u3 & s4 & Hclade & Htree).
  tail_grows Htree. { preserves_auto. }
  destruct u3.
  destruct (draw_clade_labels lw tree a f _ x_posns y_posns (root tree)
              Hv Hlabels Halign _ _ _ _ _ _ Hclade q c' label Hq Hlabel Hname)
    as (x & y & Hxq & Hyq & Hin).
  exists x, y. split; [done|]. split; [done|].
  destruct Hrun as (_ & Hc1 & _). destruct Hfig as (_ & Hc2 & _).
  destruct Htree as (_ & Hc3 & _).
  eapply elem_of_prefix; [|done]. eapply elem_of_prefix; [|done].
  by eapply elem_of_prefix.
Qed.

(** X13 on ((A, B), C), at the branch of B. *)
Lemma draw_draws_every_branch_witness :
  ∃ x_posns y_posns xs x y,
    Draw.get_x_positions tree_ab_c = Ok x_posns ∧
    Draw.get_y_positions tree_ab_c = Ok y_posns ∧
    x_posns !! [0%nat] = Some xs ∧
    x_posns !! [0%nat; 1%nat] = Some x ∧ y_posns !! [0%nat; 1%nat] = Some y ∧
    Draw.axes_add_collection
      (Draw.mkLineCollection ((xs, y), (x, y)) "k" 1 "solid")
    ∈ Draw.calls (draw 1 no_float_str pyplot tree_ab_c default_args no_annotations).2.
Proof.
  destruct (Draw.get_x_positions tree_ab_c) as [x_posns|e] eqn:Hx;
    [|by vm_compute in Hx].
  destruct (Draw.get_y_positions tree_ab_c) as [y_posns|e] eqn:Hy;
    [|by vm_compute in Hy].
  destruct (draw_draws_every_branch 1 no_float_str pyplot tree_ab_c default_args
              no_annotations x_posns y_posns eq_refl ltac:(by vm_compute)
              Hx Hy [0%nat] 1%nat (leaf "B") eq_refl)
    as (xs & x & y & Hxs & Hxq & Hyq & Hin).
  by exists x_posns, y_posns, xs, x, y.
Defined.

(** X14 on ((A, B), C), at the label of B. *)
Lemma draw_places_every_label_witness :
  ∃ x_posns y_posns x y,
    Draw.get_x_positions tree_ab_c = Ok x_posns ∧
    Draw.get_y_positions tree_ab_c = Ok y_posns ∧
    x_posns !! [0%nat; 1%nat] = Some x ∧ y_posns !! [0%nat; 1%nat] = Some y ∧
    Draw.axes_text x y (Some " B")
      [("verticalalignment", Draw.VStr "center");
       ("horizontalalignment", Draw.VStr "left");
       ("color", Draw.VStr "black")]
    ∈ Draw.calls (draw 1 no_float_str pyplot tree_ab_c default_args no_annotations).2.
Proof.
  destruct (Draw.get_x_positions tree_ab_c) as [x_posns|e] eqn:Hx;
    [|by vm_compute in Hx].
  destruct (Draw.get_y_positions tree_ab_c) as [y_posns|e] eqn:Hy;
    [|by vm_compute in Hy].
  destruct (draw_places_every_label 1 no_float_str pyplot tree_ab_c default_args
              no_annotations x_posns y_posns eq_refl eq_refl eq_refl
              ltac:(by vm_compute) Hx Hy [0%nat; 1%nat] (leaf "B") "B"
              eq_refl eq_refl ltac:(discriminate))
    as (x & y & Hxq & Hyq & Hin).
  by exists x_posns, y_posns, x, y.
Defined.

Lemma pyplot_call_returned plt key args kw s u s' :
  Draw.pyplot_call plt key args kw s = (Ok u, s') →
  ∃ f, plt key = Some f ∧ f args kw = Ok tt.
Proof.
  unfold Draw.pyplot_call. destruct (plt key) as [f|]; [|done].
  unfold mbind, M_bind, Draw.issue, modify, lift.
  destruct (f args kw) as [[]|e] eqn:Hf; [eauto|done].
Qed.

Lemma options_returned plt l :
  ∀ i s s',
  for_each_M (λ _ kv, Draw.pyplot_option plt kv.1 kv.2) i l s = (Ok tt, s') →
  Forall (forwarded plt) l.
Proof.
  induction l as [|[key v] l IH]; intros i s s' Hrun; [constructor|].
  simpl in Hrun. apply bind_Ok_inv in Hrun as (u & s1 & Hopt & Hrun).
  constructor; [|by eapply IH].
  unfold forwarded, option_call. simpl.
  destruct v as [str|kw|[|arg args]|args kw|e|e]; simpl in Hopt; try done;
    try (by destruct (plt key));
    (split; [done|]); by eapply pyplot_call_returned.
Qed.

(** X15: when [draw] returns, the calls on the plotting library end with
    the keyword arguments, each passed on to the function of [pyplot] of
    its name in the order given, and then with [plt.show()] when [do_show]
    is set; before them come the calls of everything that [draw] does
    before it looks at the keyword arguments. *)
Theorem draw_ends_with_options_and_show lw fs plt tree a h :
  (draw lw fs plt tree a h).1 = Ok tt →
  ∃ s1,
    Draw.draw_figure lw fs tree a (Draw.mkPlot h [] [] []) = (Ok tt, s1) ∧
    Draw.calls (draw lw fs plt tree a h).2
    = Draw.calls s1 ++ (option_call <$> Draw.kwargs a)
      ++ (if Draw.do_show a then [Draw.plt_show] else []).
Proof.
  unfold draw.
  destruct (Draw.draw_body lw fs plt tree a (Draw.mkPlot h [] [] []))
    as [res s_end] eqn:Hrun.
  simpl. intros ->. unfold Draw.draw_body in Hrun.
  apply bind_Ok_inv in Hrun as ([] & s1 & Hfig & Hrun).
  exists s1. split; [done|].
  apply bind_Ok_inv in Hrun as ([] & s2 & Hopts & Hrun).
  pose proof (options_returned _ _ _ _ _ Hopts) as Hpassed.
  rewrite (options_passed_on _ _ _ _ Hpassed) in Hopts.
  injection Hopts as <-.
  destruct (Draw.do_show a); injection Hrun as <-; simpl.
  - by rewrite <- app_assoc.
  - by rewrite app_nil_r.
Qed.

(** X15 on ((A, B), C) with the keyword arguments [axhline={"y": 1}],
    [title=("T",)] and [axvline=((2,), {"color": "r"})], in this order, and
    [do_show] set. *)
Lemma draw_ends_with_options_and_show_witness :
  let a := with_kwargs
             [("axhline"%string, Draw.kw_dict [("y"%string, "1"%string)]);
              ("title"%string, Draw.kw_args ["T"%string]);
              ("axvline"%string,
               Draw.kw_args_kw ["2"%string] [("color"%string, "r"%string)])]
             default_args in
  ∃ s1,
    Draw.draw_figure 1 no_float_str tree_ab_c a
      (Draw.mkPlot no_annotations [] [] []) = (Ok tt, s1) ∧
    Draw.calls (draw 1 no_float_str pyplot tree_ab_c a no_annotations).2
    = Draw.calls s1
      ++ [Draw.plt_option "axhline" [] [("y"%string, "1"%string)];
          Draw.plt_option "title" ["T"%string] [];
          Draw.plt_option "axvline" ["2"%string] [("color"%string, "r"%string)]]
      ++ [Draw.plt_show].
Proof.
  intros a.
  apply (draw_ends_with_options_and_show 1 no_float_str pyplot tree_ab_c
           a no_annotations).
  by vm_compute.
Defined.

Lemma py_lookup_inv `{Countable K} {A} (d : gmap K A) k v :
  Ok v = py_lookup d k → d !! k = Some v.
Proof. unfold py_lookup. destruct (d !! k); [|done]. by intros [= ->]. Qed.

Section draw_connectors.
Variables (lw0 : Q) (float_str : Q → string) (tree : Tree) (a : Draw.Args).
Variables (format_branch_label : path → Clade → option string).
Variables (get_label_color : string → string) (x_posns y_posns : gmap path Q).

Lemma draw_clade_connectors c :
  Draw.orient_tree a = "vertical" →
  ∀ p x_start color lw s s',
  Draw.draw_clade lw0 tree a format_branch_label get_label_color
    x_posns y_posns c p x_start color lw s = (Ok tt, s') →
  ∀ q c', subclade c q = Some c' → clades c' ≠ [] →
    ∃ x y_top y_bot,
      x_posns !! (p ++ q) = Some x ∧
      y_posns !! (p ++ q ++ [0%nat]) = Some y_top ∧
      y_posns !! (p ++ q ++ [(length (clades c') - 1)%nat]) = Some y_bot ∧
      Draw.mkLineCollection ((x, y_bot), (x, y_top))
        (style_from (Draw.heap s) lw0 color lw p q).1
        (style_from (Draw.heap s) lw0 color lw p q).2 "solid"
      ∈ Draw.vertical_linecollections s'.
Proof.
  intros Hv.
  induction c as [nm bl cf cfs subs IH] using Clade_ind.
  intros p x_start color lw s s' H. rewrite Forall_lookup in IH.
  cbn [Draw.draw_clade clades] in H. rewrite Hv in H.
  change (String.eqb "vertical" "vertical") with true in H. cbv iota in H.
  inv_bind H x_here. inv_bind H y_here. inv_bind H xmax.
  inv_bind H own_color. inv_bind H own_width. simplify_eq.
  apply bind_Ok_inv in H as (u & s1 & Hline & H).
  apply bind_Ok_inv in H as (u1 & s0 & Hw & H).
  apply bind_Ok_inv in H as (u2 & s2 & Hl & H).
  apply bind_Ok_inv in H as (u3 & s3 & Hb & H).
  assert (grows s s3) as Hg3.
  { etransitivity; [|etransitivity; [|etransitivity]].
    - tail_grows Hline; [apply preserves_draw_clade_lines|done].
    - tail_grows Hw;
        [apply (preserves_when grows), preserves_draw_clade_lines|done].
    - tail_grows Hl;
        [apply preserves_draw_label; intros; apply preserves_issue|done].
    - tail_grows Hb; [preserves_auto|done]. }
  intros q c' Hq Hne.
  assert (subs ≠ []) as Hsubs.
  { destruct q as [|j q]; simpl in Hq; [by simplify_eq|].
    by destruct subs. }
  destruct subs as [|sub0 rest] eqn:Hsubs'; [done|]. rewrite <- Hsubs' in *.
  rename H into Hrest.
  inv_bind Hrest c_first. inv_bind Hrest y_top. inv_bind Hrest c_last.
  inv_bind Hrest y_bot.
  apply bind_Ok_inv in Hrest as (u4 & s4 & Hvert & Hrest).
  apply draw_clade_lines_vertical in Hvert.
  pose proof Hrest as Hg'. tail_grows Hg'.
  { preserves_auto. eapply preserves_draw_clade. }
  destruct q as [|j q].
  - (* the clade itself *)
    simpl in Hq. injection Hq as <-. cbn [clades app]. rewrite app_nil_r.
    assert (c_first = (0%nat, sub0)) as ->.
    { rewrite (py_getitem_first subs sub0) in *; [by simplify_eq|].
      by rewrite Hsubs'. }
    destruct (py_getitem_last subs Hsubs) as (lastc & Hlast & Hget).
    assert (c_last = ((length subs - 1)%nat, lastc)) as ->.
    { rewrite Hget in *. by simplify_eq. }
    exists x_here, y_top, y_bot. cbn [fst] in *.
    split_and!; [by apply py_lookup_inv..|].
    destruct Hg' as (_ & _ & _ & Hv'). eapply elem_of_prefix; [|done].
    rewrite Hvert. simpl. apply elem_of_app. right. by left.
  - (* a clade below: the call on the child [j] *)
    simpl in Hq. destruct (subs !! j) as [sub|] eqn:Hj; [|done]. simpl in Hq.
    destruct (for_each_M_Ok_inv grows _ subs
                (λ j x, preserves_draw_clade lw0 tree a format_branch_label
                          get_label_color x_posns y_posns x _ _ _ _)
                _ _ _ Hrest j sub Hj)
      as (s5 & s6 & Hg5 & Hchild & Hg6).
    rewrite Nat.add_0_l in Hchild.
    destruct (IH j sub Hj _ _ _ _ _ _ Hchild q c' Hq Hne)
      as (x & yt & yb & Hx & Hyt & Hyb & Hin).
    exists x, yt, yb. rewrite <- !app_comm_cons.
    rewrite <- (snoc_app p j q), <- (snoc_app p j (q ++ [0%nat])),
      <- (snoc_app p j (q ++ [(length (clades c') - 1)%nat])).
    assert (Draw.heap s5 = Draw.heap s) as Hheap5.
    { destruct Hg5 as (-> & _). rewrite Hvert. simpl.
      by destruct Hg3 as (-> & _). }
    split_and!; [done..|].
    destruct Hg6 as (_ & _ & _ & Hv6).
    eapply elem_of_prefix; [|done].
    rewrite Hheap5 in Hin. cbn [style_from]. exact Hin.
Qed.

End draw_connectors.

Section draw_horizontal.
Variables (lw0 : Q) (float_str : Q → string) (tree : Tree) (a : Draw.Args).
Variables (format_branch_label : path → Clade → option string).
Variables (get_label_color : string → string) (x_posns y_posns : gmap path Q).

Lemma draw_clade_horizontal_lines c :
  Draw.orient_tree a = "horizontal" →
  ∀ p x_start color lw s s',
  Draw.draw_clade lw0 tree a format_branch_label get_label_color
    x_posns y_posns c p x_start color lw s = (Ok tt, s') →
  ∀ q c', subclade c q = Some c' →
    (∃ xs x y,
       branch_start x_posns x_start p q xs ∧
       x_posns !! (p ++ q) = Some x ∧ y_posns !! (p ++ q) = Some y ∧
       Draw.mkLineCollection ((y, xs), (y, x))
         (style_from (Draw.heap s) lw0 color lw p q).1
         (style_from (Draw.heap s) lw0 color lw p q).2 "solid"
       ∈ Draw.vertical_linecollections s') ∧
    (clades c' ≠ [] →
     ∃ x y_top y_bot,
       x_posns !! (p ++ q) = Some x ∧
       y_posns !! (p ++ q ++ [0%nat]) = Some y_top ∧
       y_posns !! (p ++ q ++ [(length (clades c') - 1)%nat]) = Some y_bot ∧
       Draw.mkLineCollection ((y_bot, x), (y_top, x))
         (style_from (Draw.heap s) lw0 color lw p q).1
         (style_from (Draw.heap s) lw0 color lw p q).2 "solid"
       ∈ Draw.horizontal_linecollections s').
Proof.
  intros Hh.
  induction c as [nm bl cf cfs subs IH] using Clade_ind.
  intros p x_start color lw s s' H. rewrite Forall_lookup in IH.
  cbn [Draw.draw_clade clades] in H. rewrite Hh in H.
  change (String.eqb "horizontal" "vertical") with false in H.
  change (String.eqb "horizontal" "horizontal") with true in H.
  cbv iota in H.
  inv_bind H x_here. inv_bind H y_here. inv_bind H xmax.
  inv_bind H own_color. inv_bind H own_width. simplify_eq.
  apply bind_Ok_inv in H as (u & s1 & Hline & H).
  apply draw_clade_lines_vertical in Hline.
  apply bind_Ok_inv in H as (u1 & s0 & Hw & H).
  apply bind_Ok_inv in H as (u2 & s2 & Hl & H).
  apply bind_Ok_inv in H as (u3 & s3 & Hb & H).
  assert (grows s1 s3) as Hg13.
  { etransitivity; [|etransitivity].
    - tail_grows Hw;
        [apply (preserves_when grows), preserves_draw_clade_lines|done].
    - tail_grows Hl;
        [apply preserves_draw_label; intros; apply preserves_issue|done].
    - tail_grows Hb; [preserves_auto|done]. }
  assert (Draw.heap s3 = Draw.heap s) as Hheap3.
  { destruct Hg13 as (-> & _). by rewrite Hline. }
  pose proof H as Hg'. tail_grows Hg'.
  { preserves_auto. eapply preserves_draw_clade. }
  intros q c' Hq. destruct q as [|j q].
  - (* the clade itself *)
    simpl in Hq. injection Hq as <-. cbn [clades app style_from].
    rewrite !app_nil_r. split.
    + exists x_start, x_here, y_here.
      split; [by left|]. split; [by apply py_lookup_inv|].
      split; [by apply py_lookup_inv|].
      destruct Hg13 as (_ & _ & _ & Hv13). destruct Hg' as (_ & _ & _ & Hv').
      eapply elem_of_prefix; [|done]. eapply elem_of_prefix; [|done].
      rewrite Hline. simpl. apply elem_of_app. right. by left.
    + intros Hsubs.
      destruct subs as [|sub0 rest] eqn:Hsubs'; [done|].
      rewrite <- Hsubs' in *. rename H into Hrest.
      inv_bind Hrest c_first. inv_bind Hrest y_top. inv_bind Hrest c_last.
      inv_bind Hrest y_bot.
      apply bind_Ok_inv in Hrest as (u4 & s4 & Hconn & Hrest).
      apply draw_clade_lines_horizontal in Hconn.
      tail_grows Hrest.
      { preserves_auto. eapply preserves_draw_clade. }
      assert (c_first = (0%nat, sub0)) as ->.
      { pose proof (py_getitem_first subs sub0) as Hget0.
        rewrite Hsubs' in Hget0 at 1. specialize (Hget0 eq_refl).
        match goal with
        | Hc : Ok c_first = _ |- _ => rewrite Hget0 in Hc; by injection Hc
        end. }
      destruct (py_getitem_last subs Hsubs) as (lastc & Hlast & Hget).
      assert (c_last = ((length subs - 1)%nat, lastc)) as ->.
      { match goal with
        | Hc : Ok c_last = _ |- _ => rewrite Hget in Hc; by injection Hc
        end. }
      exists x_here, y_top, y_bot. cbn [fst] in *.
      split_and!; [by apply py_lookup_inv..|].
      destruct Hrest as (_ & _ & Hh' & _). eapply elem_of_prefix; [|done].
      rewrite Hconn. simpl. apply elem_of_app. right. by left.
  - (* a clade below: the call on the child [j] *)
    simpl in Hq. destruct (subs !! j) as [sub|] eqn:Hj; [|done]. simpl in Hq.
    destruct subs as [|sub0 rest] eqn:Hsubs'; [done|].
    rewrite <- Hsubs' in *. rename H into Hrest.
    inv_bind Hrest c_first. inv_bind Hrest y_top. inv_bind Hrest c_last.
    inv_bind Hrest y_bot.
    apply bind_Ok_inv in Hrest as (u4 & s4 & Hconn & Hrest).
    apply draw_clade_lines_horizontal in Hconn.
    destruct (for_each_M_Ok_inv grows _ subs
                (λ j x, preserves_draw_clade lw0 tree a format_branch_label
                          get_label_color x_posns y_posns x _ _ _ _)
                _ _ _ Hrest j sub Hj)
      as (s5 & s6 & Hg5 & Hchild & Hg6).
    rewrite Nat.add_0_l in Hchild.
    assert (Draw.heap s5 = Draw.heap s) as Hheap5.
    { destruct Hg5 as (-> & _). by rewrite Hconn. }
    destruct (IH j sub Hj _ _ _ _ _ _ Hchild q c' Hq) as [Hbranch Hconnect].
    rewrite Hheap5 in Hbranch, Hconnect.
    destruct Hg6 as (_ & _ & Hh6 & Hv6).
    rewrite <- !app_comm_cons.
    rewrite <- (snoc_app p j q), <- (snoc_app p j (q ++ [0%nat])),
      <- (snoc_app p j (q ++ [(length (clades c') - 1)%nat])).
    cbn [style_from]. split.
    + destruct Hbranch as (xs & x & y & Hstart & Hx & Hy & Hin).
      exists xs, x, y. split_and!; [|done..|by eapply elem_of_prefix].
      destruct Hstart as [[-> ->]|(r & i & -> & Hr)].
      * right. exists [], j. rewrite app_nil_r. split; [done|].
        by apply py_lookup_inv.
      * right. exists (j :: r), i. split; [done|]. by rewrite <- snoc_app.
    + intros Hne. destruct (Hconnect Hne) as (x & yt & yb & Hx & Hyt & Hyb & Hin).
      exists x, yt, yb. split_and!; [done..|by eapply elem_of_prefix].
Qed.

End draw_horizontal.

(** When [draw] returns in a Cartesian orientation, [draw_clade] has
    returned on the root, and every line collection that it has made is on
    the axes. *)
Lemma draw_runs_draw_clade lw fs plt tree a h x_posns y_posns :
  Draw.str_in (Draw.orient_tree a) ["horizontal"; "vertical"] = true →
  (draw lw fs plt tree a h).1 = Ok tt →
  Draw.get_x_positions tree = Ok x_posns →
  Draw.get_y_positions tree = Ok y_posns →
  ∃ f s2 s4,
    Draw.heap s2 = h ∧
    Draw.draw_clade lw tree a f
      (Draw.choose_get_label_color (Draw.label_colors a)) x_posns y_posns
      (root tree) [] 0 "k" lw s2 = (Ok tt, s4) ∧
    ∀ lc, lc ∈ Draw.horizontal_linecollections s4 ∨
          lc ∈ Draw.vertical_linecollections s4 →
          Draw.axes_add_collection lc ∈ Draw.calls (draw lw fs plt tree a h).2.
Proof.
  intros Hcart Hok Hx Hy. unfold draw in *.
  destruct (Draw.draw_body lw fs plt tree a (Draw.mkPlot h [] [] []))
    as [res s_end] eqn:Hrun.
  simpl in Hok. subst res. simpl. unfold Draw.draw_body in Hrun.
  apply bind_Ok_inv in Hrun as (u & s1 & Hfig & Hrun).
  tail_grows Hrun.
  { preserves_auto. apply preserves_pyplot_option. }
  unfold Draw.draw_figure in Hfig.
  inv_bind Hfig u0. inv_bind Hfig f. inv_bind Hfig x'. inv_bind Hfig y'.
  simplify_eq.
  repeat match goal with
  | H : Ok _ = _ |- _ => symmetry in H
  end.
  assert (x' = x_posns) as -> by congruence.
  assert (y' = y_posns) as -> by congruence.
  apply bind_Ok_inv in Hfig as (u1 & s2 & Haxes & Hfig).
  tail_grows Haxes. { apply preserves_setup_axes. }
  apply bind_Ok_inv in Hfig as (u2 & s3 & Htree & Hfig).
  tail_grows Hfig. { preserves_auto. }
  unfold Draw.draw_tree in Htree. rewrite Hcart in Htree.
  apply bind_Ok_inv in Htree as ([] & s4 & Hclade & Htree).
  inv_bind Htree hs. simplify_eq.
  rewrite bind_Ok with (1 := add_collections _ _ _) in Htree.
  inv_bind Htree vs. simplify_eq.
  rewrite bind_Ok with (1 := add_collections _ _ _) in Htree.
  tail_grows Htree. { preserves_auto. }
  exists f, s2, s4. split; [by destruct Haxes as (-> & _)|]. split; [done|].
  intros lc Hlc.
  destruct Hrun as (_ & Hc1 & _). destruct Hfig as (_ & Hc2 & _).
  destruct Htree as (_ & Hc3 & _).
  eapply elem_of_prefix; [|done]. eapply elem_of_prefix; [|done].
  eapply elem_of_prefix; [|done]. simpl.
  rewrite !elem_of_app, !list_elem_of_fmap. destruct Hlc as [?|?].
  - left. right. eauto.
  - right. eauto.
Qed.

(** X16: in the vertical orientation, when [draw] returns, every clade
    with children has the line that connects its children on the axes: a
    line collection at the depth of the clade, from the height of its last
    child to the height of its first child, in the color and the line width
    handed down to the clade. *)
Theorem draw_connects_children lw fs plt tree a h x_posns y_posns :
  Draw.orient_tree a = "vertical" →
  (draw lw fs plt tree a h).1 = Ok tt →
  Draw.get_x_positions tree = Ok x_posns →
  Draw.get_y_positions tree = Ok y_posns →
  ∀ q c', subclade (root tree) q = Some c' → clades c' ≠ [] →
    ∃ x y_top y_bot,
      x_posns !! q = Some x ∧
      y_posns !! (q ++ [0%nat]) = Some y_top ∧
      y_posns !! (q ++ [(length (clades c') - 1)%nat]) = Some y_bot ∧
      Draw.axes_add_collection
        (Draw.mkLineCollection ((x, y_bot), (x, y_top))
           (style_from h lw "k" lw [] q).1
           (style_from h lw "k" lw [] q).2 "solid")
      ∈ Draw.calls (draw lw fs plt tree a h).2.
Proof.
  intros Hv Hok Hx Hy q c' Hq Hne.
  destruct (draw_runs_draw_clade lw fs plt tree a h x_posns y_posns)
    as (f & s2 & s4 & Hheap & Hclade & Hcalls); [by rewrite Hv|done..|].
  destruct (draw_clade_connectors lw tree a f _ x_posns y_posns (root tree) Hv
              _ _ _ _ _ _ Hclade q c' Hq Hne)
    as (x & yt & yb & Hxq & Hyt & Hyb & Hin).
  simpl in Hxq, Hyt, Hyb. rewrite Hheap in Hin.
  exists x, yt, yb. split_and!; [done..|]. apply Hcalls. by right.
Qed.

(** X17: in the horizontal orientation, when [draw] returns, the tree is on
    the axes with the two coordinates exchanged: every clade but the root
    has a line collection at its height, from the depth of its parent to
    its own depth, and every clade with children one at its depth, from the
    height of its last child to the height of its first child. *)
Theorem draw_horizontal_exchanges_axes lw fs plt tree a h x_posns y_posns :
  Draw.orient_tree a = "horizontal" →
  (draw lw fs plt tree a h).1 = Ok tt →
  Draw.get_x_positions tree = Ok x_posns →
  Draw.get_y_positions tree = Ok y_posns →
  (∀ r i c', subclade (root tree) (r ++ [i]) = Some c' →
     ∃ xs x y,
       x_posns !! r = Some xs ∧
       x_posns !! (r ++ [i]) = Some x ∧ y_posns !! (r ++ [i]) = Some y ∧
       Draw.axes_add_collection
         (Draw.mkLineCollection ((y, xs), (y, x))
            (style_from h lw "k" lw [] (r ++ [i])).1
            (style_from h lw "k" lw [] (r ++ [i])).2 "solid")
       ∈ Draw.calls (draw lw fs plt tree a h).2) ∧
  (∀ q c', subclade (root tree) q = Some c' → clades c' ≠ [] →
     ∃ x y_top y_bot,
       x_posns !! q = Some x ∧
       y_posns !! (q ++ [0%nat]) = Some y_top ∧
       y_posns !! (q ++ [(length (clades c') - 1)%nat]) = Some y_bot ∧
       Draw.axes_add_collection
         (Draw.mkLineCollection ((y_bot, x), (y_top, x))
            (style_from h lw "k" lw [] q).1
            (style_from h lw "k" lw [] q).2 "solid")
       ∈ Draw.calls (draw lw fs plt tree a h).2).
Proof.
  intros Hh Hok Hx Hy.
  destruct (draw_runs_draw_clade lw fs plt tree a h x_posns y_posns)
    as (f & s2 & s4 & Hheap & Hclade & Hcalls); [by rewrite Hh|done..|].
  pose proof (draw_clade_horizontal_lines lw tree a f _ x_posns y_posns
                (root tree) Hh _ _ _ _ _ _ Hclade) as Hlines.
  rewrite Hheap in Hlines. split.
  - intros r i c' Hq.
    destruct (Hlines (r ++ [i]) c' Hq)
      as [(xs & x & y & Hstart & Hxq & Hyq & Hin) _].
    simpl in Hxq, Hyq.
    destruct Hstart as [[Hnil _]|(r' & i' & Heq & Hxs)]; [by destruct r|].
    apply app_inj_tail in Heq as [<- <-]. simpl in Hxs.
    exists xs, x, y. split_and!; [done..|]. apply Hcalls. by right.
  - intros q c' Hq Hne.
    destruct (Hlines q c' Hq) as [_ Hconn].
    destruct (Hconn Hne) as (x & yt & yb & Hxq & Hyt & Hyb & Hin).
    simpl in Hxq, Hyt, Hyb.
    exists x, yt, yb. split_and!; [done..|]. apply Hcalls. by left.
Qed.

(** X16 on ((A, B), C), at the clade of A and B. *)
Lemma draw_connects_children_witness :
  ∃ x_posns y_posns x y_top y_bot,
    Draw.get_x_positions tree_ab_c = Ok x_posns ∧
    Draw.get_y_positions tree_ab_c = Ok y_posns ∧
    x_posns !! [0%nat] = Some x ∧
    y_posns !! [0%nat; 0%nat] = Some y_top ∧
    y_posns !! [0%nat; 1%nat] = Some y_bot ∧
    Draw.axes_add_collection
      (Draw.mkLineCollection ((x, y_bot), (x, y_top)) "k" 1 "solid")
    ∈ Draw.calls (draw 1 no_float_str pyplot tree_ab_c default_args no_annotations).2.
Proof.
  destruct (Draw.get_x_positions tree_ab_c) as [x_posns|e] eqn:Hx;
    [|by vm_compute in Hx].
  destruct (Draw.get_y_positions tree_ab_c) as [y_posns|e] eqn:Hy;
    [|by vm_compute in Hy].
  destruct (draw_connects_children 1 no_float_str pyplot tree_ab_c default_args
              no_annotations x_posns y_posns eq_refl ltac:(by vm_compute)
              Hx Hy [0%nat] (inner [leaf "A"; leaf "B"]) eq_refl
              ltac:(discriminate))
    as (x & yt & yb & Hxq & Hyt & Hyb & Hin).
  by exists x_posns, y_posns, x, yt, yb.
Defined.

(** X17 on ((A, B), C), at the branch of B. *)
Lemma draw_horizontal_exchanges_axes_witness :
  ∃ x_posns y_posns xs x y,
    Draw.get_x_positions tree_ab_c = Ok x_posns ∧
    Draw.get_y_positions tree_ab_c = Ok y_posns ∧
    x_posns !! [0%nat] = Some xs ∧
    x_posns !! [0%nat; 1%nat] = Some x ∧ y_posns !! [0%nat; 1%nat] = Some y ∧
    Draw.axes_add_collection
      (Draw.mkLineCollection ((y, xs), (y, x)) "k" 1 "solid")
    ∈ Draw.calls (draw 1 no_float_str pyplot tree_ab_c
                    (with_orient_tree "horizontal" default_args)
                    no_annotations).2.
Proof.
  destruct (Draw.get_x_positions tree_ab_c) as [x_posns|e] eqn:Hx;
    [|by vm_compute in Hx].
  destruct (Draw.get_y_positions tree_ab_c) as [y_posns|e] eqn:Hy;
    [|by vm_compute in Hy].
  destruct (proj1 (draw_horizontal_exchanges_axes 1 no_float_str pyplot tree_ab_c
              (with_orient_tree "horizontal" default_args)
              no_annotations x_posns y_posns eq_refl ltac:(by vm_compute)
              Hx Hy) [0%nat] 1%nat (leaf "B") eq_refl)
    as (xs & x & y & Hxs & Hxq & Hyq & Hin).
  by exists x_posns, y_posns, xs, x, y.
Defined.

(** X18: on a tree with more than one clade whose branch lengths are
    moderate (none, zero, or between 2^-500 and 2^500), when the drawing is
    at least as wide as the fudge margin and at most 2^30 columns wide, the
    two layouts of [draw_ascii] give every clade a column between 1 and
    [drawing_width - fudge_margin + 1] and a row between 0 and 2n - 2, n
    the number of terminals.  The rows are the rows of the character
    matrix; with three terminals or more the fudge margin is 2 at least,
    and the column is a column of the character matrix as well. *)
Theorem ascii_layouts_inside_matrix tree drawing_width :
  moderate_lengths (root tree) = true →
  clades (root tree) ≠ [] →
  Z.log2_up (len (BaseTree.get_terminals tree)) ≤ drawing_width ≤ 2 ^ 30 →
  ∃ cols rows,
    DrawAscii.get_col_positions (BaseTree.get_terminals tree) drawing_width tree
      = Ok cols ∧
    DrawAscii.get_row_positions (BaseTree.get_terminals tree) tree = Ok rows ∧
    ∀ p c, subclade (root tree) p = Some c →
      ∃ col row,
        cols !! p = Some col ∧ rows !! p = Some row ∧
        1 ≤ col ≤ drawing_width
                  - Z.log2_up (len (BaseTree.get_terminals tree)) + 1 ∧
        0 ≤ row < 2 * len (BaseTree.get_terminals tree) - 1 ∧
        (3 ≤ len (BaseTree.get_terminals tree) → col < drawing_width).
Proof.
  intros Hnn%moderate_nonneg Hne [Hroom _].
  assert (0 < len (BaseTree.get_terminals tree)) as Hpos.
  { pose proof (terminals_nonempty tree) as Hnil. unfold len.
    destruct (BaseTree.get_terminals tree); [done|simpl; lia]. }
  destruct (get_col_positions_within tree (BaseTree.get_terminals tree)
              drawing_width Hnn Hne Hpos Hroom) as (cols & Hcols & Hcin).
  destruct (get_row_positions_spec tree Hne) as (rows & Hrows & Htips & Hmid).
  exists cols, rows. split; [done|]. split; [done|].
  intros p c Hp.
  destruct (Hcin p c Hp) as (col & Hcol & Hcb).
  destruct (rows_within tree rows Htips Hmid c p Hp) as (row & Hrow & Hrb).
  exists col, row. split_and!; [done|done|lia..|].
  intros Hthree.
  assert (2 ≤ Z.log2_up (len (BaseTree.get_terminals tree))) as Hfudge.
  { change 2 with (Z.log2_up 3). by apply Z.log2_up_le_mono. }
  lia.
Qed.

(** X18 on ((A, B), (C, D)), in 78 columns. *)
Lemma ascii_layouts_inside_matrix_witness :
  ∃ cols rows,
    DrawAscii.get_col_positions (BaseTree.get_terminals balanced4) 78 balanced4
      = Ok cols ∧
    DrawAscii.get_row_positions (BaseTree.get_terminals balanced4) balanced4
      = Ok rows ∧
    ∀ p c, subclade (root balanced4) p = Some c →
      ∃ col row,
        cols !! p = Some col ∧ rows !! p = Some row ∧
        1 ≤ col ≤ 78 - Z.log2_up (len (BaseTree.get_terminals balanced4)) + 1 ∧
        0 ≤ row < 2 * len (BaseTree.get_terminals balanced4) - 1 ∧
        (3 ≤ len (BaseTree.get_terminals balanced4) → col < 78).
Proof.
  apply (ascii_layouts_inside_matrix balanced4 78).
  - by vm_compute.
  - discriminate.
  - by vm_compute.
Defined.

Lemma inherit_snoc {A} (m : gmap path A) q :
  ∀ acc p i,
  inherit m acc p (q ++ [i])
  = match m !! (p ++ q ++ [i]) with
    | Some x => Some x
    | None => inherit m acc p q
    end.
Proof.
  induction q as [|j q IH]; intros acc p i; simpl.
  - done.
  - rewrite IH. by rewrite <- (snoc_app p j (q ++ [i])).
Qed.

Lemma inherit_fixed {A} (c : Clade) (a0 a1 : gmap path A) :
  a1 !! [] = a0 !! [] →
  (∀ p i child, subclade c (p ++ [i]) = Some child →
     a1 !! (p ++ [i]) = match a0 !! (p ++ [i]) with
                        | Some x => Some x
                        | None => a1 !! p
                        end) →
  ∀ n, is_Some (subclade c n) → a1 !! n = inherit a0 None [] n.
Proof.
  intros Hroot Hrec n.
  induction n as [|i p IH] using rev_ind; intros Hn.
  - simpl. rewrite Hroot. by destruct (a0 !! []).
  - pose proof (subclade_parent _ _ _ Hn) as Hp. destruct Hn as [child Hn].
    rewrite (Hrec p i child Hn), inherit_snoc, (IH Hp). done.
Qed.

(** X19: with networkx 1.0 or later, after [to_networkx] every clade of the
    tree has the color of the nearest clade, itself or above it, that had a
    color before the call, and no color when none had; its width
    likewise. *)
Theorem to_networkx_nearest_ancestor version tree h :
  String.leb "1.0" version = true →
  ∀ n, is_Some (subclade (root tree) n) →
    clade_color (to_networkx version tree h).2 !! n
      = inherit (clade_color h) None [] n ∧
    clade_width (to_networkx version tree h).2 !! n
      = inherit (clade_width h) None [] n.
Proof.
  intros Hv n Hn.
  destruct (to_networkx_attrs version tree h Hv) as (g & h' & -> & Hf & Hvals).
  simpl. destruct (Hf []) as [Hc Hw]; [by right|]. split.
  - apply (inherit_fixed (root tree)); [done| |done].
    intros p i child Hq. by destruct (Hvals p i child Hq) as (? & _).
  - apply (inherit_fixed (root tree)); [done| |done].
    intros p i child Hq. by destruct (Hvals p i child Hq) as (_ & ? & _).
Qed.

(** X19 under networkx 2.8, at A1 in root -> A -> (A1, A2) with a red
    root. *)
Lemma to_networkx_nearest_ancestor_witness :
  clade_color (to_networkx "2.8" no_lengths red_root).2 !! [0%nat; 0%nat]
    = Some "#ff0000"%string ∧
  clade_width (to_networkx "2.8" no_lengths red_root).2 !! [0%nat; 0%nat]
    = None.
Proof.
  apply (to_networkx_nearest_ancestor "2.8" no_lengths red_root eq_refl
           [0%nat; 0%nat]).
  simpl. eauto.
Defined.

(** ** [draw]: the calls that it issues *)

#[local] Instance adds_expected_preorder a : PreOrder (adds_expected a).
Proof.
  split.
  - intros s c Hc. by left.
  - intros s1 s2 s3 H12 H23 c Hc.
    destruct (H23 c Hc) as [Hc2|?]; [|by right]. by apply H12.
Qed.

Lemma adds_expected_issue_or a c :
  expected_call a c = true ∨ passes_on a c →
  preserves (adds_expected a) (Draw.issue c).
Proof.
  intros Hc. apply (preserves_modify (adds_expected a)). intros s c' Hin.
  simpl in Hin. apply elem_of_app in Hin as [?|Hin]; [by left|].
  apply list_elem_of_singleton in Hin as ->. by right.
Qed.

Lemma adds_expected_issue a c :
  expected_call a c = true → preserves (adds_expected a) (Draw.issue c).
Proof. intros Hc. apply adds_expected_issue_or. by left. Qed.

Lemma adds_expected_lines a o y xs xh yb yt c lw ls :
  preserves (adds_expected a) (Draw.draw_clade_lines true o y xs xh yb yt c lw ls).
Proof.
  unfold Draw.draw_clade_lines. cbn [negb andb].
  repeat case_match;
    try (by apply (preserves_ret (adds_expected a)));
    apply (preserves_modify (adds_expected a)); intros s c' Hin; by left.
Qed.

Ltac expected_step a :=
  lazymatch goal with
  | |- preserves _ (mbind _ _) =>
      apply (preserves_bind (adds_expected a)); [|intros ?]
  | |- preserves _ (mret _) => apply (preserves_ret (adds_expected a))
  | |- preserves _ (lift _) => apply (preserves_lift (adds_expected a))
  | |- preserves _ (raise _) => apply (preserves_raise (adds_expected a))
  | |- preserves _ (gets _) => apply (preserves_gets (adds_expected a))
  | |- preserves _ (when _ _) => apply (preserves_when (adds_expected a))
  | |- preserves _ (for_each_M _ _ _) =>
      apply (preserves_for_each_M (adds_expected a)); intros ? ? ?
  | |- preserves _ (Draw.issue _) => apply adds_expected_issue; reflexivity
  | |- preserves _ (Draw.draw_clade_lines true _ _ _ _ _ _ _ _ _) =>
      apply adds_expected_lines
  | |- preserves _ (if ?b then _ else _) => destruct b
  | |- preserves _ (match ?x with _ => _ end) => destruct x
  | |- preserves _ (let _ := _ in _) => lazy zeta
  end.

Ltac expected_auto a := repeat expected_step a.

Section draw_expected.
Variables (lw0 : Q) (float_str : Q → string) (tree : Tree) (a : Draw.Args).
Variables (format_branch_label : path → Clade → option string).
Variables (get_label_color : string → string) (x_posns y_posns : gmap path Q).

Lemma adds_expected_draw_label p clade x y xmax text_at :
  (∀ xplc label, preserves (adds_expected a) (text_at xplc label)) →
  preserves (adds_expected a) (Draw.draw_label tree a p clade x y xmax text_at).
Proof. intros Htext. unfold Draw.draw_label. expected_auto a; apply Htext. Qed.

Lemma adds_expected_draw_clade clade :
  ∀ p x_start color lw,
  preserves (adds_expected a)
    (Draw.draw_clade lw0 tree a format_branch_label get_label_color
       x_posns y_posns clade p x_start color lw).
Proof.
  induction clade as [nm bl cf cfs subs IH] using Clade_ind.
  intros p x_start color lw. cbn [Draw.draw_clade clades].
  rewrite Forall_lookup in IH.
  expected_auto a;
    try (apply adds_expected_draw_label; intros; expected_auto a);
    eapply IH; eassumption.
Qed.

Lemma adds_expected_draw_clade_polar clade :
  ∀ p lw x_start y_start,
  preserves (adds_expected a)
    (Draw.draw_clade_polar tree a x_posns y_posns clade p "k" lw
       x_start y_start).
Proof.
  induction clade as [nm bl cf cfs subs IH] using Clade_ind.
  intros p lw x_start y_start. cbn [Draw.draw_clade_polar clades].
  rewrite Forall_lookup in IH.
  expected_auto a; eapply IH; eassumption.
Qed.

Lemma adds_expected_draw_tree :
  preserves (adds_expected a)
    (Draw.draw_tree lw0 tree a format_branch_label get_label_color
       x_posns y_posns).
Proof.
  unfold Draw.draw_tree.
  expected_auto a;
    first [apply adds_expected_draw_clade
          | apply adds_expected_draw_clade_polar].
Qed.

End draw_expected.

Lemma adds_expected_setup_axes a :
  preserves (adds_expected a) (Draw.setup_axes a).
Proof.
  unfold Draw.setup_axes. destruct (Draw.axes a) as [ax|] eqn:Hax.
  - expected_auto a.
  - repeat first
      [ apply (preserves_bind (adds_expected a)); [|intros ?]
      | apply (preserves_when (adds_expected a))
      | apply adds_expected_issue; unfold expected_call; by rewrite ?Hax ].
Qed.

Lemma adds_expected_draw_body lw fs plt tree a :
  preserves (adds_expected a) (Draw.draw_body lw fs plt tree a).
Proof.
  unfold Draw.draw_body, Draw.draw_figure.
  repeat (apply (preserves_bind (adds_expected a)); [|intros ?]).
  - apply (preserves_lift (adds_expected a)).
  - apply (preserves_lift (adds_expected a)).
  - apply (preserves_lift (adds_expected a)).
  - apply (preserves_lift (adds_expected a)).
  - apply adds_expected_setup_axes.
  - apply adds_expected_draw_tree.
  - expected_auto a.
  - apply (preserves_for_each_M (adds_expected a)). intros j [key v] Hj.
    apply list_elem_of_lookup_2 in Hj.
    assert (∀ args kw,
              passed_on v → option_call (key, v) = Draw.plt_option key args kw →
              preserves (adds_expected a) (Draw.pyplot_call plt key args kw))
      as Hcall.
    { intros args kw Hv Heq. unfold Draw.pyplot_call.
      destruct (plt key) as [f|]; [|apply (preserves_raise (adds_expected a))].
      apply (preserves_bind (adds_expected a));
        [|intros ?; apply (preserves_lift (adds_expected a))].
      apply adds_expected_issue_or. right. exists (key, v). by rewrite Heq. }
    unfold Draw.pyplot_option. cbn [fst snd].
    destruct v as [str|kw|[|arg args]|args kw|e|e];
      first [ apply (preserves_raise (adds_expected a))
            | by apply Hcall
            | destruct (plt key); apply (preserves_raise (adds_expected a)) ].
  - destruct (Draw.do_show a) eqn:Hshow; [|apply (preserves_ret (adds_expected a))].
    apply adds_expected_issue. done.
Qed.

(** X20: whatever its outcome, the code of [draw] by itself makes a
    figure and subplots only when no axes are given, calls [plt.show()] only
    when [do_show] is set, and never calls [axes.hlines] or [axes.vlines]:
    every line goes through a line collection.  The one other way in which
    [draw] calls [pyplot] is by the name of a keyword argument: every such
    call passes on a keyword argument that the caller gave under that name,
    so [show], [figure] or [hlines] of [pyplot] are called this way exactly
    when the caller names them. *)
Theorem draw_issues_expected_calls lw fs plt tree a h :
  ∀ c, c ∈ Draw.calls (draw lw fs plt tree a h).2 →
    (∀ y xmin xmax color w ls, c ≠ Draw.axes_hlines y xmin xmax color w ls) ∧
    (∀ x ymin ymax color ls, c ≠ Draw.axes_vlines x ymin ymax color ls) ∧
    (Draw.do_show a = false → c ≠ Draw.plt_show) ∧
    (is_Some (Draw.axes a) →
     c ≠ Draw.plt_figure ∧ ∀ projection, c ≠ Draw.fig_add_subplot projection) ∧
    (∀ key args kw, c = Draw.plt_option key args kw →
       ∃ v, (key, v) ∈ Draw.kwargs a ∧ passed_on v ∧
            option_call (key, v) = Draw.plt_option key args kw).
Proof.
  intros c Hc. unfold draw in Hc.
  destruct (Draw.draw_body lw fs plt tree a (Draw.mkPlot h [] [] []))
    as [res s'] eqn:Hrun.
  apply adds_expected_draw_body in Hrun.
  destruct (Hrun c Hc) as [Hin|[Hexp|([key v] & Hkv & Hv & ->)]];
    [by apply elem_of_nil in Hin| |].
  - split_and!.
    + intros ? ? ? ? ? ? ->. done.
    + intros ? ? ? ? ? ->. done.
    + intros Hshow ->. simpl in Hexp. congruence.
    + intros [ax Hax]. split.
      * intros ->. simpl in Hexp. by rewrite Hax in Hexp.
      * intros proj ->. simpl in Hexp. by rewrite Hax in Hexp.
    + intros key args kw ->. done.
  - assert (∃ args kw, option_call (key, v) = Draw.plt_option key args kw)
      as (args & kw & Heq).
    { unfold option_call. simpl. destruct v; eauto. }
    rewrite Heq. split_and!; try done.
    intros key' args' kw' [= <- <- <-]. exists v. by rewrite <- Heq.
Qed.

(** X20 on ((A, B), C) without [do_show] and with the keyword arguments
    [show={}] and [hlines=(1, 0, 2)], at the call of [plt.show()] that the
    first of them makes. *)
Lemma draw_issues_expected_calls_witness :
  let a := Draw.mkArgs (λ _ clade, Some (BaseTree.str clade)) false true None
             Draw.BL_None Draw.LC_None "vertical" "down" "right" 355 true
             false
             [("show"%string, Draw.kw_dict []);
              ("hlines"%string, Draw.kw_args ["1"%string; "0"%string; "2"%string])] in
  let c := Draw.plt_option "show" [] [] in
  (∀ y xmin xmax color w ls, c ≠ Draw.axes_hlines y xmin xmax color w ls) ∧
  (∀ x ymin ymax color ls, c ≠ Draw.axes_vlines x ymin ymax color ls) ∧
  (Draw.do_show a = false → c ≠ Draw.plt_show) ∧
  (is_Some (Draw.axes a) →
   c ≠ Draw.plt_figure ∧ ∀ projection, c ≠ Draw.fig_add_subplot projection) ∧
  (∀ key args kw, c = Draw.plt_option key args kw →
     ∃ v, (key, v) ∈ Draw.kwargs a ∧ passed_on v ∧
          option_call (key, v) = Draw.plt_option key args kw).
Proof.
  intros a c.
  apply (draw_issues_expected_calls 1 no_float_str pyplot tree_ab_c a
           no_annotations).
  apply (list_elem_of_lookup_2 _ 16%nat). by vm_compute.
Defined.

(** ** [draw]: a keyword argument that is not passed on *)

(** X21: a keyword argument that [draw] cannot pass on ends the call
    after the tree has been drawn and the keyword arguments before it have
    been passed on, with nothing called after them.  What [value[0]] raises
    is raised (IndexError on an empty sequence); a name that [pyplot] does
    not have raises AttributeError; what [dict(value[1])] raises is raised
    when [pyplot] has the name; and what the function of [pyplot] raises is
    raised by [draw], the call having been made. *)
Theorem draw_keyword_argument_fails lw fs plt tree a h s1 before key v after :
  Draw.draw_figure lw fs tree a (Draw.mkPlot h [] [] []) = (Ok tt, s1) →
  Draw.kwargs a = before ++ (key, v) :: after →
  Forall (forwarded plt) before →
  let passed calls :=
    Draw.mkPlot (Draw.heap s1) (Draw.calls s1 ++ (option_call <$> before) ++ calls)
      (Draw.horizontal_linecollections s1)
      (Draw.vertical_linecollections s1) in
  (v = Draw.kw_args [] →
   draw lw fs plt tree a h = (Raise IndexError, passed [])) ∧
  (∀ e, v = Draw.kw_no_item e →
   draw lw fs plt tree a h = (Raise e, passed [])) ∧
  (passed_on v ∨ (∃ e, v = Draw.kw_bad_pair e) → plt key = None →
   draw lw fs plt tree a h = (Raise AttributeError, passed [])) ∧
  (∀ f e, v = Draw.kw_bad_pair e → plt key = Some f →
   draw lw fs plt tree a h = (Raise e, passed [])) ∧
  (∀ f args kw e,
     passed_on v → plt key = Some f →
     option_call (key, v) = Draw.plt_option key args kw →
     f args kw = Raise e →
     draw lw fs plt tree a h = (Raise e, passed [Draw.plt_option key args kw])).
Proof.
  intros Hfig Hkw Hbefore passed.
  assert (∀ e calls,
            Draw.pyplot_option plt key v (passed []) = (Raise e, passed calls) →
            draw lw fs plt tree a h = (Raise e, passed calls)) as Hrun.
  { intros e calls Hopt. unfold draw, Draw.draw_body.
    rewrite (bind_Ok _ _ _ _ _ Hfig), Hkw.
    apply bind_Raise. rewrite for_each_M_app.
    rewrite (bind_Ok _ _ _ _ _ (options_passed_on plt before _ _ Hbefore)).
    cbn [for_each_M]. apply bind_Raise. cbn [fst snd].
    unfold passed in Hopt. rewrite app_nil_r in Hopt. exact Hopt. }
  split_and!.
  - intros ->. by apply Hrun.
  - intros e ->. by apply Hrun.
  - intros Hv Hkey. apply Hrun.
    unfold Draw.pyplot_option, Draw.pyplot_call. rewrite Hkey.
    destruct Hv as [Hv|[e ->]]; [|done].
    by destruct v as [str|kw|[|arg args]|args kw|e|e].
  - intros f e -> Hkey. apply Hrun.
    unfold Draw.pyplot_option. by rewrite Hkey.
  - intros f args kw e Hv Hkey Hcall Hf. apply Hrun.
    unfold option_call in Hcall. simpl in Hcall.
    unfold Draw.pyplot_option, Draw.pyplot_call. rewrite Hkey.
    destruct v as [str|kw'|[|arg args']|args' kw'|e'|e']; try done;
      injection Hcall as <- <-;
      unfold mbind, M_bind, Draw.issue, modify, lift; rewrite Hf;
      unfold passed; simpl; by rewrite app_nil_r, <- app_assoc.
Qed.

(** X21 on ((A, B), C) with the keyword arguments [title=("T",)] and
    [foo=(1,)]: [pyplot] has no [foo]. *)
Lemma draw_keyword_argument_fails_witness :
  let a := with_kwargs
             [("title"%string, Draw.kw_args ["T"%string]);
              ("foo"%string, Draw.kw_args ["1"%string])]
             default_args in
  let s1 := (Draw.draw_figure 1 no_float_str tree_ab_c a
               (Draw.mkPlot no_annotations [] [] [])).2 in
  draw 1 no_float_str pyplot tree_ab_c a no_annotations =
    (Raise AttributeError,
     Draw.mkPlot (Draw.heap s1)
       (Draw.calls s1 ++ [Draw.plt_option "title" ["T"%string] []] ++ [])
       (Draw.horizontal_linecollections s1)
       (Draw.vertical_linecollections s1)).
Proof.
  intros a s1.
  destruct (draw_keyword_argument_fails 1 no_float_str pyplot tree_ab_c a
              no_annotations s1 [("title"%string, Draw.kw_args ["T"%string])]
              "foo" (Draw.kw_args ["1"%string]) [])
    as (_ & _ & Hname & _).
  - by vm_compute.
  - reflexivity.
  - repeat constructor; eexists; split; reflexivity.
  - apply Hname; [by left|reflexivity].
Defined.

(** ** [draw] and [to_networkx]: the color of the parent *)

Lemma style_from_parent h lw0 q :
  ∀ color lw p i c,
  clade_color h !! (p ++ q) = Some c →
  clade_color h !! (p ++ q ++ [i]) = None →
  (style_from h lw0 color lw p (q ++ [i])).1 = c.
Proof.
  induction q as [|j q IH]; intros color lw p i c Hp Hc.
  - rewrite app_nil_r in Hp. simpl in *. by rewrite Hp, Hc.
  - cbn [app style_from]. apply IH.
    + by rewrite (snoc_app p j q).
    + by rewrite (snoc_app p j (q ++ [i])).
Qed.

(** C8, amended: [draw] hands the color down as an argument of
    [draw_clade] and assigns no attribute of any clade, whatever its
    arguments and its outcome.  When it returns in the vertical or the
    horizontal orientation, the branch of a clade without a color whose
    parent has one is on the axes in the color of the parent; whatever the
    orientation, every line that is plotted (the circular drawing) is
    black.  The inheritance that changes the tree is that of [to_networkx]
    with networkx 1.0 or later: a child of the root without a color
    carries the color of the root after the call. *)
Theorem C8_draw_keeps_tree_to_networkx_cascades lw fs plt tree a h :
  Draw.heap (draw lw fs plt tree a h).2 = h ∧
  (∀ x_posns y_posns r i child c,
     (draw lw fs plt tree a h).1 = Ok tt →
     Draw.get_x_positions tree = Ok x_posns →
     Draw.get_y_positions tree = Ok y_posns →
     subclade (root tree) (r ++ [i]) = Some child →
     clade_color h !! r = Some c →
     clade_color h !! (r ++ [i]) = None →
     ∃ xs x y w,
       x_posns !! r = Some xs ∧
       x_posns !! (r ++ [i]) = Some x ∧ y_posns !! (r ++ [i]) = Some y ∧
       (Draw.orient_tree a = "vertical" →
        Draw.axes_add_collection
          (Draw.mkLineCollection ((xs, y), (x, y)) c w "solid")
        ∈ Draw.calls (draw lw fs plt tree a h).2) ∧
       (Draw.orient_tree a = "horizontal" →
        Draw.axes_add_collection
          (Draw.mkLineCollection ((y, xs), (y, x)) c w "solid")
        ∈ Draw.calls (draw lw fs plt tree a h).2)) ∧
  (∀ xs ys color w ls,
     Draw.axes_plot xs ys color w ls ∈ Draw.calls (draw lw fs plt tree a h).2 →
     color = "k") ∧
  (∀ version i child c,
     String.leb "1.0" version = true →
     clades (root tree) !! i = Some child →
     clade_color h !! [] = Some c →
     clade_color h !! [i] = None →
     clade_color (to_networkx version tree h).2 !! [i] = Some c).
Proof.
  split_and!.
  - unfold draw.
    destruct (Draw.draw_body lw fs plt tree a (Draw.mkPlot h [] [] []))
      as [r s'] eqn:Hrun.
    by apply preserves_draw_body in Hrun as (Hheap & _).
  - intros x_posns y_posns r i child c Hok Hx Hy Hq Hparent Hchild.
    destruct (get_x_positions_covers tree) as (x' & Hx' & Hxc).
    destruct (get_y_positions_covers tree) as (y' & Hy' & Hyc).
    assert (x' = x_posns) as -> by congruence.
    assert (y' = y_posns) as -> by congruence.
    destruct (subclade_parent (root tree) r i (mk_is_Some _ _ Hq))
      as [parent Hr].
    destruct (Hxc r parent Hr) as [xs Hxs].
    destruct (Hxc (r ++ [i]) child Hq) as [x Hxq].
    destruct (Hyc (r ++ [i]) child Hq) as [y Hyq].
    simpl in Hxs, Hxq, Hyq.
    exists xs, x, y, (style_from h lw "k" lw [] (r ++ [i])).2.
    split_and!; [done..| |].
    + intros Hv.
      destruct (draw_runs_draw_clade lw fs plt tree a h x_posns y_posns)
        as (f & s2 & s4 & Hheap & Hclade & Hcalls); [by rewrite Hv|done..|].
      destruct (draw_clade_branches lw tree a f _ x_posns y_posns (root tree)
                  Hv _ _ _ _ _ _ Hclade (r ++ [i]) child Hq)
        as (xs' & x0 & y0 & Hstart & Hx0 & Hy0 & Hin).
      simpl in Hx0, Hy0.
      destruct Hstart as [[Hnil _]|(r' & i' & Heq & Hxs')]; [by destruct r|].
      apply app_inj_tail in Heq as [<- <-]. simpl in Hxs'.
      rewrite Hheap, (style_from_parent h lw r "k" lw [] i c) in Hin by done.
      simplify_eq. apply Hcalls. by left.
    + intros Hh.
      destruct (draw_runs_draw_clade lw fs plt tree a h x_posns y_posns)
        as (f & s2 & s4 & Hheap & Hclade & Hcalls); [by rewrite Hh|done..|].
      destruct (draw_clade_horizontal_lines lw tree a f _ x_posns y_posns
                  (root tree) Hh _ _ _ _ _ _ Hclade (r ++ [i]) child Hq)
        as [(xs' & x0 & y0 & Hstart & Hx0 & Hy0 & Hin) _].
      simpl in Hx0, Hy0.
      destruct Hstart as [[Hnil _]|(r' & i' & Heq & Hxs')]; [by destruct r|].
      apply app_inj_tail in Heq as [<- <-]. simpl in Hxs'.
      rewrite Hheap, (style_from_parent h lw r "k" lw [] i c) in Hin by done.
      simplify_eq. apply Hcalls. by right.
  - intros xs ys color w ls Hc. unfold draw in Hc.
    destruct (Draw.draw_body lw fs plt tree a (Draw.mkPlot h [] [] []))
      as [res s'] eqn:Hrun.
    apply adds_expected_draw_body in Hrun.
    destruct (Hrun _ Hc) as [Hin|[Hexp|([key v] & _ & _ & Heq)]].
    + by apply elem_of_nil in Hin.
    + simpl in Hexp. by apply String.eqb_eq in Hexp.
    + unfold option_call in Heq. simpl in Heq. by destruct v.
  - intros version i child c. apply to_networkx_cascade.
Qed.

(** C8 at a red root with one child: the branch of the child is drawn in
    red, and the child is red after [to_networkx] under networkx 2.8. *)
Lemma C8_draw_keeps_tree_to_networkx_cascades_witness :
  (∃ xs x y w,
     Draw.axes_add_collection
       (Draw.mkLineCollection ((xs, y), (x, y)) "#ff0000" w "solid")
     ∈ Draw.calls (draw 1 no_float_str pyplot parent_child default_args
                     red_root).2) ∧
  clade_color (to_networkx "2.8" parent_child red_root).2 !! [0%nat]
    = Some "#ff0000"%string.
Proof.
  destruct (C8_draw_keeps_tree_to_networkx_cascades
              1 no_float_str pyplot parent_child default_args red_root)
    as (_ & Hdraw & _ & Hcascade).
  split.
  - destruct (Draw.get_x_positions parent_child) as [x_posns|e] eqn:Hx;
      [|by vm_compute in Hx].
    destruct (Draw.get_y_positions parent_child) as [y_posns|e] eqn:Hy;
      [|by vm_compute in Hy].
    destruct (Hdraw x_posns y_posns [] 0%nat (leaf "A") "#ff0000"%string
                ltac:(by vm_compute) eq_refl eq_refl eq_refl eq_refl eq_refl)
      as (xs & x & y & w & _ & _ & _ & Hv & _).
    exists xs, x, y, w. by apply Hv.
  - apply (Hcascade "2.8"%string 0%nat (leaf "A")); reflexivity.
Defined.
